(** * cuML: Forest Inference Library fixtures and the batched level-wise
      decision-tree kernels

    Shallow embedding of
    - [cpp/src/decisiontree/batched-levelalgo/kernels.cuh]
      ([SplitNotValid], [partitionSamples], [nodeSplitKernel], [fnv1a32],
      [select], [lower_bound]);
    - the FIL test fixture ([adjust_threshold_to_treelite], [transform],
      [apply_softmax], [infer_one_tree], [dense2sparse_node],
      [node_to_treelite]).

    Conventions.  [float] values are carried as their IEEE-754 binary32 bit
    pattern (a [Z] in [0, 2^32)); 32-bit integers are [Z] with the wrap-around
    written out; device and host arrays are lists read with stdpp's lookup
    and written with stdpp's insert. *)

From Stdlib Require Import ZArith Lia Bool List.
From Stdlib Require Import Floats.SpecFloat.
From stdpp Require Import base list.

Local Open Scope Z_scope.

(** ** IEEE-754 binary32 *)

Module F32.

(** A [float], as its 32 bits: sign (bit 31), biased exponent (bits 30..23),
    fraction (bits 22..0). *)
Definition t := Z.

Definition wf (x : t) : Prop := 0 <= x < 2 ^ 32.

Definition sign (x : t) : bool := Z.testbit x 31.
Definition magnitude (x : t) : Z := Z.land x 0x7FFFFFFF.
Definition inf_mag : Z := 0x7F800000.

Definition isnan (x : t) : bool := inf_mag <? magnitude x.
Definition isinf (x : t) : bool := magnitude x =? inf_mag.
Definition isfinite (x : t) : bool := magnitude x <? inf_mag.

(** Position of a non-NaN value on the number line: binary32 magnitudes are
    ordered like their bit patterns, and both zeros sit at 0. *)
Definition key (x : t) : Z := if sign x then - magnitude x else magnitude x.

(** The C++ comparison operators on [float]: false as soon as an operand is
    NaN. *)
Definition ordered (a b : t) : bool := negb (isnan a) && negb (isnan b).
Definition lt (a b : t) : bool := ordered a b && (key a <? key b).
Definition le (a b : t) : bool := ordered a b && (key a <=? key b).
Definition gt (a b : t) : bool := ordered a b && (key b <? key a).
Definition ge (a b : t) : bool := ordered a b && (key b <=? key a).
Definition eq (a b : t) : bool := ordered a b && (key a =? key b).

Definition pos_zero : t := 0.
Definition neg_zero : t := 0x80000000.
Definition one : t := 0x3F800000.
Definition pos_inf : t := 0x7F800000.
Definition neg_inf : t := 0xFF800000.
Definition quiet_nan : t := 0x7FC00000.

(** [std::nextafterf (x, -INFINITY)]. *)
Definition nextafterf_down (x : t) : t :=
  if isnan x then x
  else if magnitude x =? 0 then 0x80000001
  else if sign x then (if isinf x then x else x + 1)
  else x - 1.

(** Decoding to, and encoding from, the generic IEEE-754 model of the
    standard library at precision 24 and maximal exponent 128. *)
Definition prec : Z := 24.
Definition emax : Z := 128.

Definition decode (x : t) : spec_float :=
  let e := Z.shiftr (magnitude x) 23 in
  let m := Z.land x 0x7FFFFF in
  if e =? 255 then (if m =? 0 then S754_infinity (sign x) else S754_nan)
  else if e =? 0 then
    match m with
    | Zpos p => S754_finite (sign x) p (-149)
    | _ => S754_zero (sign x)
    end
  else
    match Z.lor m 0x800000 with
    | Zpos p => S754_finite (sign x) p (e - 150)
    | _ => S754_zero (sign x)
    end.

Definition sign_bit (s : bool) : Z := if s then 0x80000000 else 0.

Definition encode (f : spec_float) : t :=
  match f with
  | S754_zero s => sign_bit s
  | S754_infinity s => sign_bit s + inf_mag
  | S754_nan => quiet_nan
  | S754_finite s m e =>
      if Zpos m <? 0x800000 then sign_bit s + Zpos m
      else sign_bit s + Z.shiftl (e + 150) 23 + (Zpos m - 0x800000)
  end.

Definition add (a b : t) : t := encode (SFadd prec emax (decode a) (decode b)).
Definition sub (a b : t) : t := encode (SFsub prec emax (decode a) (decode b)).
Definition mul (a b : t) : t := encode (SFmul prec emax (decode a) (decode b)).
Definition div (a b : t) : t := encode (SFdiv prec emax (decode a) (decode b)).
Definition neg (a : t) : t := Z.lxor a 0x80000000.

(** Conversion of an [int] to [float] (round to nearest even). *)
Definition of_int (n : Z) : t := encode (binary_normalize prec emax n 0 false).

(** The magnitude of a finite value as an integer multiple of 2^-149, the
    smallest positive binary32 value: significand times 2^(exponent - 1), with
    the hidden bit set for a normal number. *)
Definition exponent (x : t) : Z := Z.shiftr (magnitude x) 23.
Definition fraction (x : t) : Z := Z.land x 0x7FFFFF.
Definition significand (x : t) : Z :=
  if exponent x =? 0 then fraction x else fraction x + 0x800000.
Definition scaled (x : t) : Z :=
  significand x * 2 ^ (Z.max (exponent x) 1 - 1).

(** A finite value without fractional part. *)
Definition is_integer (x : t) : bool :=
  isfinite x && (scaled x mod 2 ^ 149 =? 0).

(** Conversion of a [float] to [int]: truncation toward zero.  Only
    meaningful for values whose integer part fits an [int]. *)
Definition to_int (x : t) : Z :=
  let e := Z.shiftr (magnitude x) 23 in
  let m := Z.lor (Z.land x 0x7FFFFF) 0x800000 in
  let a := if e =? 0 then 0
           else if 150 <=? e then Z.shiftl m (e - 150)
           else Z.shiftr m (150 - e) in
  if sign x then - a else a.

End F32.

(** ** Machine integers *)

(** [int] (IdxT), [uint32_t] and [size_t] results, wrapped to their width. *)
Definition wrap_int (z : Z) : Z := (z + 2 ^ 31) mod 2 ^ 32 - 2 ^ 31.
Definition wrap_u32 (z : Z) : Z := z mod 2 ^ 32.
Definition wrap_size_t (z : Z) : Z := z mod 2 ^ 64.

(** ** The batched level-wise trainer: kernels.cuh *)

Module DT.

(** The range of instances belonging to a node: a slice of [input.rowids]. *)
Record InstanceRange := mkInstanceRange {
  range_begin : nat;   (* std::size_t begin *)
  range_count : nat    (* std::size_t count *)
}.

Record NodeWorkItem := mkNodeWorkItem {
  idx : Z;             (* size_t idx: index of the work item in the tree *)
  depth : Z;
  instances : InstanceRange
}.

(** Modelled from the spec: the [Split] record of split.cuh, which is not
    part of the sources at hand, with the four fields kernels.cuh reads
    (threshold, feature id, best objective value, left count). *)
Record Split := mkSplit {
  quesval : F32.t;
  colid : Z;
  best_metric_val : F32.t;
  nLeft : Z
}.

(** Modelled from the spec: the part of the [Input] descriptor of input.cuh
    that [partitionSamples] and [nodeSplitKernel] read: the column-major
    feature matrix, its number of rows [M] and the row-id permutation. *)
Record Input := mkInput {
  data : list F32.t;
  M : Z;
  rowids : list Z
}.

Definition SplitNotValid (split : Split) (min_impurity_decrease : F32.t)
    (min_samples_leaf : Z) (num_rows : Z) : bool :=
  F32.le (best_metric_val split) min_impurity_decrease
  || (nLeft split <? min_samples_leaf)
  || (wrap_int (wrap_int num_rows - nLeft split) <? min_samples_leaf).

(** [col[r]] with [col = input.data + split.colid * input.M].  A read outside
    the matrix is undefined in the source; here it yields a NaN. *)
Definition col_at (input : Input) (split : Split) (r : Z) : F32.t :=
  default F32.quiet_nan
    (data input !! Z.to_nat (wrap_int (colid split * M input) + r)).

(** [rowids[p]]; a read outside the array is undefined in the source and
    yields 0 here. *)
Definition rowid_at (rows : list Z) (p : nat) : Z := default 0 (rows !! p).

(** [cub::BlockScan::ExclusiveSum] over the 0/1 flags of the block's threads:
    each thread gets the number of flags raised by the threads before it, and
    every thread gets the block-wide total. *)
Fixpoint exclusive_sum_from (acc : nat) (flags : list bool) : list nat * nat :=
  match flags with
  | [] => ([], acc)
  | f :: fs =>
      let '(rest, total) := exclusive_sum_from (if f then S acc else acc) fs in
      (acc :: rest, total)
  end.

Definition ExclusiveSum (flags : list bool) : list nat * nat :=
  exclusive_sum_from 0 flags.

(** [if (flag) comp[idx] = off;] executed by the threads [tid], [tid+1], ...
    whose flags and scan results are given, where [off = offset + tid]. *)
Fixpoint compaction (offset tid : nat) (flags : list bool) (idxs : list nat)
    (comp : list nat) : list nat :=
  match flags, idxs with
  | f :: fs, i :: ixs =>
      compaction offset (S tid) fs ixs
        (if f then <[ i := (offset + tid)%nat ]> comp else comp)
  | _, _ => comp
  end.

(** [if (idx < minlen) flag = 0;] in every thread. *)
Definition reset_flags (minlen : nat) (flags : list bool) (idxs : list nat)
    : list bool :=
  zip_with (fun f i => if (i <? minlen)%nat then false else f) flags idxs.

(** The swap of thread [tid]. *)
Definition swap_one (lcomp rcomp : list nat) (rows : list Z) (tid : nat)
    : list Z :=
  let pl := default 0%nat (lcomp !! tid) in
  let pr := default 0%nat (rcomp !! tid) in
  let a := rowid_at rows pl in
  let b := rowid_at rows pr in
  <[ pr := a ]> (<[ pl := b ]> rows).

(** [if (tid < minlen) { swap }] over the threads of the block. *)
Definition swap_misfits (TPB minlen : nat) (lcomp rcomp : list nat)
    (rows : list Z) : list Z :=
  foldl (fun r tid => if (tid <? minlen)%nat then swap_one lcomp rcomp r tid
                      else r)
        rows (seq 0 TPB).

(** The state of the block while it runs [partitionSamples]: the row-id
    array in global memory, the two compaction buffers in shared memory, the
    block-uniform cursors and scan totals, and the per-thread flag registers
    (one list entry per thread; a flag only ever holds 0 or 1). *)
Record PartState := mkPartState {
  ps_rowids : list Z;
  ps_lcomp : list nat;
  ps_rcomp : list nat;
  ps_loffset : nat;
  ps_roffset : nat;
  ps_lflag : list bool;
  ps_rflag : list bool;
  ps_llen : nat;
  ps_rlen : nat;
  ps_minlen : nat
}.

Section PartitionSamples.
Variable TPB : nat.
Variable input : Input.
Variable split : Split.
Variable work_item : NodeWorkItem.

Definition range_start : nat := range_begin (instances work_item).
Definition range_len : nat := range_count (instances work_item).
Definition part : nat := (range_start + Z.to_nat (nLeft split))%nat.
Definition range_end : nat := (range_start + range_len)%nat.

(** One trip through the body of the [while] loop, all threads together. *)
Definition part_step (st : PartState) : PartState :=
  let rows := ps_rowids st in
  let loffset := ps_loffset st in
  let roffset := ps_roffset st in
  let lflag :=
    if (ps_llen st =? ps_minlen st)%nat then
      map (fun tid =>
             let loff := (loffset + tid)%nat in
             if (loff <? part)%nat
             then F32.gt (col_at input split (rowid_at rows loff)) (quesval split)
             else false)
          (seq 0 TPB)
    else ps_lflag st in
  let rflag :=
    if (ps_rlen st =? ps_minlen st)%nat then
      map (fun tid =>
             let roff := (roffset + tid)%nat in
             if (roff <? range_end)%nat
             then F32.le (col_at input split (rowid_at rows roff)) (quesval split)
             else false)
          (seq 0 TPB)
    else ps_rflag st in
  let '(lidx, llen) := ExclusiveSum lflag in
  let '(ridx, rlen) := ExclusiveSum rflag in
  let minlen := if (llen <? rlen)%nat then llen else rlen in
  let lcomp := compaction loffset 0 lflag lidx (ps_lcomp st) in
  let rcomp := compaction roffset 0 rflag ridx (ps_rcomp st) in
  {| ps_rowids := swap_misfits TPB minlen lcomp rcomp rows;
     ps_lcomp := lcomp;
     ps_rcomp := rcomp;
     ps_loffset := if (llen =? minlen)%nat then (loffset + TPB)%nat else loffset;
     ps_roffset := if (rlen =? minlen)%nat then (roffset + TPB)%nat else roffset;
     ps_lflag := reset_flags minlen lflag lidx;
     ps_rflag := reset_flags minlen rflag ridx;
     ps_llen := llen;
     ps_rlen := rlen;
     ps_minlen := minlen |}.

(** [while (loffset < part && roffset < end) { ... }]; [None] when the fuel
    runs out before the loop condition fails. *)
Fixpoint part_loop (fuel : nat) (st : PartState) : option PartState :=
  if (ps_loffset st <? part)%nat && (ps_roffset st <? range_end)%nat then
    match fuel with
    | O => None
    | S fuel' => part_loop fuel' (part_step st)
    end
  else Some st.

(** The state on entry; [lcomp0] and [rcomp0] are whatever the shared memory
    [smem] holds, [TPB] entries each. *)
Definition part_init (lcomp0 rcomp0 : list nat) : PartState :=
  {| ps_rowids := rowids input;
     ps_lcomp := lcomp0;
     ps_rcomp := rcomp0;
     ps_loffset := range_start;
     ps_roffset := part;
     ps_lflag := replicate TPB false;
     ps_rflag := replicate TPB false;
     ps_llen := 0;
     ps_rlen := 0;
     ps_minlen := 0 |}.

(** [partitionSamples]: the row-id array it leaves behind. *)
Definition partitionSamples (lcomp0 rcomp0 : list nat) : option (list Z) :=
  ps_rowids <$> part_loop (S range_len) (part_init lcomp0 rcomp0).

End PartitionSamples.

(** One block of [nodeSplitKernel]: the row-id array after the block has
    run; [None] when [blockIdx.x] is outside [work_items] or [splits]. *)
Definition nodeSplitKernel (TPB : nat) (min_samples_leaf : Z)
    (min_impurity_decrease : F32.t) (input : Input)
    (work_items : list NodeWorkItem) (splits : list Split)
    (lcomp0 rcomp0 : list nat) (blockIdx : nat) : option (list Z) :=
  work_item ← work_items !! blockIdx;
  split ← splits !! blockIdx;
  if SplitNotValid split min_impurity_decrease min_samples_leaf
       (wrap_size_t (wrap_int (Z.of_nat (range_count (instances work_item)))))
  then Some (rowids input)
  else partitionSamples TPB input split work_item lcomp0 rcomp0.

(** The blocks of one launch of [nodeSplitKernel], run one after another
    in the order [order]: they share the row-id array and nothing else. *)
Definition nodeSplitKernel_grid (TPB : nat) (min_samples_leaf : Z)
    (min_impurity_decrease : F32.t) (input : Input)
    (work_items : list NodeWorkItem) (splits : list Split)
    (lcomp0 rcomp0 : list nat) (order : list nat) : option (list Z) :=
  foldl (fun rows blockIdx =>
           rows ← rows;
           nodeSplitKernel TPB min_samples_leaf min_impurity_decrease
             (mkInput (data input) (M input) rows) work_items splits
             lcomp0 rcomp0 blockIdx)
        (Some (rowids input)) order.

(** *** Feature sub-sampling *)

Definition fnv1a32_prime : Z := 16777619.
Definition fnv1a32_basis : Z := 2166136261.

Definition fnv1a32 (hash txt : Z) : Z :=
  let hash := Z.lxor hash (Z.land (Z.shiftr txt 0) 0xFF) in
  let hash := wrap_u32 (hash * fnv1a32_prime) in
  let hash := Z.lxor hash (Z.land (Z.shiftr txt 8) 0xFF) in
  let hash := wrap_u32 (hash * fnv1a32_prime) in
  let hash := Z.lxor hash (Z.land (Z.shiftr txt 16) 0xFF) in
  let hash := wrap_u32 (hash * fnv1a32_prime) in
  let hash := Z.lxor hash (Z.land (Z.shiftr txt 24) 0xFF) in
  let hash := wrap_u32 (hash * fnv1a32_prime) in
  hash.

Section Select.
Variables (k treeid nodeid seed N : Z).
Variable blockDim : Z.

(** The hash of candidate [i] in [select]: both [pivot_hash] (at [i = k]) and
    [i_hash]. *)
Definition select_hash (i : Z) : Z :=
  let h := fnv1a32_basis in
  let h := fnv1a32 h (wrap_u32 i) in
  let h := fnv1a32 h (wrap_u32 treeid) in
  let h := fnv1a32 h (wrap_u32 nodeid) in
  let h := fnv1a32 h (wrap_u32 (Z.shiftr seed 32)) in
  let h := fnv1a32 h (wrap_u32 seed) in
  h.

(** [for (int i = threadIdx.x; i < N; i += blockDim.x)] in one thread, from
    the current [i] and [cnt]. *)
Fixpoint select_thread_loop (fuel : nat) (i cnt : Z) : option Z :=
  if i <? N then
    match fuel with
    | O => None
    | S fuel' =>
        let i' := wrap_int (i + blockDim) in
        if i =? k then select_thread_loop fuel' i' cnt
        else
          let i_hash := select_hash i in
          let pivot_hash := select_hash k in
          if i_hash <? pivot_hash then
            select_thread_loop fuel' i' (wrap_int (cnt + 1))
          else if (i_hash =? pivot_hash) && (i <? k) then
            select_thread_loop fuel' i' (wrap_int (cnt + 1))
          else select_thread_loop fuel' i' cnt
    end
  else Some cnt.

Definition select_thread (tid : Z) : option Z :=
  select_thread_loop (Z.to_nat N) tid 0.

(** [if (cnt > 0) atomicAdd(&blksum, cnt);] by the threads in the order
    [sched] in which their atomic operations take effect. *)
Definition select_sched (sched : list Z) : option Z :=
  foldl (fun acc tid =>
           blksum ← acc;
           cnt ← select_thread tid;
           Some (if 0 <? cnt then wrap_int (blksum + cnt) else blksum))
        (Some 0) sched.

(** [select]: what every thread of the block returns. *)
Definition select : option Z := select_sched (seqZ 0 blockDim).

End Select.

(** *** Histogram bins *)

(** [sbins[i]]; NaN outside the array, where the source is undefined. *)
Definition sbins_at (sbins : list F32.t) (i : Z) : F32.t :=
  if i <? 0 then F32.quiet_nan
  else default F32.quiet_nan (sbins !! Z.to_nat i).

Fixpoint lower_bound_loop (fuel : nat) (sbins : list F32.t) (d : F32.t)
    (start end_ : Z) : option Z :=
  if start <? end_ then
    match fuel with
    | O => None
    | S fuel' =>
        let mid := Z.quot (wrap_int (start + end_)) 2 in
        if F32.lt (sbins_at sbins mid) d
        then lower_bound_loop fuel' sbins d (wrap_int (mid + 1)) end_
        else lower_bound_loop fuel' sbins d start mid
    end
  else Some start.

Definition lower_bound (sbins : list F32.t) (nbins : Z) (d : F32.t)
    : option Z :=
  lower_bound_loop (Z.to_nat nbins) sbins d 0 (wrap_int (nbins - 1)).

(** *** Histograms: from counts per bin to cumulative counts *)

(** [raft::ceildiv]: the quotient rounded up. *)
Definition ceildiv (a b : nat) : nat := ((a + b - 1) / b)%nat.

Section Pdf_to_cdf.
(** The bin type [BinT], with its default value [BinT()] and its [+]. *)
Variable BinT : Type.
Variable bin_zero : BinT.
Variable bin_add : BinT -> BinT -> BinT.
Variable TPB : nat.

(** [cub::BlockScan::InclusiveSum]: each thread gets the sum of the elements
    of the threads up to and including itself, and every thread gets the
    block-wide total. *)
Fixpoint inclusive_sum_from (acc : BinT) (elements : list BinT)
    : list BinT * BinT :=
  match elements with
  | [] => ([], acc)
  | x :: xs =>
      let a := bin_add acc x in
      let '(rest, total) := inclusive_sum_from a xs in
      (a :: rest, total)
  end.

Definition InclusiveSum (elements : list BinT) : list BinT * BinT :=
  match elements with
  | [] => ([], bin_zero)
  | x :: xs =>
      let '(rest, total) := inclusive_sum_from x xs in
      (x :: rest, total)
  end.

(** [shared_histogram[i]]; a read outside the array is undefined in the
    source and yields [BinT()] here. *)
Definition hist_at (hist : list BinT) (i : nat) : BinT :=
  default bin_zero (hist !! i).

(** One trip through the loop of [pdf_to_cdf], all threads together; the
    block has [blockDim.x = TPB] threads and thread [t] holds
    [tix = trip * TPB + t]. *)
Definition pdf_to_cdf_trip (nbins : nat) (st : list BinT * BinT) (trip : nat)
    : list BinT * BinT :=
  let '(shared_histogram, total_aggregate) := st in
  let element :=
    map (fun t =>
           let tix := (trip * TPB + t)%nat in
           if (tix <? nbins)%nat then hist_at shared_histogram tix
           else bin_zero)
        (seq 0 TPB) in
  let '(result, block_aggregate) := InclusiveSum element in
  let shared_histogram :=
    foldl (fun h t =>
             let tix := (trip * TPB + t)%nat in
             if (tix <? nbins)%nat
             then <[ tix := bin_add (default bin_zero (result !! t))
                                    total_aggregate ]> h
             else h)
          shared_histogram (seq 0 TPB) in
  (shared_histogram, bin_add total_aggregate block_aggregate).

(** [pdf_to_cdf]: the histogram it leaves behind and the total it returns.
    Every thread makes [ceildiv (nbins, TPB)] trips. *)
Definition pdf_to_cdf (shared_histogram : list BinT) (nbins : nat)
    : list BinT * BinT :=
  foldl (pdf_to_cdf_trip nbins) (shared_histogram, bin_zero)
        (seq 0 (ceildiv nbins TPB)).

End Pdf_to_cdf.

(** *** [computeSplitKernel]: the rows a thread adds to the histogram *)

(** [for (auto i = range_start + tid; i < end; i += stride)]: the positions
    of [input.rowids] one thread visits, from [i] on. *)
Fixpoint histogram_loop (fuel : nat) (end_ stride i : Z) : list Z :=
  if i <? end_ then
    match fuel with
    | O => []
    | S fuel' => i :: histogram_loop fuel' end_ stride (wrap_size_t (i + stride))
    end
  else [].

(** The positions visited by thread [threadIdx] of the block that is number
    [offset_blockid] among the [num_blocks] blocks working on the node. *)
Definition histogram_positions (work_item : NodeWorkItem)
    (blockDim num_blocks offset_blockid threadIdx : Z) : list Z :=
  let range_start := Z.of_nat (range_begin (instances work_item)) in
  let range_len := Z.of_nat (range_count (instances work_item)) in
  let end_ := wrap_size_t (range_start + range_len) in
  let stride := wrap_int (wrap_u32 (blockDim * num_blocks)) in
  let tid := wrap_int (wrap_u32 (threadIdx + offset_blockid * blockDim)) in
  histogram_loop (Z.to_nat range_len) end_ stride
    (wrap_size_t (range_start + tid)).

End DT.

(** ** The Forest Inference Library fixture: fil_test.cu *)

Module FIL.

(** [fil::val_t], the union of a [float] and an [int]: its 32 bits. *)
Definition val_t := Z.

Inductive leaf_algo_t :=
  | FLOAT_UNARY_BINARY
  | CATEGORICAL_LEAF
  | GROVE_PER_CLASS
  | GROVE_PER_CLASS_FEW_CLASSES
  | GROVE_PER_CLASS_MANY_CLASSES
  | VECTOR_LEAF.

(** [fil::output_t] is a set of flags; the fixture only ever tests
    [(ps.output & fil::output_t::X) != 0], and the record holds the outcome of
    the four tests. *)
Record output_t := mkOutput {
  AVG : bool;
  SIGMOID : bool;
  CLASS : bool;
  SOFTMAX : bool
}.

Definition RAW : output_t := mkOutput false false false false.

(** [treelite::Operator]. *)
Inductive Operator := kNone | kEQ | kLT | kLE | kGT | kGE.

(** The fields of [FilTestParams] that the modelled functions read. *)
Record FilTestParams := mkParams {
  num_cols : nat;
  depth : nat;
  num_trees : Z;
  output : output_t;
  threshold : F32.t;
  global_bias : F32.t;
  op : Operator;
  leaf_algo : leaf_algo_t;
  num_classes : Z
}.

(** *** Nodes *)

(** Modelled from the spec: the node encodings of fil/internal.cuh, which is
    not part of the sources at hand.  A leaf's output and an inner node's
    threshold or category-set reference share the same storage [val]; the
    sparse encodings add the offset of the left child from the root of the
    tree. *)
Record base_node := mkBaseNode {
  val : val_t;
  fid : nat;
  def_left : bool;
  is_leaf : bool;
  is_categorical : bool
}.

Abbreviation dense_node := base_node.

Record sparse_node := mkSparseNode {
  base : base_node;
  left_idx : nat
}.

(** The constructors [dense_node(output, split, fid, def_left, is_leaf,
    is_categorical)] and [fil_node_t(..., left_index)]. *)
Definition make_dense_node (output split : val_t) (fid : nat)
    (def_left is_leaf is_categorical : bool) : dense_node :=
  mkBaseNode (if is_leaf then output else split) fid def_left is_leaf
    is_categorical.

(** Modelled from the spec: what tells the sparse node types apart,
    [sparse_node16] and the compact [sparse_node8] of fil/internal.cuh: the
    widths in bits of the feature-id field and of the left-index field.  The
    sources do not give the values. *)
Record node_layout := mkNodeLayout {
  fid_width : Z;
  left_width : Z
}.

Definition fits (width : Z) (n : nat) : bool := Z.of_nat n <? 2 ^ width.

(** Modelled from the spec: a sparse node is built only from a feature id
    and a left index that fit their fields; a value that does not fit is
    refused (the unsupported-model error), never truncated. *)
Definition make_sparse_node (fmt : node_layout) (output split : val_t)
    (fid : nat) (def_left is_leaf is_categorical : bool) (left_index : nat)
    : option sparse_node :=
  if fits (fid_width fmt) fid && fits (left_width fmt) left_index
  then Some (mkSparseNode
               (make_dense_node output split fid def_left is_leaf
                  is_categorical)
               left_index)
  else None.

(** [fil_node_t()] and the value-initialised [val_t] written [{}]. *)
Definition val_zero : val_t := 0.
Definition default_sparse_node : sparse_node :=
  mkSparseNode (mkBaseNode val_zero 0 false false false) 0.

(** Modelled from the spec: the categorical sets of fil/internal.cuh: the
    number of categories of each feature, and the packed bit pool in which
    every categorical node owns [sizeof_mask] bytes from its [set()] on. *)
Record cat_sets := mkCatSets {
  fid_num_cats : list F32.t;
  bits : list Z
}.

Definition BITS_PER_BYTE : Z := 8.

Definition num_cats_at (cs : cat_sets) (f : nat) : F32.t :=
  default F32.pos_zero (fid_num_cats cs !! f).

Definition bits_at (cs : cat_sets) (i : Z) : Z :=
  if i <? 0 then 0 else default 0 (bits cs !! Z.to_nat i).

(** Modelled from the spec: the domain of a categorical test.  A value that
    is not finite, is negative, or is not below the category count of the
    node's feature is outside. *)
Definition category_in_domain (cs : cat_sets) (node : base_node) (v : F32.t)
    : bool :=
  negb (negb (F32.isfinite v) || F32.lt v F32.pos_zero
        || F32.ge v (num_cats_at cs (fid node))).

(** Modelled from the spec: [category_matches] of fil/internal.cuh.  A value
    outside the domain is not in the set; otherwise the answer is bit
    [floor(v) mod 8] of byte [floor(v) / 8] of the node's bytes, which start
    at its category-set reference. *)
Definition category_matches (cs : cat_sets) (node : base_node) (v : F32.t)
    : bool :=
  if category_in_domain cs node v then
    let category := F32.to_int v in
    Z.testbit (bits_at cs (val node + category / BITS_PER_BYTE))
              (category mod BITS_PER_BYTE)
  else false.

(** Modelled from the spec: the decision of [tree_base::child_index] of
    fil/internal.cuh, [true] for the right child, but for the values outside
    the domain of a categorical node, which the fixture decides.  A NaN
    follows [default_left]; a numerical node sends [val < thresh] to the
    left; a categorical node sends the members of its set to the right ("in
    FIL, categories always pertain to the right child") and every other
    value that is not a NaN to the left, also outside the domain:
    [node_to_treelite] hands a categorical node without categories to the
    external model as a test against a NaN threshold with the children
    swapped, which sends every value but a NaN to the left child whatever
    [default_left] is, and the predictions are compared with the ones of
    this walk on rows that hold infinities and invalid categories. *)
Definition child_cond (cs : cat_sets) (node : base_node) (v : F32.t) : bool :=
  if F32.isnan v then negb (def_left node)
  else if is_categorical node then category_matches cs node v
  else F32.ge v (val node).

(** The decision in the words of the specification, for comparison with
    [child_cond]: a value outside the domain of a categorical node is routed
    by [default_left]. *)
Definition spec_child_cond (cs : cat_sets) (node : base_node) (v : F32.t)
    : bool :=
  if F32.isnan v then negb (def_left node)
  else if is_categorical node then
    (if category_in_domain cs node v then category_matches cs node v
     else negb (def_left node))
  else F32.ge v (val node).

(** Modelled from the spec: the number of bytes a categorical node of
    feature [f] owns in the bit pool, the category count rounded up to whole
    bytes. *)
Definition sizeof_mask (cs : cat_sets) (f : nat) : Z :=
  (F32.to_int (num_cats_at cs f) + BITS_PER_BYTE - 1) / BITS_PER_BYTE.

(** *** Traversal *)

Section Traversal.
(** The decision taken at an inner node: [true] for the right child. *)
Variable goes_right : base_node -> F32.t -> bool.

(** [infer_one_tree]: the walk from node [curr] of the dense tree stored at
    [root] in [nodes] ([curr] is 0 on entry); [None] when it leaves the
    arrays or the fuel runs out. *)
Fixpoint infer_one_tree (fuel : nat) (nodes : list dense_node) (root : nat)
    (data : list F32.t) (curr : nat) : option val_t :=
  node ← nodes !! (root + curr)%nat;
  if is_leaf node then Some (val node)
  else
    match fuel with
    | O => None
    | S fuel' =>
        v ← data !! fid node;
        infer_one_tree fuel' nodes root data
          (2 * curr + 1 + (if goes_right node v then 1 else 0))%nat
    end.

(** Modelled from the spec: the walk of a sparse tree, whose inner nodes
    store the offset of their left child from the root of the tree, the right
    child being the next node. *)
Fixpoint infer_one_sparse_tree (fuel : nat) (nodes : list sparse_node)
    (root : nat) (data : list F32.t) (curr : nat) : option val_t :=
  node ← nodes !! (root + curr)%nat;
  if is_leaf (base node) then Some (val (base node))
  else
    match fuel with
    | O => None
    | S fuel' =>
        v ← data !! fid (base node);
        infer_one_sparse_tree fuel' nodes root data
          (left_idx node + (if goes_right (base node) v then 1 else 0))%nat
    end.

End Traversal.

(** *** Dense to sparse *)

(** [dense2sparse_node] for the node type of layout [fmt]: the vector
    [sparse_nodes] after the call; [None] when it reads outside [nodes], when
    a node does not fit the layout, or when the fuel runs out. *)
Fixpoint dense2sparse_node (fmt : node_layout) (fuel : nat)
    (nodes : list dense_node)
    (dense_root i_dense i_sparse_root i_sparse : nat)
    (sparse_nodes : list sparse_node) : option (list sparse_node) :=
  node ← nodes !! (dense_root + i_dense)%nat;
  if is_leaf node then
    sparse_node ←
      make_sparse_node fmt (val node) val_zero (fid node) (def_left node)
        (is_leaf node) false 0;
    Some (<[ i_sparse := sparse_node ]> sparse_nodes)
  else
    match fuel with
    | O => None
    | S fuel' =>
        let left_index := length sparse_nodes in
        let sparse_nodes := sparse_nodes ++ [default_sparse_node] in
        let sparse_nodes := sparse_nodes ++ [default_sparse_node] in
        sparse_node ←
          make_sparse_node fmt val_zero (val node) (fid node) (def_left node)
            (is_leaf node) (is_categorical node)
            (left_index - i_sparse_root)%nat;
        let sparse_nodes := <[ i_sparse := sparse_node ]> sparse_nodes in
        sparse_nodes ←
          dense2sparse_node fmt fuel' nodes dense_root (2 * i_dense + 1)%nat
            i_sparse_root left_index sparse_nodes;
        dense2sparse_node fmt fuel' nodes dense_root (2 * i_dense + 2)%nat
          i_sparse_root (left_index + 1)%nat sparse_nodes
    end.

(** The two vectors of [BasePredictSparseFilTest]. *)
Record sparse_forest := mkSparseForest {
  sparse_nodes : list sparse_node;
  trees : list nat
}.

Definition dense2sparse_tree (fmt : node_layout) (nodes : list dense_node)
    (dense_root : nat) (st : sparse_forest) : option sparse_forest :=
  let i_sparse_root := length (sparse_nodes st) in
  let sn := sparse_nodes st ++ [default_sparse_node] in
  sn ← dense2sparse_node fmt (length nodes) nodes dense_root 0 i_sparse_root
          i_sparse_root sn;
  Some (mkSparseForest sn (trees st ++ [i_sparse_root])).

(** [tree_num_nodes()]. *)
Definition tree_num_nodes (ps : FilTestParams) : nat :=
  (2 ^ (depth ps + 1) - 1)%nat.

(** [dense2sparse]: the loop over the trees, from tree [tree] on. *)
Fixpoint dense2sparse_from (fmt : node_layout) (ps : FilTestParams)
    (nodes : list dense_node) (count tree : nat) (st : sparse_forest)
    : option sparse_forest :=
  match count with
  | O => Some st
  | S count' =>
      st ← dense2sparse_tree fmt nodes (tree * tree_num_nodes ps)%nat st;
      dense2sparse_from fmt ps nodes count' (S tree) st
  end.

Definition dense2sparse (fmt : node_layout) (ps : FilTestParams)
    (nodes : list dense_node) : option sparse_forest :=
  dense2sparse_from fmt ps nodes (Z.to_nat (num_trees ps)) 0
    (mkSparseForest [] []).

(** The leaf outputs of the trees for one row, as the row loops of
    [predict_on_cpu] collect them:
    [infer_one_tree(&nodes[j * num_nodes], &data_h[i * ps.num_cols], base)]
    for every tree [j]. *)
Definition dense_leaves (goes_right : base_node -> F32.t -> bool)
    (fuel : nat) (ps : FilTestParams) (nodes : list dense_node)
    (data : list F32.t) : option (list val_t) :=
  mapM (fun j => infer_one_tree goes_right fuel nodes
                   (j * tree_num_nodes ps)%nat data 0)
       (seq 0 (Z.to_nat (num_trees ps))).

(** Modelled from the spec: the same for the sparse encoding, every tree
    walked from its root in [trees]. *)
Definition sparse_leaves (goes_right : base_node -> F32.t -> bool)
    (fuel : nat) (sf : sparse_forest) (data : list F32.t)
    : option (list val_t) :=
  mapM (fun sroot => infer_one_sparse_tree goes_right fuel (sparse_nodes sf)
                       sroot data 0)
       (trees sf).

(** *** Operators of the external tree model *)

(** [adjust_threshold_to_treelite]: the threshold, the two child keys and
    the default direction it leaves behind; [None] when its [ASSERT] fails. *)
Definition adjust_threshold_to_treelite (threshold : F32.t)
    (tl_left tl_right : Z) (default_left : bool) (comparison_op : Operator)
    : option (F32.t * Z * Z * bool) :=
  if F32.isnan threshold then
    Some (threshold, tl_right, tl_left, negb default_left)
  else
    match comparison_op with
    | kLT => Some (threshold, tl_left, tl_right, default_left)
    | kLE =>
        Some (F32.nextafterf_down threshold, tl_left, tl_right, default_left)
    | kGT =>
        Some (F32.nextafterf_down threshold, tl_right, tl_left,
              negb default_left)
    | kGE => Some (threshold, tl_right, tl_left, negb default_left)
    | _ => None
    end.

(** A numerical test node of the external model, as the importer receives
    it: "take left node if val [op] threshold", a missing value (NaN) taking
    the default direction. *)
Definition tl_compare (o : Operator) (v threshold : F32.t) : bool :=
  match o with
  | kLT => F32.lt v threshold
  | kLE => F32.le v threshold
  | kGT => F32.gt v threshold
  | kGE => F32.ge v threshold
  | kEQ => F32.eq v threshold
  | kNone => false
  end.

Definition tl_next (o : Operator) (threshold : F32.t) (left right : Z)
    (default_left : bool) (v : F32.t) : Z :=
  if F32.isnan v then (if default_left then left else right)
  else if tl_compare o v threshold then left else right.

(** A numerical node of the inference engine: the canonical "<" test of the
    spec, with [child_cond] deciding for the right child. *)
Definition fil_next (threshold : F32.t) (left right : Z) (default_left : bool)
    (v : F32.t) : Z :=
  if child_cond (mkCatSets [] [])
       (mkBaseNode threshold 0 default_left false false) v
  then right else left.

(** Modelled from the spec: the normalisation the spec prescribes for the
    importer, which is not part of the sources at hand: for ">" and ">=" swap
    the children and flip [default_left]; for "<=" move the threshold to the
    next representable value below it. *)
Definition spec_normalize (o : Operator) (threshold : F32.t) (left right : Z)
    (default_left : bool) : F32.t * Z * Z * bool :=
  match o with
  | kGT | kGE => (threshold, right, left, negb default_left)
  | kLE => (F32.nextafterf_down threshold, left, right, default_left)
  | _ => (threshold, left, right, default_left)
  end.

(** *** Categorical nodes handed to the external model *)

(** The loop of [node_to_treelite] that lists the categories of a categorical
    node, from [category] on, with the byte fetched last in [byte]. *)
Fixpoint left_categories_loop (fuel : nat) (cs : cat_sets) (set_ : Z)
    (ncat category byte : Z) (left_categories : list Z) : list Z :=
  match fuel with
  | O => left_categories
  | S fuel' =>
      if category <? ncat then
        let byte :=
          if Z.rem category BITS_PER_BYTE =? 0
          then bits_at cs (set_ + Z.quot category BITS_PER_BYTE)
          else byte in
        let left_categories :=
          if negb (Z.land byte (Z.shiftl 1 (Z.rem category BITS_PER_BYTE)) =? 0)
          then left_categories ++ [category]
          else left_categories in
        left_categories_loop fuel' cs set_ ncat (category + 1) byte
          left_categories
      else left_categories
  end.

Definition left_categories (cs : cat_sets) (node : dense_node) : list Z :=
  let ncat := F32.to_int (num_cats_at cs (fid node)) in
  left_categories_loop (Z.to_nat ncat) cs (val node) ncat 0 0 [].

(** *** Output transform *)

Section Transform.
(** [expf] of the C library, whose roundings the language does not fix. *)
Variable expf : F32.t -> F32.t.
Variable ps : FilTestParams.

Definition sigmoid (x : F32.t) : F32.t :=
  F32.div F32.one (F32.add F32.one (expf (F32.neg x))).

(** [transform (f, proba, output)]: the values left in [proba] and
    [output]. *)
Definition transform (f : F32.t) : F32.t * F32.t :=
  let f :=
    if AVG (output ps) then
      match leaf_algo ps with
      | GROVE_PER_CLASS =>
          F32.div f (F32.of_int (Z.quot (num_trees ps) (num_classes ps)))
      | _ => F32.mul f (F32.div F32.one (F32.of_int (num_trees ps)))
      end
    else f in
  let f := F32.add f (global_bias ps) in
  let f := if SIGMOID (output ps) then sigmoid f else f in
  let proba := f in
  let f :=
    if CLASS (output ps)
    then (if F32.gt f (threshold ps) then F32.one else F32.pos_zero)
    else f in
  (proba, f).

(** The pipeline in the words of the specification, for comparison with
    [transform]: optional division by the tree count, addition of the global
    bias, optional sigmoid; the probability is the value at this point; then
    the optional conversion to a class, 1 if the value exceeds the
    threshold and 0 otherwise. *)
Definition spec_transform (f : F32.t) : F32.t * F32.t :=
  let f :=
    if AVG (output ps) then F32.div f (F32.of_int (num_trees ps)) else f in
  let f := F32.add f (global_bias ps) in
  let f := if SIGMOID (output ps) then sigmoid f else f in
  let proba := f in
  let f :=
    if CLASS (output ps)
    then (if F32.gt f (threshold ps) then F32.one else F32.pos_zero)
    else f in
  (proba, f).

(** [std::max_element] under [ltb]: the position of the first largest
    element (0 on an empty range). *)
Fixpoint max_element_from {A : Type} (ltb : A -> A -> bool) (best_i : nat)
    (best : A) (i : nat) (l : list A) : nat :=
  match l with
  | [] => best_i
  | x :: xs =>
      if ltb best x then max_element_from ltb i x (S i) xs
      else max_element_from ltb best_i best (S i) xs
  end.

Definition max_element {A : Type} (ltb : A -> A -> bool) (l : list A) : nat :=
  match l with
  | [] => O
  | x :: xs => max_element_from ltb 0 x 1 xs
  end.

(** [std::accumulate (first, last, 0.0f)]. *)
Definition accumulate (l : list F32.t) : F32.t := foldl F32.add F32.pos_zero l.

(** [apply_softmax] on the [num_classes] scores of a row. *)
Definition apply_softmax (class_scores : list F32.t) : list F32.t :=
  let max := default F32.quiet_nan
               (class_scores !! max_element F32.lt class_scores) in
  let class_scores := map (fun s => expf (F32.sub s max)) class_scores in
  let sum := accumulate class_scores in
  map (fun s => F32.div s sum) class_scores.

(** [complement]. *)
Definition complement (proba1 : F32.t) : F32.t := F32.sub F32.one proba1.

(** The body of the row loop of [predict_on_cpu] for the scalar leaves
    ([FLOAT_UNARY_BINARY]), from the leaf outputs of the trees: the two
    entries of [want_proba_h] and the entry of [want_preds_h]. *)
Definition predict_row_scalar (leaves : list val_t) : list F32.t * F32.t :=
  let pred := foldl F32.add F32.pos_zero leaves in
  let '(proba1, out) := transform pred in
  ([complement proba1; proba1], out).

(** The same for [GROVE_PER_CLASS]: the per-class sums, the class with the
    largest sum, and the transformed (and, on request, soft-maxed) sums. *)
Definition grove_class_scores (leaves : list val_t) : list F32.t :=
  let n := Z.to_nat (num_classes ps) in
  foldl (fun scores '(tree, leaf) =>
           let c := (tree mod n)%nat in
           <[ c := F32.add (default F32.pos_zero (scores !! c)) leaf ]> scores)
        (replicate n F32.pos_zero)
        (imap pair leaves).

Definition predict_row_grove (leaves : list val_t) : list F32.t * F32.t :=
  let class_scores := grove_class_scores leaves in
  let pred := F32.of_int (Z.of_nat (max_element F32.lt class_scores)) in
  let proba := map (fun s => fst (transform s)) class_scores in
  let proba := if SOFTMAX (output ps) then apply_softmax proba else proba in
  (proba, pred).

End Transform.

(** *** Import into the 8-byte sparse encoding *)

(** Modelled from the spec: what the importer reads of the external model to
    decide whether it fits: the declared number of features and, per tree,
    its nodes with their feature ids. *)
Record tl_node := mkTlNode { tl_is_leaf : bool; tl_fid : Z }.

Record tl_model := mkTlModel {
  tl_num_feature : Z;
  tl_trees : list (list tl_node)
}.

(** Modelled from the spec: the capacity of the 8-byte sparse encoding, the
    width of its feature-id field and the largest tree it can address.  The
    sources do not give the values. *)
Record sparse8_capacity := mkCapacity {
  fid_num_bits : Z;
  max_tree_nodes : Z
}.

(** The unsupported-model error, with the offending tree where there is
    one. *)
Inductive import_error :=
  | too_many_nodes (tree : nat)
  | too_many_features.

(** Modelled from the spec: the check made at import time: every tree within
    the node capacity, and the declared features within the ids the field
    can hold. *)
Definition check_sparse8 (cap : sparse8_capacity) (model : tl_model)
    : option import_error :=
  match list_find (fun t => max_tree_nodes cap < Z.of_nat (length t))
                  (tl_trees model) with
  | Some (i, _) => Some (too_many_nodes i)
  | None =>
      if 2 ^ fid_num_bits cap <? tl_num_feature model
      then Some too_many_features
      else None
  end.

Section Sparse8_import.
(** The forest handle and the translation of a model that fits, neither of
    which is in the sources. *)
Variable forest_t : Type.
Variable convert : tl_model -> forest_t.

(** Modelled from the spec: [fil::from_treelite] for [SPARSE8]: the check
    comes first, and the forest is built only when it passes. *)
Definition from_treelite_sparse8 (cap : sparse8_capacity) (model : tl_model)
    : import_error + forest_t :=
  match check_sparse8 cap model with
  | Some e => inl e
  | None => inr (convert model)
  end.

(** What [predict_on_gpu] changes on the device: the forests alive and the
    calls of [fil::predict] made. *)
Record device := mkDevice {
  live_forests : nat;
  predict_calls : nat
}.

(** [predict_on_gpu] of the fixture with [init_forest] of
    [TreeliteSparse8FilTest]: the import, two calls of [fil::predict], then
    [fil::free].  An exception of the import leaves the function at once,
    with [forest] still null. *)
Definition predict_on_gpu (cap : sparse8_capacity) (model : tl_model)
    (d : device) : option import_error * device :=
  match from_treelite_sparse8 cap model with
  | inl e => (Some e, d)
  | inr _ =>
      let d := mkDevice (S (live_forests d)) (predict_calls d) in
      let d := mkDevice (live_forests d) (S (predict_calls d)) in
      let d := mkDevice (live_forests d) (S (predict_calls d)) in
      let d := mkDevice (pred (live_forests d)) (predict_calls d) in
      (None, d)
  end.

(** [check] of [TreeliteThrowSparse8FilTest]: [ASSERT_THROW] holds when the
    set-up raises. *)
Definition throw_check (cap : sparse8_capacity) (model : tl_model)
    (d : device) : bool :=
  match fst (predict_on_gpu cap model d) with
  | Some _ => true
  | None => false
  end.

End Sparse8_import.

(** *** Random forests and data of the fixture *)

(** [fmin] and [fmax] on [float]: the other operand when one is a NaN. *)
Definition fmin (a b : F32.t) : F32.t :=
  if F32.isnan a then b
  else if F32.isnan b then a
  else if F32.lt b a then b else a.

Definition fmax (a b : F32.t) : F32.t :=
  if F32.isnan a then b
  else if F32.isnan b then a
  else if F32.lt a b then b else a.

(** The function [hard_clipped_bernoulli] applies to each uniform sample. *)
Definition hard_clipped_bernoulli (prob_of_zero uniform_0_1 : F32.t) : F32.t :=
  if F32.eq prob_of_zero F32.pos_zero then F32.one
  else
    let truly_0_1 := fmax (fmin uniform_0_1 F32.one) F32.pos_zero in
    if F32.gt truly_0_1 prob_of_zero then F32.one else F32.pos_zero.

(** A one-dimensional launch [kernel<<<gridDim, blockDim>>>] of a kernel
    whose threads do not communicate: the threads run one after another,
    block by block; [kernel] gets [blockIdx.x] and [threadIdx.x]. *)
Definition launch {S : Type} (gridDim blockDim : nat)
    (kernel : nat -> nat -> S -> S) (s : S) : S :=
  foldl (fun s blockIdx =>
           foldl (fun s threadIdx => kernel blockIdx threadIdx s) s
                 (seq 0 blockDim))
        s (seq 0 gridDim).

(** [src[i]]; a read outside the array is undefined in the source and
    yields 0.0 here. *)
Definition float_at (src : list F32.t) (i : nat) : F32.t :=
  default F32.pos_zero (src !! i).

(** One thread of [floats_to_bit_stream_k]: [dst] afterwards. *)
Definition floats_to_bit_stream_k (src : list F32.t) (size : nat)
    (blockDim blockIdx threadIdx : nat) (dst : list Z) : list Z :=
  let idx := (blockIdx * blockDim + threadIdx)%nat in
  if (size <=? idx)%nat then dst
  else
    let byte :=
      foldl (fun byte i =>
               Z.lor byte
                 (wrap_int
                    (Z.shiftl
                       (F32.to_int
                          (float_at src
                             (idx * Z.to_nat BITS_PER_BYTE + i)%nat))
                       (Z.of_nat i))))
            0 (seq 0 (Z.to_nat BITS_PER_BYTE)) in
    <[ idx := byte mod 2 ^ 8 ]> dst.

(** One thread of [nan_kernel]: [data] afterwards. *)
Definition nan_kernel (mask : list bool) (len : Z) (nan : F32.t)
    (blockDim blockIdx threadIdx : nat) (data : list F32.t) : list F32.t :=
  let tid := wrap_int (Z.of_nat threadIdx
                       + wrap_u32 (Z.of_nat blockIdx * Z.of_nat blockDim)) in
  if len <=? tid then data
  else if negb (default false (mask !! Z.to_nat tid))
       then <[ Z.to_nat tid := nan ]> data
       else data.

(** *** [generate_forest]: the host part *)

(** [forest_num_nodes()]. *)
Definition forest_num_nodes (ps : FilTestParams) : nat :=
  (tree_num_nodes ps * Z.to_nat (num_trees ps))%nat.

(** The loops under "mark leaves": the second half of every tree. *)
Definition mark_leaves (ps : FilTestParams) (is_leafs_h : list bool)
    : list bool :=
  foldl (fun is_leafs_h i =>
           let num_tree_nodes := tree_num_nodes ps in
           let leaf_start :=
             (num_tree_nodes * i + num_tree_nodes / 2)%nat in
           let leaf_end := (num_tree_nodes * (i + 1))%nat in
           foldl (fun is_leafs_h j => <[ j := true ]> is_leafs_h)
                 is_leafs_h (seq leaf_start (leaf_end - leaf_start)))
        is_leafs_h (seq 0 (Z.to_nat (num_trees ps))).

(** What the loop "count nodes for each feature id, while splitting the sets
    between nodes" computes. *)
Record cat_layout := mkCatLayout {
  bit_pool_size : nat;
  n_nodes : list nat;
  node_cat_set : list nat;
  is_categoricals_h : list F32.t
}.

Section Generate_forest.
Variable ps : FilTestParams.
(** [cat_sets_h.accessor().sizeof_mask(fid)], which the sources do not
    hold. *)
Variable sizeof_mask_of : nat -> nat.
Variable feature_categorical : list bool.
Variable weights_h : list Z.
Variable thresholds_h : list F32.t.
Variable fids_h : list nat.
Variable def_lefts_h : list bool.

(** The body of that loop for [node_id]. *)
Definition split_sets_step (is_leafs_h : list bool) (st : cat_layout)
    (node_id : nat) : cat_layout :=
  let fid := default 0%nat (fids_h !! node_id) in
  let is_categoricals_h :=
    if negb (default false (feature_categorical !! fid))
       || default false (is_leafs_h !! node_id)
    then <[ node_id := F32.pos_zero ]> (is_categoricals_h st)
    else is_categoricals_h st in
  if F32.eq (float_at is_categoricals_h node_id) F32.one then
    {| bit_pool_size := (bit_pool_size st + sizeof_mask_of fid)%nat;
       n_nodes := <[ fid := S (default 0%nat (n_nodes st !! fid)) ]> (n_nodes st);
       node_cat_set := <[ node_id := bit_pool_size st ]> (node_cat_set st);
       is_categoricals_h := is_categoricals_h |}
  else
    {| bit_pool_size := bit_pool_size st;
       n_nodes := n_nodes st;
       node_cat_set := node_cat_set st;
       is_categoricals_h := is_categoricals_h |}.

Definition split_sets (is_leafs_h : list bool) (is_categoricals_h : list F32.t)
    : cat_layout :=
  foldl (split_sets_step is_leafs_h)
        {| bit_pool_size := 0;
           n_nodes := replicate (num_cols ps) 0%nat;
           node_cat_set := replicate (forest_num_nodes ps) 0%nat;
           is_categoricals_h := is_categoricals_h |}
        (seq 0 (forest_num_nodes ps)).

(** The body of the loop "initialize nodes"; [None] stands for the failed
    [ASSERT] on the leaf algorithm. *)
Definition init_node (is_leafs_h : list bool) (layout : cat_layout) (i : nat)
    : option dense_node :=
  w ← match leaf_algo ps with
      | CATEGORICAL_LEAF => Some (default 0 (weights_h !! i))
      | FLOAT_UNARY_BINARY | GROVE_PER_CLASS =>
          Some (wrap_u32 (default 0 (weights_h !! i)))
      | VECTOR_LEAF => Some (Z.of_nat i)
      | _ => None
      end;
  let is_categorical :=
    F32.eq (float_at (is_categoricals_h layout) i) F32.one in
  let split :=
    if is_categorical
    then Z.of_nat (default 0%nat (node_cat_set layout !! i))
    else float_at thresholds_h i in
  Some (make_dense_node w split (default 0%nat (fids_h !! i))
          (default false (def_lefts_h !! i))
          (default false (is_leafs_h !! i)) is_categorical).

(** [generate_forest], from the arrays copied to the host: the nodes and
    the layout of the categorical sets. *)
Definition generate_forest (is_leafs_h : list bool)
    (is_categoricals_h : list F32.t) : option (list dense_node * cat_layout) :=
  let is_leafs_h := mark_leaves ps is_leafs_h in
  let layout := split_sets is_leafs_h is_categoricals_h in
  nodes ← mapM (init_node is_leafs_h layout) (seq 0 (forest_num_nodes ps));
  Some (nodes, layout).

End Generate_forest.

(** *** [predict_on_cpu] for class labels in the leaves *)

Section Predict_votes.
Variable expf : F32.t -> F32.t.
Variable ps : FilTestParams.

(** [++class_votes[class_label]] for the leaf of every tree, from all
    zeros.  A label outside the vector is undefined in the source and
    changes nothing here. *)
Definition class_votes (leaves : list val_t) : list Z :=
  foldl (fun votes class_label =>
           if class_label <? 0 then votes
           else
             <[ Z.to_nat class_label :=
                  wrap_int (default 0 (votes !! Z.to_nat class_label) + 1) ]>
               votes)
        (replicate (Z.to_nat (num_classes ps)) 0) leaves.

(** The body of the row loop of [predict_on_cpu] for [CATEGORICAL_LEAF]:
    the transformed votes and the class with the most votes. *)
Definition predict_row_categorical (leaves : list val_t)
    : list F32.t * F32.t :=
  let class_votes := class_votes leaves in
  let proba :=
    map (fun v => fst (transform expf ps (F32.of_int v))) class_votes in
  (proba, F32.of_int (Z.of_nat (max_element Z.ltb class_votes))).

End Predict_votes.

(** *** [node_to_treelite]: the calls made on the tree builder *)

(** The calls of the [tlf::TreeBuilder] interface the fixture makes, with
    their arguments. *)
Inductive tl_command :=
  | CreateNode (key : Z)
  | SetLeafNode (key : Z) (value : F32.t)
  | SetLeafVectorNode (key : Z) (vec : list F32.t)
  | SetNumericalTestNode (key : Z) (feature : nat) (o : Operator)
      (threshold : F32.t) (default_left : bool) (left_key right_key : Z)
  | SetCategoricalTestNode (key : Z) (feature : nat)
      (left_categories : list Z) (default_left : bool)
      (left_key right_key : Z)
  | SetRootNode (key : Z).

Section Node_to_treelite.
Variable ps : FilTestParams.
Variable cat_sets_h : cat_sets.
Variable vector_leaf : list F32.t.
Variable nodes : list dense_node.

(** The call that sets a leaf, by leaf algorithm; none for the two
    algorithms the [switch] passes over. *)
Definition leaf_commands (key : Z) (dense_node : dense_node)
    : list tl_command :=
  match leaf_algo ps with
  | FLOAT_UNARY_BINARY | GROVE_PER_CLASS =>
      [SetLeafNode key (wrap_u32 (val dense_node))]
  | CATEGORICAL_LEAF =>
      [SetLeafVectorNode key
         (map (fun i => if Z.of_nat i =? val dense_node
                        then F32.one else F32.pos_zero)
              (seq 0 (Z.to_nat (num_classes ps))))]
  | VECTOR_LEAF =>
      [SetLeafVectorNode key
         (map (fun i =>
                 float_at vector_leaf
                   (Z.to_nat (wrap_int (wrap_int (val dense_node
                                                  * num_classes ps)
                                        + Z.of_nat i))))
              (seq 0 (Z.to_nat (num_classes ps))))]
  | _ => []
  end.

(** [node_to_treelite (builder, pkey, root, node)]: the key it returns, the
    key counter and the calls made so far; [None] when it reads outside
    [nodes], when the [ASSERT] of [adjust_threshold_to_treelite] fails, or
    when the fuel runs out. *)
Fixpoint node_to_treelite (fuel : nat) (root node : nat)
    (st : Z * list tl_command) : option (Z * (Z * list tl_command)) :=
  let '(pkey, builder) := st in
  let key := pkey in
  let pkey := wrap_int (pkey + 1) in
  let builder := builder ++ [CreateNode key] in
  dense_node ← nodes !! node;
  if is_leaf dense_node then
    Some (key, (pkey, builder ++ leaf_commands key dense_node))
  else
    match fuel with
    | O => None
    | S fuel' =>
        let left := (root + 2 * (node - root) + 1)%nat in
        let right := (root + 2 * (node - root) + 2)%nat in
        let default_left := def_left dense_node in
        let threshold :=
          if is_categorical dense_node then F32.quiet_nan
          else val dense_node in
        let left_categories :=
          if is_categorical dense_node
          then left_categories cat_sets_h dense_node else [] in
        '(left_key, st) ← node_to_treelite fuel' root left (pkey, builder);
        '(right_key, st) ← node_to_treelite fuel' root right st;
        let '(pkey, builder) := st in
        if negb (bool_decide (left_categories = []))
           && is_categorical dense_node
        then
          Some (key,
                (pkey,
                 builder ++
                 [SetCategoricalTestNode key (fid dense_node) left_categories
                    (negb default_left) right_key left_key]))
        else
          '(threshold, left_key, right_key, default_left) ←
            adjust_threshold_to_treelite threshold left_key right_key
              default_left (op ps);
          Some (key,
                (pkey,
                 builder ++
                 [SetNumericalTestNode key (fid dense_node) (op ps) threshold
                    default_left left_key right_key]))
    end.

(** The body of the loop "build the trees" of [init_forest_impl] for tree
    [i_tree]: the calls made on its fresh builder. *)
Definition build_tree (fuel : nat) (i_tree : nat) : option (list tl_command) :=
  let root := (i_tree * tree_num_nodes ps)%nat in
  '(root_key, (_, builder)) ← node_to_treelite fuel root root (0, []);
  Some (builder ++ [SetRootNode root_key]).

End Node_to_treelite.

End FIL.

(** ** Predicates used in the statements *)

(** Non-decreasing bin boundaries, as the comparison of the source sees
    them. *)
Definition sbins_sorted (sbins : list F32.t) (nbins : Z) : Prop :=
  forall i j, 0 <= i < j -> j < nbins ->
  F32.le (DT.sbins_at sbins i) (DT.sbins_at sbins j) = true.

(** [i] comes before [k] in the order that [select] counts along: smaller
    hash first, equal hashes by index. *)
Definition select_before (treeid nodeid seed : Z) (i k : Z) : bool :=
  (DT.select_hash treeid nodeid seed i <? DT.select_hash treeid nodeid seed k)
  || ((DT.select_hash treeid nodeid seed i =? DT.select_hash treeid nodeid seed k)
      && (i <? k)).

(** The number of candidates of [l] that come before [k]. *)
Definition count_before (treeid nodeid seed : Z) (k : Z) (l : list Z) : Z :=
  Z.of_nat (length (filter (λ i, select_before treeid nodeid seed i k = true) l)).

(** The rank of [k] among the [N] candidates. *)
Definition select_rank (treeid nodeid seed N k : Z) : Z :=
  count_before treeid nodeid seed k (seqZ 0 N).

(** The candidates a thread of [select] visits, from [i] on. *)
Fixpoint thread_indices (N blockDim : Z) (fuel : nat) (i : Z) : list Z :=
  if i <? N then
    match fuel with
    | O => []
    | S fuel' => i :: thread_indices N blockDim fuel' (i + blockDim)
    end
  else [].

(** The number of raised flags. *)
Fixpoint count_true (flags : list bool) : nat :=
  match flags with
  | [] => O
  | f :: fs => ((if f then 1 else 0) + count_true fs)%nat
  end.

(** [slice l start len]: the [len] entries of [l] from [start] on. *)
Definition slice {A : Type} (l : list A) (start len : nat) : list A :=
  take len (drop start l).

(** The flags the threads of a block raise over the window of [TPB]
    positions from [offset] on: the entry at a position in range passes
    [test]. *)
Definition side_flags (TPB : nat) (in_range : nat -> bool) (test : Z -> bool)
    (rows : list Z) (offset : nat) : list bool :=
  map (fun tid =>
         if in_range (offset + tid)%nat
         then test (DT.rowid_at rows (offset + tid)%nat)
         else false)
      (seq 0 TPB).

(** A row is assigned to the left when its value in the split column is
    [<=] the threshold; [is_greater] is the test the left half is scanned
    with. *)
Definition goes_left (input : DT.Input) (split : DT.Split) (r : Z) : bool :=
  F32.le (DT.col_at input split r) (DT.quesval split).

Definition is_greater (input : DT.Input) (split : DT.Split) (r : Z) : bool :=
  F32.gt (DT.col_at input split r) (DT.quesval split).

(** What holds each time the block of [partitionSamples] reaches the test
    of its loop. *)
Record part_inv (TPB : nat) (input : DT.Input) (split : DT.Split)
    (wi : DT.NodeWorkItem) (st : DT.PartState) : Prop := mk_part_inv {
  inv_length : length (DT.ps_rowids st) = length (DT.rowids input);
  inv_perm : DT.ps_rowids st ≡ₚ DT.rowids input;
  inv_frame : forall p,
    (p < DT.range_start wi \/ DT.range_end wi <= p)%nat ->
    DT.ps_rowids st !! p = DT.rowids input !! p;
  inv_lo : (DT.range_start wi <= DT.ps_loffset st)%nat;
  inv_ro : (DT.part split wi <= DT.ps_roffset st)%nat;
  inv_cleanL : forall p,
    (DT.range_start wi <= p < DT.ps_loffset st)%nat ->
    (p < DT.part split wi)%nat ->
    is_greater input split (DT.rowid_at (DT.ps_rowids st) p) = false;
  inv_cleanR : forall p,
    (DT.part split wi <= p < DT.ps_roffset st)%nat ->
    (p < DT.range_end wi)%nat ->
    goes_left input split (DT.rowid_at (DT.ps_rowids st) p) = false;
  inv_lcomp : length (DT.ps_lcomp st) = TPB;
  inv_rcomp : length (DT.ps_rcomp st) = TPB;
  inv_lflag : DT.ps_llen st <> DT.ps_minlen st ->
    DT.ps_lflag st
    = side_flags TPB (fun p => (p <? DT.part split wi)%nat)
        (is_greater input split) (DT.ps_rowids st) (DT.ps_loffset st);
  inv_rflag : DT.ps_rlen st <> DT.ps_minlen st ->
    DT.ps_rflag st
    = side_flags TPB (fun p => (p <? DT.range_end wi)%nat)
        (goes_left input split) (DT.ps_rowids st) (DT.ps_roffset st)
}.

(** The body of the loop of [partitionSamples], from the flags the threads
    hold after they have refreshed them. *)
Definition part_step_from (TPB : nat) (lflag rflag : list bool)
    (st : DT.PartState) : DT.PartState :=
  let '(lidx, llen) := DT.ExclusiveSum lflag in
  let '(ridx, rlen) := DT.ExclusiveSum rflag in
  let minlen := if (llen <? rlen)%nat then llen else rlen in
  let lcomp := DT.compaction (DT.ps_loffset st) 0 lflag lidx (DT.ps_lcomp st) in
  let rcomp := DT.compaction (DT.ps_roffset st) 0 rflag ridx (DT.ps_rcomp st) in
  {| DT.ps_rowids := DT.swap_misfits TPB minlen lcomp rcomp (DT.ps_rowids st);
     DT.ps_lcomp := lcomp;
     DT.ps_rcomp := rcomp;
     DT.ps_loffset := if (llen =? minlen)%nat then (DT.ps_loffset st + TPB)%nat
                      else DT.ps_loffset st;
     DT.ps_roffset := if (rlen =? minlen)%nat then (DT.ps_roffset st + TPB)%nat
                      else DT.ps_roffset st;
     DT.ps_lflag := DT.reset_flags minlen lflag lidx;
     DT.ps_rflag := DT.reset_flags minlen rflag ridx;
     DT.ps_llen := llen;
     DT.ps_rlen := rlen;
     DT.ps_minlen := minlen |}.

(** Every walk down the dense tree at [root] from node [i] meets a leaf
    inside the array after at most [h] inner nodes. *)
Fixpoint dense_wf (nodes : list FIL.dense_node) (root h i : nat) {struct h}
    : Prop :=
  match nodes !! (root + i)%nat with
  | None => False
  | Some node =>
      if FIL.is_leaf node then True
      else
        match h with
        | O => False
        | S h' =>
            dense_wf nodes root h' (2 * i + 1)%nat /\
            dense_wf nodes root h' (2 * i + 2)%nat
        end
  end.

(** The forest [generate_forest] builds: [num_trees] complete trees of
    [tree_num_nodes()] nodes each, the second half of every tree marked as
    leaves. *)
Definition dense_forest_shape (ps : FIL.FilTestParams)
    (nodes : list FIL.dense_node) : Prop :=
  length nodes = (Z.to_nat (FIL.num_trees ps) * FIL.tree_num_nodes ps)%nat /\
  forall t j node,
    (t < Z.to_nat (FIL.num_trees ps))%nat ->
    (FIL.tree_num_nodes ps * t + FIL.tree_num_nodes ps / 2 <= j
     < FIL.tree_num_nodes ps * (t + 1))%nat ->
    nodes !! j = Some node -> FIL.is_leaf node = true.

(** The feature ids of the inner nodes index the row. *)
Definition fids_in_row (nodes : list FIL.dense_node) (data : list F32.t)
    : Prop :=
  forall j node, nodes !! j = Some node -> FIL.is_leaf node = false ->
  (FIL.fid node < length data)%nat.

(** Two vectors hold the same sparse subtree: they agree at its root slot
    [isp] and on the slots [lo, hi) appended for its descendants. *)
Definition same_subtree (sn1 sn2 : list FIL.sparse_node) (isp lo hi : nat)
    : Prop :=
  sn1 !! isp = sn2 !! isp /\
  forall j, (lo <= j < hi)%nat -> sn1 !! j = sn2 !! j.

(** The fields of a sparse node hold its feature id and its left index in
    full: both are within the widths of the layout. *)
Definition sparse_node_fits (fmt : FIL.node_layout) (N : FIL.sparse_node)
    : Prop :=
  Z.of_nat (FIL.fid (FIL.base N)) < 2 ^ FIL.fid_width fmt /\
  Z.of_nat (FIL.left_idx N) < 2 ^ FIL.left_width fmt.

(** *** Categorical nodes *)

(** The bit of category [k] in the bytes that start at [set_]: direct
    inspection of the bit pool. *)
Definition category_bit (cs : FIL.cat_sets) (set_ k : Z) : bool :=
  Z.testbit (FIL.bits_at cs (set_ + k / FIL.BITS_PER_BYTE))
            (k mod FIL.BITS_PER_BYTE).

(** *** Import *)

(** The feature ids of a model are below its declared number of
    features. *)
Definition tl_wf (model : FIL.tl_model) : Prop :=
  forall t n, t ∈ FIL.tl_trees model -> n ∈ t ->
  0 <= FIL.tl_fid n < FIL.tl_num_feature model.

(** *** Sample values *)

(** Special and ordinary binary32 values: zeros, subnormals, the smallest
    normal number, values around 1, the largest finite value, infinities and
    NaNs, of both signs. *)
Definition grid : list F32.t :=
  [0; 1; 0x007FFFFF; 0x00800000; 0x3F800000; 0x3F800001; 0x40000000;
   0x7F7FFFFF; 0x7F800000; 0x7FC00000; 0x80000000; 0x80000001; 0xBF800000;
   0xC0000000; 0xFF7FFFFF; 0xFF800000; 0xFFC00001].

(** *** Histograms *)

(** The sum of a list of bins. *)
Definition bin_sum {BinT : Type} (bin_zero : BinT)
    (bin_add : BinT -> BinT -> BinT) (l : list BinT) : BinT :=
  foldr bin_add bin_zero l.

(** *** Probabilities *)

(** The exact sum of the magnitudes of a list of finite values, in units of
    2^-149, the unit of [F32.scaled]. *)
Definition exact_sum (l : list F32.t) : Z := foldr Z.add 0 (map F32.scaled l).

(** *** Votes and class sums *)

(** The number of trees whose leaf holds the label [c]. *)
Definition count_label (c : Z) (leaves : list Z) : Z :=
  Z.of_nat (length (filter (fun l => l = c) leaves)).

(** The leaf outputs of the trees of class [c] among [n] classes, in the
    order of the trees, the first of which has the index [first]. *)
Fixpoint class_leaves (n c first : nat) (leaves : list Z) : list Z :=
  match leaves with
  | [] => []
  | x :: xs =>
      if (first mod n =? c)%nat then x :: class_leaves n c (S first) xs
      else class_leaves n c (S first) xs
  end.

(** *** Work items of one level *)

(** The instance ranges of different work items do not overlap. *)
Definition ranges_disjoint (work_items : list DT.NodeWorkItem) : Prop :=
  forall a b wa wb, a <> b ->
  work_items !! a = Some wa -> work_items !! b = Some wb ->
  (DT.range_end wa <= DT.range_start wb \/
   DT.range_end wb <= DT.range_start wa)%nat.

(** The rows of the range of [wi] are split at its partition point: those
    assigned to the left before it, the others from it on. *)
Definition range_partitioned (input : DT.Input) (split : DT.Split)
    (wi : DT.NodeWorkItem) (rows : list Z) : Prop :=
  (forall p, (DT.range_start wi <= p < DT.part split wi)%nat ->
     goes_left input split (DT.rowid_at rows p) = true) /\
  (forall p, (DT.part split wi <= p < DT.range_end wi)%nat ->
     goes_left input split (DT.rowid_at rows p) = false).

(** What [partitionSamples] needs of an accepted split: the left count is
    the number of rows of the range that go left, and no NaN is compared. *)
Definition split_consistent (input : DT.Input) (split : DT.Split)
    (wi : DT.NodeWorkItem) : Prop :=
  let range :=
    slice (DT.rowids input) (DT.range_start wi) (DT.range_len wi) in
  DT.nLeft split
  = Z.of_nat (length (filter (fun r => goes_left input split r = true) range))
  /\ F32.isnan (DT.quesval split) = false
  /\ Forall (fun r => F32.isnan (DT.col_at input split r) = false) range.

(** *** Calls on the tree builder *)

(** The keys of the nodes a sequence of calls creates, in order. *)
Definition created_keys (cmds : list FIL.tl_command) : list Z :=
  cmds ≫= (fun c => match c with FIL.CreateNode k => [k] | _ => [] end).

(** The keys of the nodes a sequence of calls sets as a leaf or as a test
    node, in order. *)
Definition set_keys (cmds : list FIL.tl_command) : list Z :=
  cmds ≫= (fun c =>
             match c with
             | FIL.SetLeafNode k _ | FIL.SetLeafVectorNode k _
             | FIL.SetNumericalTestNode k _ _ _ _ _ _
             | FIL.SetCategoricalTestNode k _ _ _ _ _ => [k]
             | _ => []
             end).

(** A call that sets a test node names as children two different keys
    above its own and below [bound]. *)
Definition children_within (bound : Z) (c : FIL.tl_command) : Prop :=
  match c with
  | FIL.SetNumericalTestNode k _ _ _ _ l r
  | FIL.SetCategoricalTestNode k _ _ _ l r =>
      k < l < bound /\ k < r < bound /\ l <> r
  | _ => True
  end.

(** ** Sanity checks of the binary32 model *)

Section F32_examples.
Import F32.


Example decode_one : decode one = S754_finite false 8388608 (-23).
Proof. reflexivity. Qed.
Example encode_decode_samples :
  map (fun x => encode (decode x))
    [0; 1; 0x007FFFFF; 0x00800000; 0x3F800000; 0x7F7FFFFF; 0x7F800000;
     0x80000000; 0x80000001; 0xBF800000; 0xFF7FFFFF; 0xFF800000]
  = [0; 1; 0x007FFFFF; 0x00800000; 0x3F800000; 0x7F7FFFFF; 0x7F800000;
     0x80000000; 0x80000001; 0xBF800000; 0xFF7FFFFF; 0xFF800000].
Proof. vm_compute. reflexivity. Qed.

(** The key-based comparisons agree with the library's [SFltb], [SFleb] and
    [SFeqb] on a grid of special and ordinary values. *)

Example lt_agrees :
  forallb (fun a => forallb (fun b =>
    Bool.eqb (lt a b) (SFltb (decode a) (decode b))) grid) grid = true.
Proof. vm_compute. reflexivity. Qed.
Example le_agrees :
  forallb (fun a => forallb (fun b =>
    Bool.eqb (le a b) (SFleb (decode a) (decode b))) grid) grid = true.
Proof. vm_compute. reflexivity. Qed.
Example eq_agrees :
  forallb (fun a => forallb (fun b =>
    Bool.eqb (eq a b) (SFeqb (decode a) (decode b))) grid) grid = true.
Proof. vm_compute. reflexivity. Qed.

(** [nextafterf_down] agrees with the library's predecessor on finite
    values and on +infinity. *)
Example nextafter_agrees :
  forallb (fun a =>
    isnan a || (a =? neg_inf) ||
    (nextafterf_down a =? encode (SFpred prec emax (decode a))))
    grid = true.
Proof. vm_compute. reflexivity. Qed.

Example div_52_13 : div (of_int 52) (of_int 13) = of_int 4.
Proof. vm_compute. reflexivity. Qed.
Example div_1_3 : div one (of_int 3) = 0x3EAAAAAB.
Proof. vm_compute. reflexivity. Qed.
Example add_tenth : add 0x3DCCCCCD 0x3E4CCCCD = 0x3E99999A.
Proof. vm_compute. reflexivity. Qed.
Example to_int_samples :
  map to_int [0; 0x3F000000; 0x3F800000; 0x40733333; 0x41200000; 0xC0733333;
              0x4B000001]
  = [0; 0; 1; 3; 10; -3; 8388609].
Proof. vm_compute. reflexivity. Qed.
End F32_examples.

(** ** Sanity checks of the trainer model *)

Example fnv1a32_zero : DT.fnv1a32 DT.fnv1a32_basis 0 = 0x4B95F515.
Proof. vm_compute. reflexivity. Qed.

Example select_five :
  map (fun k => DT.select k 3 7 42 5 2) [0; 1; 2; 3; 4]
  = [Some 3; Some 4; Some 0; Some 1; Some 2].
Proof. vm_compute. reflexivity. Qed.

(** ** Facts about the binary32 model *)

Section F32_facts.
Import F32.

Lemma wrap_int_small z : - 2 ^ 31 <= z < 2 ^ 31 -> wrap_int z = z.
Proof.
  intros H. unfold wrap_int.
  rewrite Z.mod_small by lia. lia.
Qed.

Lemma wrap_int_range z : - 2 ^ 31 <= wrap_int z < 2 ^ 31.
Proof.
  unfold wrap_int.
  pose proof (Z.mod_pos_bound (z + 2 ^ 31) (2 ^ 32) ltac:(lia)). lia.
Qed.

Lemma wrap_int_size_t z : wrap_int (wrap_size_t z) = wrap_int z.
Proof.
  unfold wrap_int, wrap_size_t.
  f_equal.
  rewrite (Z.mod_eq z (2 ^ 64)) by lia.
  replace (z - 2 ^ 64 * (z / 2 ^ 64) + 2 ^ 31)
    with (z + 2 ^ 31 + (- (z / 2 ^ 64) * 2 ^ 32) * 2 ^ 32) by lia.
  apply Z_mod_plus_full.
Qed.

Lemma magnitude_mod (x : Z) : magnitude x = x mod 2 ^ 31.
Proof.
  unfold magnitude.
  change 0x7FFFFFFF with (Z.ones 31).
  apply Z.land_ones. lia.
Qed.

Lemma sign_high (x : Z) : wf x -> sign x = (2 ^ 31 <=? x).
Proof.
  intros [H0 H1]. unfold sign.
  pose proof (Z.testbit_spec' x 31 ltac:(lia)) as Hb.
  destruct (Z.leb_spec (2 ^ 31) x) as [Hx|Hx].
  - assert (x / 2 ^ 31 = 1) as E.
    { symmetry. apply (Z.div_unique x (2 ^ 31) 1 (x - 2 ^ 31)); lia. }
    rewrite E in Hb. destruct (Z.testbit x 31); [reflexivity|discriminate].
  - rewrite Z.div_small in Hb by lia.
    destruct (Z.testbit x 31); [discriminate|reflexivity].
Qed.

(** The bits of a well-formed value, split into sign and magnitude. *)
Lemma sign_magnitude (x : Z) :
  wf x ->
  0 <= magnitude x < 2 ^ 31 /\
  ((sign x = false /\ x = magnitude x) \/
   (sign x = true /\ x = 2 ^ 31 + magnitude x)).
Proof.
  intros Hwf. pose proof Hwf as [H0 H1].
  rewrite sign_high by assumption. rewrite magnitude_mod.
  pose proof (Z.mod_pos_bound x (2 ^ 31) ltac:(lia)).
  split; [assumption|].
  destruct (Z.leb_spec (2 ^ 31) x) as [Hx|Hx].
  - right. split; [reflexivity|].
    assert (x mod 2 ^ 31 = x - 2 ^ 31); [|lia].
    symmetry. apply (Z.mod_unique x (2 ^ 31) 1); lia.
  - left. split; [reflexivity|]. rewrite Z.mod_small; lia.
Qed.

Lemma key_range (x : Z) : wf x -> isnan x = false -> - inf_mag <= key x <= inf_mag.
Proof.
  intros Hwf Hnan. unfold isnan in Hnan. apply Z.ltb_ge in Hnan.
  destruct (sign_magnitude x Hwf) as [Hm _].
  unfold key. destruct (sign x); lia.
Qed.

(** [nextafterf_down] steps one position down the number line, from every
    value that is neither a NaN nor minus infinity. *)
Lemma nextafterf_down_spec (x : Z) :
  wf x -> isnan x = false -> - inf_mag < key x ->
  wf (nextafterf_down x) /\ isnan (nextafterf_down x) = false /\
  key (nextafterf_down x) = key x - 1.
Proof.
  intros Hwf Hnan Hkey.
  destruct (sign_magnitude x Hwf) as [Hm Hs].
  unfold nextafterf_down. rewrite Hnan.
  unfold isnan in Hnan. apply Z.ltb_ge in Hnan.
  unfold key in Hkey.
  assert (Hinf : inf_mag = 2139095040) by reflexivity.
  destruct (Z.eqb_spec (magnitude x) 0) as [Hz|Hz].
  - assert (wf 0x80000001) as Hw by (unfold wf; lia).
    split; [exact Hw|].
    assert (key 0x80000001 = -1) as -> by reflexivity.
    assert (isnan 0x80000001 = false) as -> by reflexivity.
    split; [reflexivity|].
    unfold key. rewrite Hz. destruct (sign x); reflexivity.
  - destruct Hs as [[Hs Hx]|[Hs Hx]]; rewrite Hs in *.
    + assert (wf (x - 1)) as Hw by (unfold wf; lia).
      destruct (sign_magnitude (x - 1) Hw) as [Hm' Hs'].
      rewrite (sign_high _ Hw) in Hs'.
      destruct (Z.leb_spec (2 ^ 31) (x - 1)); [lia|].
      destruct Hs' as [[_ Hx']|[? _]]; [|discriminate].
      split; [exact Hw|]. unfold isnan, key.
      rewrite (sign_high _ Hw), Hs.
      destruct (Z.leb_spec (2 ^ 31) (x - 1)); [lia|].
      split; [apply Z.ltb_ge; lia|lia].
    + unfold isinf. destruct (Z.eqb_spec (magnitude x) inf_mag) as [Hi|Hi];
        [lia|].
      assert (wf (x + 1)) as Hw by (unfold wf; lia).
      destruct (sign_magnitude (x + 1) Hw) as [Hm' Hs'].
      rewrite (sign_high _ Hw) in Hs'.
      destruct (Z.leb_spec (2 ^ 31) (x + 1)); [|lia].
      destruct Hs' as [[? _]|[_ Hx']]; [discriminate|].
      split; [exact Hw|]. unfold isnan, key.
      rewrite (sign_high _ Hw), Hs.
      destruct (Z.leb_spec (2 ^ 31) (x + 1)); [|lia].
      split; [apply Z.ltb_ge; lia|lia].
Qed.

Lemma isfinite_not_nan (x : Z) : isfinite x = true -> isnan x = false.
Proof.
  unfold isfinite, isnan. intros H%Z.ltb_lt. apply Z.ltb_ge. lia.
Qed.

Lemma isfinite_key (x : Z) :
  wf x -> isfinite x = true -> - inf_mag < key x < inf_mag.
Proof.
  intros Hwf H. unfold isfinite in H. apply Z.ltb_lt in H.
  destruct (sign_magnitude x Hwf) as [Hm _].
  unfold key. destruct (sign x); lia.
Qed.

(** On values that are not NaN, [>] is the negation of [<=], and [>=] the
    negation of [<]. *)
Lemma gt_not_le (a b : Z) :
  isnan a = false -> isnan b = false -> gt a b = negb (le a b).
Proof.
  intros Ha Hb. unfold gt, le, ordered. rewrite Ha, Hb. simpl.
  destruct (Z.ltb_spec (key b) (key a)), (Z.leb_spec (key a) (key b));
    simpl; try reflexivity; lia.
Qed.

Lemma ge_not_lt (a b : Z) :
  isnan a = false -> isnan b = false -> ge a b = negb (lt a b).
Proof.
  intros Ha Hb. unfold ge, lt, ordered. rewrite Ha, Hb. simpl.
  destruct (Z.leb_spec (key b) (key a)), (Z.ltb_spec (key a) (key b));
    simpl; try reflexivity; lia.
Qed.

End F32_facts.

(** ** The trainer: rejected splits and histogram bins *)

Section Split_facts.
Import DT.

Lemma SplitNotValid_true_iff (split : Split) (mid : F32.t) (msl num_rows : Z) :
  0 <= nLeft split <= num_rows -> num_rows < 2 ^ 31 ->
  SplitNotValid split mid msl (wrap_size_t (wrap_int num_rows)) = true <->
  F32.le (best_metric_val split) mid = true \/ nLeft split < msl \/
  num_rows - nLeft split < msl.
Proof.
  intros Hn Hrows. unfold SplitNotValid.
  rewrite wrap_int_size_t.
  rewrite (wrap_int_small (wrap_int num_rows)) by apply wrap_int_range.
  rewrite (wrap_int_small num_rows) by lia.
  rewrite (wrap_int_small (num_rows - nLeft split)) by lia.
  rewrite !orb_true_iff, !Z.ltb_lt. tauto.
Qed.

(** C3.  A block of [nodeSplitKernel] returns without partitioning (the
    node stays a leaf) exactly when the gain is at most
    [min_impurity_decrease], or the left count is below [min_samples_leaf], or
    the right count, the number of rows minus the left count, is below
    [min_samples_leaf]; otherwise it partitions the rows of the node.  In
    particular a split whose gain is zero is rejected as soon as
    [min_impurity_decrease >= 0]. *)
Theorem nodeSplitKernel_rejects_iff (TPB : nat) (msl : Z) (mid : F32.t)
    (input : Input) (work_items : list NodeWorkItem) (splits : list Split)
    (lcomp0 rcomp0 : list nat) (b : nat) (work_item : NodeWorkItem)
    (split : Split) :
  work_items !! b = Some work_item ->
  splits !! b = Some split ->
  0 <= nLeft split <= Z.of_nat (range_count (instances work_item)) ->
  Z.of_nat (range_count (instances work_item)) < 2 ^ 31 ->
  let num_rows := Z.of_nat (range_count (instances work_item)) in
  let rejected :=
    F32.le (best_metric_val split) mid = true \/ nLeft split < msl \/
    num_rows - nLeft split < msl in
  (SplitNotValid split mid msl (wrap_size_t (wrap_int num_rows)) = true
   <-> rejected) /\
  (rejected ->
   nodeSplitKernel TPB msl mid input work_items splits lcomp0 rcomp0 b
   = Some (rowids input)) /\
  (~ rejected ->
   nodeSplitKernel TPB msl mid input work_items splits lcomp0 rcomp0 b
   = partitionSamples TPB input split work_item lcomp0 rcomp0) /\
  (F32.magnitude (best_metric_val split) = 0 ->
   F32.ge mid F32.pos_zero = true -> rejected).
Proof.
  intros Hw Hs Hn Hrows num_rows rejected.
  pose proof (SplitNotValid_true_iff split mid msl num_rows Hn Hrows) as Hiff.
  split; [exact Hiff|].
  unfold nodeSplitKernel. rewrite Hw, Hs. simpl.
  fold num_rows.
  split; [|split].
  - intros Hr. apply Hiff in Hr. rewrite Hr. reflexivity.
  - intros Hr.
    destruct (SplitNotValid split mid msl (wrap_size_t (wrap_int num_rows)))
      eqn:E; [|reflexivity].
    exfalso. apply Hr, Hiff. reflexivity.
  - intros Hzero Hge. left.
    unfold F32.ge, F32.ordered in Hge.
    apply andb_true_iff in Hge as [Hord Hk].
    apply andb_true_iff in Hord as [Hmid _].
    assert (F32.isnan (best_metric_val split) = false) as Hgain.
    { unfold F32.isnan. rewrite Hzero. reflexivity. }
    unfold F32.le, F32.ordered. rewrite Hgain, Hmid. simpl.
    change (F32.key F32.pos_zero) with 0 in Hk.
    unfold F32.key at 1. rewrite Hzero.
    destruct (F32.sign (best_metric_val split)); exact Hk.
Qed.

Lemma nodeSplitKernel_rejects_iff_witness :
  let wi := mkNodeWorkItem 0 0 (mkInstanceRange 0 4) in
  let sp := mkSplit F32.one 0 F32.pos_zero 2 in
  SplitNotValid sp F32.pos_zero 1 (wrap_size_t (wrap_int 4)) = true /\
  nodeSplitKernel 2 1 F32.pos_zero
    (mkInput [F32.one; F32.one; F32.one; F32.one] 4 [0; 1; 2; 3])
    [wi] [sp] [0; 0]%nat [0; 0]%nat 0 = Some [0; 1; 2; 3].
Proof.
  intros wi sp.
  destruct (nodeSplitKernel_rejects_iff 2 1 F32.pos_zero
              (mkInput [F32.one; F32.one; F32.one; F32.one] 4 [0; 1; 2; 3])
              [wi] [sp] [0; 0]%nat [0; 0]%nat 0%nat wi sp
              eq_refl eq_refl ltac:(simpl; lia) ltac:(simpl; lia))
    as (Hiff & Hrej & _ & Hzero).
  assert (F32.le (best_metric_val sp) F32.pos_zero = true \/ nLeft sp < 1 \/
          Z.of_nat (range_count (instances wi)) - nLeft sp < 1) as Hr.
  { apply Hzero; reflexivity. }
  split.
  - apply Hiff. exact Hr.
  - apply Hrej. exact Hr.
Defined.

(** C9.  When the split of a node is rejected, the block of
    [nodeSplitKernel] that owns the node returns at once: the row-id array,
    the only state the kernel writes, is left as it was, inside the node's
    instance range and everywhere else. *)
Theorem nodeSplitKernel_rejected_frame (TPB : nat) (msl : Z) (mid : F32.t)
    (input : Input) (work_items : list NodeWorkItem) (splits : list Split)
    (lcomp0 rcomp0 : list nat) (b : nat) (work_item : NodeWorkItem)
    (split : Split) :
  work_items !! b = Some work_item ->
  splits !! b = Some split ->
  SplitNotValid split mid msl
    (wrap_size_t (wrap_int (Z.of_nat (range_count (instances work_item)))))
  = true ->
  nodeSplitKernel TPB msl mid input work_items splits lcomp0 rcomp0 b
  = Some (rowids input).
Proof.
  intros Hw Hs Hrej. unfold nodeSplitKernel.
  rewrite Hw, Hs. simpl. rewrite Hrej. reflexivity.
Qed.

Lemma nodeSplitKernel_rejected_frame_witness :
  nodeSplitKernel 2 3 F32.pos_zero
    (mkInput [F32.pos_zero; F32.one; F32.pos_zero; F32.one] 4 [3; 2; 1; 0])
    [mkNodeWorkItem 0 0 (mkInstanceRange 0 4)]
    [mkSplit F32.pos_zero 0 F32.one 2] [0; 0]%nat [0; 0]%nat 0
  = Some [3; 2; 1; 0].
Proof.
  apply (nodeSplitKernel_rejected_frame 2 3 F32.pos_zero
           (mkInput [F32.pos_zero; F32.one; F32.pos_zero; F32.one] 4
              [3; 2; 1; 0])
           [mkNodeWorkItem 0 0 (mkInstanceRange 0 4)]
           [mkSplit F32.pos_zero 0 F32.one 2] [0; 0]%nat [0; 0]%nat 0%nat
           (mkNodeWorkItem 0 0 (mkInstanceRange 0 4))
           (mkSplit F32.pos_zero 0 F32.one 2)); reflexivity.
Defined.

End Split_facts.

Section Lower_bound_facts.
Import DT.

(** What the binary search leaves behind, whatever the boundaries are: the
    boundary before the result (when there is one in the searched range) is
    below [d], and the boundary at the result is not, unless the result is the
    right end of the range. *)
Lemma lower_bound_loop_spec (sbins : list F32.t) (d : F32.t) (nbins : Z) :
  nbins <= 2 ^ 30 ->
  forall (fuel : nat) (start end_ : Z),
  0 <= start <= end_ -> end_ < nbins ->
  end_ - start < Z.of_nat fuel ->
  exists r,
    lower_bound_loop fuel sbins d start end_ = Some r /\
    start <= r <= end_ /\
    (r = start \/ F32.lt (sbins_at sbins (r - 1)) d = true) /\
    (r = end_ \/ F32.lt (sbins_at sbins r) d = false).
Proof.
  intros Hbig fuel. induction fuel as [|fuel IH]; intros start end_ Hse He Hf.
  - lia.
  - simpl. destruct (Z.ltb_spec start end_) as [Hlt|Hge].
    + rewrite (wrap_int_small (start + end_)) by lia.
      rewrite Z.quot_div_nonneg by lia.
      set (mid := (start + end_) / 2).
      assert (start <= mid < end_) as Hmid.
      { unfold mid. split.
        - apply Z.div_le_lower_bound; lia.
        - apply Z.div_lt_upper_bound; lia. }
      destruct (F32.lt (sbins_at sbins mid) d) eqn:Hcmp.
      * rewrite (wrap_int_small (mid + 1)) by lia.
        destruct (IH (mid + 1) end_) as (r & Hr & Hrange & Hleft & Hright);
          [lia|lia|lia|].
        exists r. split; [exact Hr|]. split; [lia|]. split; [|exact Hright].
        right. destruct Hleft as [->|Hleft]; [|exact Hleft].
        replace (mid + 1 - 1) with mid by lia. exact Hcmp.
      * destruct (IH start mid) as (r & Hr & Hrange & Hleft & Hright);
          [lia|lia|lia|].
        exists r. split; [exact Hr|]. split; [lia|]. split; [exact Hleft|].
        right. destruct Hright as [->|Hright]; [exact Hcmp|exact Hright].
    + exists start. split; [reflexivity|]. split; [lia|].
      split; [left; reflexivity|left; lia].
Qed.

Lemma le_true_key (a b : Z) :
  F32.le a b = true ->
  F32.isnan a = false /\ F32.isnan b = false /\ F32.key a <= F32.key b.
Proof.
  unfold F32.le, F32.ordered. intros H.
  apply andb_true_iff in H as [H1 H2].
  apply andb_true_iff in H1 as [Ha Hb].
  apply negb_true_iff in Ha, Hb. apply Z.leb_le in H2. auto.
Qed.

Lemma lt_true_key (a b : Z) :
  F32.lt a b = true ->
  F32.isnan a = false /\ F32.isnan b = false /\ F32.key a < F32.key b.
Proof.
  unfold F32.lt, F32.ordered. intros H.
  apply andb_true_iff in H as [H1 H2].
  apply andb_true_iff in H1 as [Ha Hb].
  apply negb_true_iff in Ha, Hb. apply Z.ltb_lt in H2. auto.
Qed.

Lemma ge_true_key (a b : Z) :
  F32.ge a b = true ->
  F32.isnan a = false /\ F32.isnan b = false /\ F32.key b <= F32.key a.
Proof.
  unfold F32.ge, F32.ordered. intros H.
  apply andb_true_iff in H as [H1 H2].
  apply andb_true_iff in H1 as [Ha Hb].
  apply negb_true_iff in Ha, Hb. apply Z.leb_le in H2. auto.
Qed.

(** C10, as amended.  For at least one and at most 2^30 bins,
    [lower_bound] returns an index in [0, nbins-1], whatever the boundaries
    and the value are.  When the boundaries are non-decreasing and the value is
    not a NaN, it is the least index whose boundary is [>= d] if there is
    one, and [nbins-1] otherwise; for a NaN it is 0. *)
Theorem lower_bound_in_range_and_least (sbins : list F32.t) (nbins : Z)
    (d : F32.t) :
  1 <= nbins <= 2 ^ 30 ->
  exists r,
    lower_bound sbins nbins d = Some r /\
    0 <= r <= nbins - 1 /\
    (F32.isnan d = true -> r = 0) /\
    (F32.isnan d = false -> sbins_sorted sbins nbins ->
     (forall i, 0 <= i < nbins -> F32.ge (sbins_at sbins i) d = true ->
      F32.ge (sbins_at sbins r) d = true /\ r <= i) /\
     ((forall i, 0 <= i < nbins -> F32.ge (sbins_at sbins i) d = false) ->
      r = nbins - 1)).
Proof.
  intros Hn. unfold lower_bound.
  rewrite (wrap_int_small (nbins - 1)) by lia.
  destruct (lower_bound_loop_spec sbins d nbins ltac:(lia) (Z.to_nat nbins)
              0 (nbins - 1)) as (r & Hr & Hrange & Hleft & Hright);
    [lia|lia|lia|].
  exists r. split; [exact Hr|]. split; [lia|]. split.
  - intros Hnan. destruct Hleft as [->|Hleft]; [reflexivity|].
    apply lt_true_key in Hleft as (_ & Hd & _). congruence.
  - intros Hd Hsorted.
    assert (forall i, 0 <= i < nbins ->
            F32.ge (sbins_at sbins i) d = true -> r <= i) as Hleast.
    { intros i Hi Hge.
      destruct (Z.le_gt_cases r i) as [|Hgt]; [assumption|exfalso].
      destruct Hleft as [->|Hleft]; [lia|].
      apply lt_true_key in Hleft as (_ & _ & Hk).
      apply ge_true_key in Hge as (_ & _ & Hk').
      destruct (Z.eq_dec i (r - 1)) as [->|Hne]; [lia|].
      pose proof (Hsorted i (r - 1) ltac:(lia) ltac:(lia)) as Hs.
      apply le_true_key in Hs as (_ & _ & Hs). lia. }
    assert (r < nbins - 1 -> F32.ge (sbins_at sbins r) d = true) as Hat.
    { intros Hlt. destruct Hright as [->|Hright]; [lia|].
      pose proof (Hsorted r (r + 1) ltac:(lia) ltac:(lia)) as Hs.
      apply le_true_key in Hs as (Hnr & _ & _).
      rewrite ge_not_lt by assumption. rewrite Hright. reflexivity. }
    split.
    + intros i Hi Hge. pose proof (Hleast i Hi Hge) as Hle.
      split; [|exact Hle].
      destruct (Z.eq_dec r i) as [->|Hne]; [exact Hge|].
      apply Hat. lia.
    + intros Hnone.
      destruct (Z.eq_dec r (nbins - 1)) as [|Hne]; [assumption|exfalso].
      rewrite Hnone in Hat by lia.
      assert (false = true) by (apply Hat; lia). discriminate.
Qed.

Lemma lower_bound_in_range_and_least_witness :
  exists r,
    lower_bound [F32.pos_zero; F32.one; 0x40000000] 3 0x3F000000 = Some r /\
    0 <= r <= 3 - 1.
Proof.
  destruct (lower_bound_in_range_and_least
              [F32.pos_zero; F32.one; 0x40000000] 3 0x3F000000
              ltac:(lia)) as (r & Hr & Hrange & _).
  exists r. split; [exact Hr|exact Hrange].
Defined.

(** C10, as stated, fails for a NaN: no boundary of [[1.0; 2.0]] is [>=] a
    NaN, yet the result is 0 and not [nbins - 1 = 1]. *)
Lemma lower_bound_nan_counterexample :
  let sbins := [F32.one; 0x40000000] in
  let d := F32.quiet_nan in
  sbins_sorted sbins 2 /\
  (forall i, 0 <= i < 2 -> F32.ge (sbins_at sbins i) d = false) /\
  lower_bound sbins 2 d = Some 0 /\
  lower_bound sbins 2 d <> Some (2 - 1).
Proof.
  intros sbins d. split; [|split; [|split]].
  - intros i j Hi Hj.
    assert (i = 0) as -> by lia. assert (j = 1) as -> by lia. reflexivity.
  - intros i Hi.
    assert (i = 0 \/ i = 1) as [->| ->] by lia; reflexivity.
  - reflexivity.
  - discriminate.
Qed.

End Lower_bound_facts.

(** ** The fixture: comparison operators *)

Section Operator_facts.
Import FIL.

Lemma fil_next_unfold (t l r : Z) (dl : bool) (v : F32.t) :
  fil_next t l r dl v =
  if F32.isnan v then (if dl then l else r)
  else if F32.ge v t then r else l.
Proof.
  unfold fil_next, child_cond. simpl.
  destruct (F32.isnan v); [destruct dl|]; reflexivity.
Qed.

(** C2, as amended.  [adjust_threshold_to_treelite] maps a canonical node of
    the engine (left when [val < threshold], NaN by [default_left]) to a node
    of the external model carrying the operator [op], and the node it emits
    sends every value, NaN and the infinities included, to the child the
    canonical node sends it to: for ">" and ">=" the children are swapped and
    [default_left] flipped, for "<=" and ">" the threshold is moved to the
    next representable value below it. *)
Theorem adjust_threshold_preserves_routing (o : Operator) (t v : Z)
    (l r : Z) (dl : bool) :
  o = kLT \/ o = kLE \/ o = kGT \/ o = kGE ->
  F32.wf t -> F32.wf v -> F32.isfinite t = true ->
  exists t' l' r' dl',
    adjust_threshold_to_treelite t l r dl o = Some (t', l', r', dl') /\
    tl_next o t' l' r' dl' v = fil_next t l r dl v.
Proof.
  intros Ho Ht Hv Hfin.
  pose proof (isfinite_not_nan t Hfin) as Hnan.
  pose proof (isfinite_key t Ht Hfin) as Hkey.
  destruct (nextafterf_down_spec t Ht Hnan ltac:(lia)) as (Hw' & Hnan' & Hk').
  unfold adjust_threshold_to_treelite. rewrite Hnan.
  rewrite fil_next_unfold.
  destruct Ho as [->|[->|[->| ->]]]; do 4 eexists; (split; [reflexivity|]);
    unfold tl_next, tl_compare; destruct (F32.isnan v) eqn:Hvn;
    try (destruct dl; reflexivity);
    unfold F32.lt, F32.le, F32.gt, F32.ge, F32.ordered;
    rewrite ?Hvn, ?Hnan, ?Hnan', ?Hk'; simpl; try reflexivity.
  - destruct (Z.ltb_spec (F32.key v) (F32.key t)),
      (Z.leb_spec (F32.key t) (F32.key v)); try reflexivity; lia.
  - destruct (Z.leb_spec (F32.key v) (F32.key t - 1)),
      (Z.leb_spec (F32.key t) (F32.key v)); try reflexivity; lia.
  - destruct (Z.ltb_spec (F32.key t - 1) (F32.key v)),
      (Z.leb_spec (F32.key t) (F32.key v)); try reflexivity; lia.
Qed.

Lemma adjust_threshold_preserves_routing_witness :
  exists t' l' r' dl',
    adjust_threshold_to_treelite F32.one 1 2 true kGT = Some (t', l', r', dl') /\
    tl_next kGT t' l' r' dl' F32.one = fil_next F32.one 1 2 true F32.one.
Proof.
  apply (adjust_threshold_preserves_routing kGT F32.one F32.one 1 2 true).
  - right. right. left. reflexivity.
  - unfold F32.wf, F32.one. lia.
  - unfold F32.wf, F32.one. lia.
  - reflexivity.
Defined.

(** C2, as stated, fails: read as a normalisation of an operator node into a
    canonical "<" node, the prescribed transformation for "<=" (threshold moved
    to the next value below) sends the value equal to the threshold to the
    other child.  With threshold 1.0 and value 1.0 the node "val <= 1.0" goes
    left (key 1), the normalised node "val < 0.99999994" goes right (key 2).
    The function of the fixture and the transformation of the spec agree on
    this input. *)
Lemma normalization_counterexample :
  let t := F32.one in
  let v := F32.one in
  adjust_threshold_to_treelite t 1 2 true kLE = Some (0x3F7FFFFF, 1, 2, true) /\
  spec_normalize kLE t 1 2 true = (0x3F7FFFFF, 1, 2, true) /\
  tl_next kLE t 1 2 true v = 1 /\
  fil_next 0x3F7FFFFF 1 2 true v = 2 /\
  tl_next kLE t 1 2 true v <> fil_next 0x3F7FFFFF 1 2 true v.
Proof. repeat split. vm_compute. discriminate. Qed.

End Operator_facts.

(** ** The trainer: feature sub-sampling *)

Section Select_facts.
Import DT.
Variables (treeid nodeid seed N B : Z).
Hypothesis HN : 1 <= N.
Hypothesis HB : 1 <= B.
Hypothesis Hbound : N + B <= 2 ^ 31.

Arguments select_hash : simpl never.

Abbreviation before := (select_before treeid nodeid seed).
Abbreviation cnt := (count_before treeid nodeid seed).
Abbreviation rank := (select_rank treeid nodeid seed N).
Abbreviation indices := (thread_indices N B).

(** *** The order of the candidates *)

Lemma before_irrefl k : before k k = false.
Proof.
  unfold select_before. rewrite Z.ltb_irrefl, Z.eqb_refl, Z.ltb_irrefl.
  reflexivity.
Qed.

Lemma before_spec i k :
  before i k = true <->
  select_hash treeid nodeid seed i < select_hash treeid nodeid seed k \/
  (select_hash treeid nodeid seed i = select_hash treeid nodeid seed k /\ i < k).
Proof.
  unfold select_before.
  rewrite orb_true_iff, andb_true_iff, Z.ltb_lt, Z.eqb_eq, Z.ltb_lt.
  reflexivity.
Qed.

Lemma before_trans i j k :
  before i j = true -> before j k = true -> before i k = true.
Proof. rewrite !before_spec. lia. Qed.

Lemma before_total i k : i <> k -> before i k = true \/ before k i = true.
Proof. rewrite !before_spec. lia. Qed.

(** *** One thread *)

Lemma cnt_nil k : cnt k [] = 0.
Proof. reflexivity. Qed.

Lemma cnt_cons k i l :
  cnt k (i :: l) = (if before i k then 1 else 0) + cnt k l.
Proof.
  unfold count_before. rewrite filter_cons.
  destruct (decide (before i k = true)) as [E|E].
  - rewrite E. simpl. lia.
  - apply not_true_is_false in E. rewrite E. lia.
Qed.

Lemma cnt_app k l1 l2 : cnt k (l1 ++ l2) = cnt k l1 + cnt k l2.
Proof.
  unfold count_before. rewrite filter_app, length_app. lia.
Qed.

Lemma cnt_nonneg k l : 0 <= cnt k l.
Proof. unfold count_before. lia. Qed.

Lemma cnt_Permutation k l1 l2 : l1 ≡ₚ l2 -> cnt k l1 = cnt k l2.
Proof. intros H. unfold count_before. rewrite H. reflexivity. Qed.

Lemma select_thread_loop_0 k i c :
  select_thread_loop k treeid nodeid seed N B 0 i c
  = if i <? N then None else Some c.
Proof. reflexivity. Qed.

Lemma select_thread_loop_S k fuel i c :
  select_thread_loop k treeid nodeid seed N B (S fuel) i c
  = if i <? N then
      if i =? k then
        select_thread_loop k treeid nodeid seed N B fuel (wrap_int (i + B)) c
      else if select_hash treeid nodeid seed i
              <? select_hash treeid nodeid seed k then
        select_thread_loop k treeid nodeid seed N B fuel (wrap_int (i + B))
          (wrap_int (c + 1))
      else if (select_hash treeid nodeid seed i
               =? select_hash treeid nodeid seed k) && (i <? k) then
        select_thread_loop k treeid nodeid seed N B fuel (wrap_int (i + B))
          (wrap_int (c + 1))
      else
        select_thread_loop k treeid nodeid seed N B fuel (wrap_int (i + B)) c
    else Some c.
Proof. reflexivity. Qed.

Lemma indices_0 i : indices 0 i = [].
Proof. simpl. destruct (i <? N); reflexivity. Qed.

Lemma indices_S fuel i :
  indices (S fuel) i = if i <? N then i :: indices fuel (i + B) else [].
Proof. reflexivity. Qed.

Lemma select_thread_loop_spec k (fuel : nat) :
  forall i c,
  0 <= c <= i -> i < N + B -> N - i <= Z.of_nat fuel ->
  select_thread_loop k treeid nodeid seed N B fuel i c
  = Some (c + cnt k (indices fuel i)).
Proof.
  induction fuel as [|fuel IH]; intros i c Hc Hi Hfuel.
  - rewrite select_thread_loop_0, indices_0.
    destruct (Z.ltb_spec i N); [lia|].
    rewrite cnt_nil. f_equal. lia.
  - rewrite select_thread_loop_S, indices_S.
    destruct (Z.ltb_spec i N) as [Hlt|Hge].
    + rewrite (wrap_int_small (i + B)) by lia.
      rewrite cnt_cons.
      destruct (Z.eqb_spec i k) as [->|Hne].
      * rewrite before_irrefl. rewrite IH by lia. f_equal.
      * unfold select_before at 1.
        destruct (Z.ltb_spec (select_hash treeid nodeid seed i)
                    (select_hash treeid nodeid seed k)).
        -- rewrite orb_true_l. rewrite (wrap_int_small (c + 1)) by lia.
           rewrite IH by lia. f_equal. lia.
        -- rewrite orb_false_l.
           destruct ((select_hash treeid nodeid seed i =?
                      select_hash treeid nodeid seed k) && (i <? k)).
           ++ rewrite (wrap_int_small (c + 1)) by lia.
              rewrite IH by lia. f_equal. lia.
           ++ rewrite IH by lia. f_equal.
    + rewrite cnt_nil. f_equal. lia.
Qed.

(** *** The threads of the block together *)

Lemma elem_of_indices (fuel : nat) :
  forall i x,
  x ∈ indices fuel i <->
  exists j : nat, (j < fuel)%nat /\ x = i + Z.of_nat j * B /\ x < N.
Proof.
  induction fuel as [|fuel IH]; intros i x.
  - simpl. destruct (i <? N); split.
    + intros H. inversion H.
    + intros (j & Hj & _). lia.
    + intros H. inversion H.
    + intros (j & Hj & _). lia.
  - simpl. destruct (Z.ltb_spec i N) as [Hlt|Hge].
    + rewrite elem_of_cons, IH. split.
      * intros [->|(j & Hj & -> & Hx)].
        -- exists 0%nat. split; [lia|]. split; lia.
        -- exists (S j). split; [lia|]. split; lia.
      * intros (j & Hj & -> & Hx). destruct j as [|j].
        -- left. lia.
        -- right. exists j. split; [lia|]. split; lia.
    + split.
      * intros H. inversion H.
      * intros (j & Hj & -> & Hx). nia.
Qed.

Lemma NoDup_indices (fuel : nat) : forall i, NoDup (indices fuel i).
Proof.
  induction fuel as [|fuel IH]; intros i; simpl.
  - destruct (i <? N); constructor.
  - destruct (i <? N); [|constructor].
    constructor; [|apply IH].
    rewrite elem_of_indices. intros (j & _ & Hj & _). nia.
Qed.

Lemma block_indices_Permutation :
  seqZ 0 B ≫= indices (Z.to_nat N) ≡ₚ seqZ 0 N.
Proof.
  apply NoDup_Permutation.
  - apply NoDup_bind.
    + intros t1 t2 y Ht1 Ht2.
      rewrite !elem_of_indices.
      intros (j1 & _ & -> & _) (j2 & _ & Hy & _).
      apply elem_of_seqZ in Ht1, Ht2.
      assert ((t1 + Z.of_nat j1 * B) mod B = (t2 + Z.of_nat j2 * B) mod B)
        as Hmod by (rewrite Hy; reflexivity).
      rewrite !Z_mod_plus_full in Hmod.
      rewrite !Z.mod_small in Hmod by lia. exact Hmod.
    + intros t _. apply NoDup_indices.
    + apply NoDup_seqZ.
  - apply NoDup_seqZ.
  - intros x. rewrite list_elem_of_bind, elem_of_seqZ. split.
    + intros (t & Hx & Ht). apply elem_of_seqZ in Ht.
      apply elem_of_indices in Hx as (j & _ & -> & Hx). nia.
    + intros Hx. exists (x mod B).
      pose proof (Z.mod_pos_bound x B ltac:(lia)) as Hm.
      pose proof (Z.div_mod x B ltac:(lia)) as Hd.
      assert (0 <= x / B) by (apply Z.div_pos; lia).
      split.
      * apply elem_of_indices. exists (Z.to_nat (x / B)).
        split; [|split].
        -- assert (x / B <= x) by (apply Z.div_le_upper_bound; nia). lia.
        -- rewrite Z2Nat.id by lia. lia.
        -- lia.
      * apply elem_of_seqZ. lia.
Qed.

Lemma select_sched_spec k (sched : list Z) :
  forall acc,
  0 <= acc ->
  acc + cnt k (sched ≫= indices (Z.to_nat N)) < 2 ^ 31 ->
  Forall (fun t => 0 <= t < B) sched ->
  foldl (fun acc tid =>
           blksum ← acc;
           c ← select_thread k treeid nodeid seed N B tid;
           Some (if 0 <? c then wrap_int (blksum + c) else blksum))
        (Some acc) sched
  = Some (acc + cnt k (sched ≫= indices (Z.to_nat N))).
Proof.
  induction sched as [|t sched IH]; intros acc Hacc Hsum Hall.
  - simpl. rewrite cnt_nil. f_equal. lia.
  - apply Forall_cons in Hall as [Ht Hall].
    rewrite bind_cons, cnt_app in Hsum |- *.
    pose proof (cnt_nonneg k (indices (Z.to_nat N) t)).
    pose proof (cnt_nonneg k (sched ≫= indices (Z.to_nat N))).
    simpl. unfold select_thread.
    rewrite select_thread_loop_spec by lia. simpl. rewrite Z.add_0_l.
    assert ((if 0 <? cnt k (indices (Z.to_nat N) t)
             then wrap_int (acc + cnt k (indices (Z.to_nat N) t))
             else acc) = acc + cnt k (indices (Z.to_nat N) t)) as ->.
    { destruct (Z.ltb_spec 0 (cnt k (indices (Z.to_nat N) t))).
      - rewrite wrap_int_small; lia.
      - lia. }
    rewrite IH; [apply (f_equal Some); lia|lia|lia|assumption].
Qed.

(** *** The rank *)

Lemma rank_lt k : 0 <= k < N -> 0 <= rank k < N.
Proof.
  intros Hk. unfold select_rank, count_before. split; [lia|].
  assert (length (filter (λ i, before i k = true) (seqZ 0 N))
          < length (seqZ 0 N))%nat as Hlt.
  { apply (length_filter_lt _ _ k).
    - apply elem_of_seqZ. lia.
    - rewrite before_irrefl. discriminate. }
  rewrite length_seqZ in Hlt. lia.
Qed.

Lemma filter_length_lt_mono (P Q : Z -> Prop)
    `{!forall x, Decision (P x)} `{!forall x, Decision (Q x)}
    (l : list Z) (y : Z) :
  (forall x, P x -> Q x) -> y ∈ l -> Q y -> ~ P y ->
  (length (filter P l) < length (filter Q l))%nat.
Proof.
  intros HPQ. induction l as [|x l IH]; intros Hy HQ HP.
  - inversion Hy.
  - rewrite !filter_cons.
    assert (length (filter P l) <= length (filter Q l))%nat as Hle.
    { clear -HPQ. induction l as [|z l IH]; [reflexivity|].
      rewrite !filter_cons.
      destruct (decide (P z)), (decide (Q z)); simpl; try lia.
      exfalso; auto. }
    apply elem_of_cons in Hy as [->|Hy].
    + destruct (decide (P x)); [contradiction|].
      destruct (decide (Q x)); [simpl; lia|contradiction].
    + specialize (IH Hy HQ HP).
      destruct (decide (P x)), (decide (Q x)); simpl; try lia.
      exfalso; auto.
Qed.

Lemma rank_mono k1 k2 :
  0 <= k1 < N -> before k1 k2 = true -> rank k1 < rank k2.
Proof.
  intros Hk1 Hb. unfold select_rank, count_before.
  apply inj_lt.
  apply (filter_length_lt_mono _ _ _ k1).
  - intros x Hx. exact (before_trans _ _ _ Hx Hb).
  - apply elem_of_seqZ. lia.
  - exact Hb.
  - rewrite before_irrefl. discriminate.
Qed.

Lemma rank_inj k1 k2 :
  0 <= k1 < N -> 0 <= k2 < N -> rank k1 = rank k2 -> k1 = k2.
Proof.
  intros H1 H2 Heq.
  destruct (Z.eq_dec k1 k2) as [|Hne]; [assumption|exfalso].
  destruct (before_total k1 k2 Hne) as [Hb|Hb].
  - pose proof (rank_mono k1 k2 H1 Hb). lia.
  - pose proof (rank_mono k2 k1 H2 Hb). lia.
Qed.

Lemma rank_surj r : 0 <= r < N -> exists k, 0 <= k < N /\ rank k = r.
Proof.
  intros Hr.
  assert ((λ k, rank k) <$> seqZ 0 N ≡ₚ seqZ 0 N) as Hperm.
  { apply submseteq_length_Permutation.
    - apply NoDup_submseteq.
      + apply NoDup_fmap_2_strong; [|apply NoDup_seqZ].
        intros x y Hx Hy. apply elem_of_seqZ in Hx, Hy.
        apply rank_inj; lia.
      + intros x Hx. apply list_elem_of_fmap in Hx as (k & -> & Hk).
        apply elem_of_seqZ in Hk. apply elem_of_seqZ.
        pose proof (rank_lt k ltac:(lia)). lia.
    - rewrite length_fmap. reflexivity. }
  assert (r ∈ (λ k, rank k) <$> seqZ 0 N) as Hin.
  { rewrite Hperm. apply elem_of_seqZ. lia. }
  apply list_elem_of_fmap in Hin as (k & -> & Hk).
  apply elem_of_seqZ in Hk. exists k. split; [lia|reflexivity].
Qed.

(** *** The block *)

Lemma select_sched_rank k (sched : list Z) :
  0 <= k < N -> sched ≡ₚ seqZ 0 B ->
  select_sched k treeid nodeid seed N B sched = Some (rank k).
Proof.
  intros Hk Hperm.
  assert (cnt k (sched ≫= indices (Z.to_nat N)) = rank k) as Hcnt.
  { unfold select_rank. apply cnt_Permutation.
    rewrite Hperm. apply block_indices_Permutation. }
  pose proof (rank_lt k Hk).
  unfold select_sched. rewrite select_sched_spec.
  - f_equal. lia.
  - lia.
  - lia.
  - apply Forall_forall. intros t Ht. rewrite Hperm in Ht.
    apply elem_of_seqZ in Ht. lia.
Qed.

End Select_facts.

(** C6.  For a fixed [(treeid, nodeid, seed, N)] with [N >= 1] (and a block
    of at least one thread whose loop counter stays in the range of an [int]),
    [select] returns, for every [k] in [0, N), the rank of [k] in the order by
    FNV-1a hash, equal hashes by index; the ranks lie in [0, N), differ for
    different [k] and take every value of [0, N): [k |-> select k] is a
    bijection of [0, N).  The value does not depend on the order in which the
    atomic additions of the threads take effect. *)
Theorem select_is_permutation (treeid nodeid seed N blockDim : Z) :
  1 <= N -> 1 <= blockDim -> N + blockDim <= 2 ^ 31 ->
  (forall k, 0 <= k < N ->
   DT.select k treeid nodeid seed N blockDim
   = Some (select_rank treeid nodeid seed N k)) /\
  (forall k, 0 <= k < N ->
   exists r, DT.select k treeid nodeid seed N blockDim = Some r /\ 0 <= r < N) /\
  (forall k1 k2 r, 0 <= k1 < N -> 0 <= k2 < N ->
   DT.select k1 treeid nodeid seed N blockDim = Some r ->
   DT.select k2 treeid nodeid seed N blockDim = Some r -> k1 = k2) /\
  (forall r, 0 <= r < N ->
   exists k, 0 <= k < N /\ DT.select k treeid nodeid seed N blockDim = Some r) /\
  (forall k sched, 0 <= k < N -> sched ≡ₚ seqZ 0 blockDim ->
   DT.select_sched k treeid nodeid seed N blockDim sched
   = DT.select k treeid nodeid seed N blockDim).
Proof.
  intros HN HB Hbound.
  assert (forall k, 0 <= k < N ->
          DT.select k treeid nodeid seed N blockDim
          = Some (select_rank treeid nodeid seed N k)) as Hsel.
  { intros k Hk. unfold DT.select.
    apply select_sched_rank; [assumption..|reflexivity]. }
  split; [exact Hsel|]. split; [|split; [|split]].
  - intros k Hk. eexists. split; [apply Hsel; assumption|].
    apply rank_lt; assumption.
  - intros k1 k2 r H1 H2 E1 E2.
    rewrite Hsel in E1, E2 by assumption.
    apply (rank_inj treeid nodeid seed N); [assumption..|congruence].
  - intros r Hr.
    destruct (rank_surj treeid nodeid seed N HN r Hr) as (k & Hk & <-).
    exists k. split; [assumption|]. apply Hsel. assumption.
  - intros k sched Hk Hperm. rewrite Hsel by assumption.
    apply select_sched_rank; assumption.
Qed.

Lemma select_is_permutation_witness :
  exists k, 0 <= k < 5 /\ DT.select k 3 7 42 5 2 = Some 4.
Proof.
  apply (proj1 (proj2 (proj2 (proj2
           (select_is_permutation 3 7 42 5 2
              ltac:(lia) ltac:(lia) ltac:(lia)))))).
  lia.
Defined.

(** ** The trainer: scan, compaction and swaps of [partitionSamples] *)

Section Scan_facts.
Import DT.

Lemma count_true_take_le (flags : list bool) (n : nat) :
  (count_true (take n flags) <= count_true flags)%nat.
Proof.
  revert n. induction flags as [|f fs IH]; intros [|n]; simpl; try lia.
  specialize (IH n). lia.
Qed.

Lemma count_true_le_length (flags : list bool) :
  (count_true flags <= length flags)%nat.
Proof. induction flags as [|[] fs IH]; simpl; lia. Qed.

Lemma count_true_take_S (flags : list bool) (n : nat) (f : bool) :
  flags !! n = Some f ->
  count_true (take (S n) flags)
  = (count_true (take n flags) + (if f then 1 else 0))%nat.
Proof.
  revert n. induction flags as [|g fs IH]; intros [|n] H; simpl in *;
    try discriminate.
  - injection H as ->. destruct f; reflexivity.
  - rewrite (IH n H). lia.
Qed.

Lemma count_true_take_mono (flags : list bool) (n m : nat) :
  (n <= m)%nat -> (count_true (take n flags) <= count_true (take m flags))%nat.
Proof.
  intros H. replace (take n flags) with (take n (take m flags)).
  - apply count_true_take_le.
  - rewrite take_take. f_equal. lia.
Qed.

(** The scan gives every thread the number of flags before it. *)
Lemma exclusive_sum_from_spec (flags : list bool) :
  forall acc idxs total,
  exclusive_sum_from acc flags = (idxs, total) ->
  length idxs = length flags /\
  total = (acc + count_true flags)%nat /\
  forall tid, (tid < length flags)%nat ->
    idxs !! tid = Some (acc + count_true (take tid flags))%nat.
Proof.
  induction flags as [|f fs IH]; intros acc idxs total H; simpl in H.
  - injection H as <- <-. simpl. split; [reflexivity|]. split; [lia|].
    intros tid Htid. simpl in Htid. lia.
  - destruct (exclusive_sum_from (if f then S acc else acc) fs)
      as [rest tot] eqn:E.
    injection H as <- <-.
    destruct (IH _ _ _ E) as (Hlen & Htot & Hidx).
    split; [simpl; lia|]. split.
    + rewrite Htot. simpl. destruct f; lia.
    + intros [|tid] Htid; simpl in *.
      * f_equal. lia.
      * rewrite Hidx by lia. f_equal. destruct f; lia.
Qed.

Lemma ExclusiveSum_spec (flags : list bool) (idxs : list nat) (total : nat) :
  ExclusiveSum flags = (idxs, total) ->
  length idxs = length flags /\
  total = count_true flags /\
  forall tid, (tid < length flags)%nat ->
    idxs !! tid = Some (count_true (take tid flags)).
Proof.
  intros H. apply exclusive_sum_from_spec in H as (H1 & H2 & H3).
  split; [assumption|]. split; [lia|]. exact H3.
Qed.

(** Every count below the total is the scan result of a raised flag. *)
Lemma count_true_reached (flags : list bool) :
  forall j, (j < count_true flags)%nat ->
  exists tid, flags !! tid = Some true /\ count_true (take tid flags) = j.
Proof.
  induction flags as [|f fs IH]; intros j Hj; simpl in Hj; [lia|].
  destruct f.
  - destruct j as [|j].
    + exists 0%nat. split; reflexivity.
    + destruct (IH j ltac:(lia)) as (tid & Ht & Hc).
      exists (S tid). split; [exact Ht|]. simpl. lia.
  - destruct (IH j ltac:(lia)) as (tid & Ht & Hc).
    exists (S tid). split; [exact Ht|]. simpl. lia.
Qed.

(** Two raised flags have different scan results. *)
Lemma count_true_take_inj (flags : list bool) (t1 t2 : nat) :
  flags !! t1 = Some true -> flags !! t2 = Some true ->
  count_true (take t1 flags) = count_true (take t2 flags) -> t1 = t2.
Proof.
  intros H1 H2 Heq.
  destruct (Nat.lt_trichotomy t1 t2) as [Hlt|[?|Hlt]]; [|assumption|].
  - pose proof (count_true_take_S flags t1 true H1) as HS. cbv iota in HS.
    pose proof (count_true_take_mono flags (S t1) t2 ltac:(lia)). lia.
  - pose proof (count_true_take_S flags t2 true H2) as HS. cbv iota in HS.
    pose proof (count_true_take_mono flags (S t2) t1 ltac:(lia)). lia.
Qed.

Lemma count_true_take_lt (flags : list bool) (tid : nat) :
  flags !! tid = Some true ->
  (count_true (take tid flags) < count_true flags)%nat.
Proof.
  intros H. pose proof (count_true_take_S flags tid true H) as HS.
  cbv iota in HS.
  pose proof (count_true_take_le flags (S tid)). lia.
Qed.

Lemma compaction_length (flags : list bool) :
  forall offset tid idxs comp,
  length (compaction offset tid flags idxs comp) = length comp.
Proof.
  induction flags as [|f fs IH]; intros offset tid idxs comp; simpl;
    [reflexivity|].
  destruct idxs as [|i idxs]; [reflexivity|].
  rewrite IH. destruct f; [apply length_insert|reflexivity].
Qed.

(** A slot that no raised flag points at keeps its content. *)
Lemma compaction_untouched (flags : list bool) :
  forall offset tid idxs comp j,
  (forall i, flags !! i = Some true -> idxs !! i <> Some j) ->
  compaction offset tid flags idxs comp !! j = comp !! j.
Proof.
  induction flags as [|f fs IH]; intros offset tid idxs comp j H; simpl;
    [reflexivity|].
  destruct idxs as [|i idxs]; [reflexivity|].
  rewrite IH.
  - destruct f; [|reflexivity].
    apply list_lookup_insert_ne.
    intros ->. apply (H 0%nat); reflexivity.
  - intros i' Hi'. apply (H (S i')). exact Hi'.
Qed.

(** The slot a raised flag points at receives the position of its thread. *)
Lemma compaction_written (flags : list bool) :
  forall offset tid idxs comp i j,
  (forall i1 i2 j', flags !! i1 = Some true -> flags !! i2 = Some true ->
     idxs !! i1 = Some j' -> idxs !! i2 = Some j' -> i1 = i2) ->
  flags !! i = Some true -> idxs !! i = Some j -> (j < length comp)%nat ->
  compaction offset tid flags idxs comp !! j = Some (offset + (tid + i))%nat.
Proof.
  induction flags as [|f fs IH]; intros offset tid idxs comp i j Hinj Hf Hi Hj;
    [discriminate|].
  destruct idxs as [|x idxs]; [discriminate|].
  simpl. destruct i as [|i]; simpl in Hf, Hi.
  - injection Hf as ->. injection Hi as ->.
    rewrite compaction_untouched.
    + rewrite list_lookup_insert_eq by assumption. f_equal. lia.
    + intros i' Hi' Hx.
      specialize (Hinj 0%nat (S i') j eq_refl Hi' eq_refl Hx). discriminate.
  - rewrite (IH offset (S tid) idxs _ i j).
    + f_equal. lia.
    + intros i1 i2 j' H1 H2 H3 H4.
      specialize (Hinj (S i1) (S i2) j' H1 H2 H3 H4). lia.
    + exact Hf.
    + exact Hi.
    + destruct f; [rewrite length_insert|]; assumption.
Qed.

(** Scan and compaction together: the first [total] slots of the buffer
    list the positions of the raised flags. *)
Lemma scan_compaction (flags : list bool) (offset : nat) (comp : list nat)
    (idxs : list nat) (total : nat) :
  ExclusiveSum flags = (idxs, total) ->
  (length flags <= length comp)%nat ->
  let comp' := compaction offset 0 flags idxs comp in
  length comp' = length comp /\
  (total <= length flags)%nat /\
  (forall tid, flags !! tid = Some true ->
     exists j, idxs !! tid = Some j /\ (j < total)%nat /\
               comp' !! j = Some (offset + tid)%nat) /\
  (forall j, (j < total)%nat ->
     exists tid, flags !! tid = Some true /\ idxs !! tid = Some j /\
                 comp' !! j = Some (offset + tid)%nat).
Proof.
  intros Hscan Hlen comp'.
  destruct (ExclusiveSum_spec _ _ _ Hscan) as (Hl & Htot & Hidx).
  assert (forall i1 i2 j', flags !! i1 = Some true -> flags !! i2 = Some true ->
            idxs !! i1 = Some j' -> idxs !! i2 = Some j' -> i1 = i2) as Hinj.
  { intros i1 i2 j' H1 H2 H3 H4.
    rewrite Hidx in H3 by (apply lookup_lt_Some in H1; exact H1).
    rewrite Hidx in H4 by (apply lookup_lt_Some in H2; exact H2).
    apply (count_true_take_inj flags); [assumption..|congruence]. }
  assert (forall tid, flags !! tid = Some true ->
            exists j, idxs !! tid = Some j /\ (j < total)%nat /\
                      comp' !! j = Some (offset + tid)%nat) as Hw.
  { intros tid Ht. exists (count_true (take tid flags)).
    pose proof (lookup_lt_Some _ _ _ Ht) as Hlt.
    pose proof (count_true_take_lt flags tid Ht) as Hc.
    pose proof (count_true_le_length flags).
    split; [apply Hidx; assumption|]. split; [lia|].
    unfold comp'.
    rewrite (compaction_written flags offset 0 idxs comp tid
               (count_true (take tid flags)) Hinj Ht (Hidx tid Hlt)) by lia.
    reflexivity. }
  split; [apply compaction_length|].
  split; [rewrite Htot; apply count_true_le_length|].
  split; [exact Hw|].
  intros j Hj. rewrite Htot in Hj.
  destruct (count_true_reached flags j Hj) as (tid & Ht & Hc).
  exists tid. split; [exact Ht|].
  destruct (Hw tid Ht) as (j' & Hj' & _ & Hcomp).
  rewrite Hidx in Hj' by (apply lookup_lt_Some in Ht; exact Ht).
  injection Hj' as <-. rewrite Hc in *.
  split; [|exact Hcomp].
  rewrite Hidx by (apply lookup_lt_Some in Ht; exact Ht). congruence.
Qed.

End Scan_facts.

Section Swap_facts.
Import DT.

Lemma swap_Permutation {A : Type} (l : list A) (i j : nat) (a b : A) :
  (i < j)%nat -> l !! i = Some a -> l !! j = Some b ->
  <[ j := a ]> (<[ i := b ]> l) ≡ₚ l.
Proof.
  intros Hij Hi Hj.
  pose proof (lookup_lt_Some _ _ _ Hi) as Hil.
  pose proof (lookup_lt_Some _ _ _ Hj) as Hjl.
  set (m := drop (S i) l).
  assert (m !! (j - S i)%nat = Some b) as Hm.
  { unfold m. rewrite lookup_drop. rewrite <- Hj. f_equal. lia. }
  pose proof (lookup_lt_Some _ _ _ Hm) as Hml.
  rewrite (insert_take_drop l i b) by assumption. fold m.
  rewrite insert_app_r_alt by (rewrite length_take; lia).
  rewrite length_take, Nat.min_l by lia.
  replace (j - i)%nat with (S (j - S i)) by lia. simpl.
  rewrite (insert_take_drop m (j - S i) a) by assumption.
  transitivity (take i l ++ a :: m).
  - apply Permutation_app; [reflexivity|].
    transitivity (a :: take (j - S i) m ++ b :: drop (S (j - S i)) m).
    + rewrite <- !Permutation_middle. apply perm_swap.
    + rewrite (take_drop_middle m (j - S i) b Hm). reflexivity.
  - unfold m. rewrite (take_drop_middle l i a Hi). reflexivity.
Qed.

Lemma rowid_at_lookup (rows : list Z) (p : nat) (x : Z) :
  rows !! p = Some x -> rowid_at rows p = x.
Proof. unfold rowid_at. intros ->. reflexivity. Qed.

Lemma lookup_rowid_at (rows : list Z) (p : nat) :
  (p < length rows)%nat -> rows !! p = Some (rowid_at rows p).
Proof.
  intros H. unfold rowid_at.
  destruct (lookup_lt_is_Some_2 rows p H) as [x ->]. reflexivity.
Qed.

Lemma swap_one_spec (lcomp rcomp : list nat) (rows : list Z)
    (tid pl pr : nat) :
  lcomp !! tid = Some pl -> rcomp !! tid = Some pr ->
  (pl < pr)%nat -> (pr < length rows)%nat ->
  let rows' := swap_one lcomp rcomp rows tid in
  length rows' = length rows /\ rows' ≡ₚ rows /\
  rows' !! pl = rows !! pr /\ rows' !! pr = rows !! pl /\
  forall p, p <> pl -> p <> pr -> rows' !! p = rows !! p.
Proof.
  intros Hl Hr Hlt Hlen rows'. unfold rows', swap_one.
  rewrite Hl, Hr. simpl.
  rewrite (lookup_rowid_at rows pl) by lia.
  rewrite (lookup_rowid_at rows pr) by lia.
  split; [rewrite !length_insert; reflexivity|].
  split.
  { apply swap_Permutation; [assumption|apply lookup_rowid_at; lia..]. }
  split.
  { rewrite list_lookup_insert_ne by lia.
    rewrite list_lookup_insert_eq by lia. reflexivity. }
  split.
  { rewrite list_lookup_insert_eq by (rewrite length_insert; lia).
    reflexivity. }
  intros p Hp1 Hp2.
  rewrite !list_lookup_insert_ne by lia. reflexivity.
Qed.

(** The swaps of a block: the pairs below [minlen] are exchanged, every
    other entry stays. *)
Lemma swap_misfits_spec (TPB minlen : nat) (lcomp rcomp : list nat)
    (rows : list Z) (bound : nat) :
  (minlen <= TPB)%nat ->
  (forall j, (j < minlen)%nat ->
     exists pl pr, lcomp !! j = Some pl /\ rcomp !! j = Some pr /\
                   (pl < bound)%nat /\ (bound <= pr < length rows)%nat) ->
  (forall j1 j2 p, (j1 < minlen)%nat -> (j2 < minlen)%nat ->
     lcomp !! j1 = Some p -> lcomp !! j2 = Some p -> j1 = j2) ->
  (forall j1 j2 p, (j1 < minlen)%nat -> (j2 < minlen)%nat ->
     rcomp !! j1 = Some p -> rcomp !! j2 = Some p -> j1 = j2) ->
  let rows' := swap_misfits TPB minlen lcomp rcomp rows in
  length rows' = length rows /\ rows' ≡ₚ rows /\
  (forall j pl pr, (j < minlen)%nat ->
     lcomp !! j = Some pl -> rcomp !! j = Some pr ->
     rows' !! pl = rows !! pr /\ rows' !! pr = rows !! pl) /\
  (forall p,
     (forall j, (j < minlen)%nat ->
        lcomp !! j <> Some p /\ rcomp !! j <> Some p) ->
     rows' !! p = rows !! p).
Proof.
  intros Hmin Hpairs Hlinj Hrinj. unfold swap_misfits.
  assert (forall n, (n <= TPB)%nat ->
    let r := foldl (fun r tid => if (tid <? minlen)%nat
                                 then swap_one lcomp rcomp r tid else r)
                   rows (seq 0 n) in
    length r = length rows /\ r ≡ₚ rows /\
    (forall j pl pr, (j < minlen)%nat -> (j < n)%nat ->
       lcomp !! j = Some pl -> rcomp !! j = Some pr ->
       r !! pl = rows !! pr /\ r !! pr = rows !! pl) /\
    (forall p,
       (forall j, (j < minlen)%nat -> (j < n)%nat ->
          lcomp !! j <> Some p /\ rcomp !! j <> Some p) ->
       r !! p = rows !! p)) as Hind.
  { induction n as [|n IH]; intros Hn r.
    - unfold r. simpl. split; [reflexivity|]. split; [reflexivity|].
      split; [intros; lia|]. intros; reflexivity.
    - unfold r. rewrite seq_S, foldl_app. simpl.
      destruct (IH ltac:(lia)) as (Hlen & Hperm & Hsw & Hst).
      set (r0 := foldl (fun r tid => if (tid <? minlen)%nat
                                     then swap_one lcomp rcomp r tid else r)
                       rows (seq 0 n)) in *.
      destruct (Nat.ltb_spec n minlen) as [Hlt|Hge].
      + destruct (Hpairs n Hlt) as (pl & pr & Hpl & Hpr & Hb1 & Hb2).
        destruct (swap_one_spec lcomp rcomp r0 n pl pr Hpl Hpr ltac:(lia)
                    ltac:(lia)) as (Hlen' & Hperm' & Hs1 & Hs2 & Hs3).
        assert (r0 !! pl = rows !! pl) as Hpl0.
        { apply Hst. intros j Hj Hjn. split.
          - intros E. specialize (Hlinj j n pl Hj Hlt E Hpl). lia.
          - intros E. destruct (Hpairs j Hj) as (? & pr' & _ & E' & _ & ?).
            rewrite E in E'. injection E' as <-. lia. }
        assert (r0 !! pr = rows !! pr) as Hpr0.
        { apply Hst. intros j Hj Hjn. split.
          - intros E. destruct (Hpairs j Hj) as (pl' & ? & E' & _ & ? & _).
            rewrite E in E'. injection E' as <-. lia.
          - intros E. specialize (Hrinj j n pr Hj Hlt E Hpr). lia. }
        split; [lia|]. split; [rewrite Hperm'; exact Hperm|]. split.
        * intros j pl' pr' Hj Hjn Hl' Hr'.
          destruct (Nat.eq_dec j n) as [->|Hne].
          -- rewrite Hpl in Hl'. rewrite Hpr in Hr'.
             injection Hl' as <-. injection Hr' as <-.
             rewrite Hs1, Hs2. split; assumption.
          -- destruct (Hpairs j Hj) as (pl'' & pr'' & E1 & E2 & ? & ?).
             rewrite Hl' in E1. rewrite Hr' in E2.
             injection E1 as <-. injection E2 as <-.
             assert (pl' <> pl).
             { intros ->. specialize (Hlinj j n pl Hj Hlt Hl' Hpl). lia. }
             assert (pr' <> pr).
             { intros ->. specialize (Hrinj j n pr Hj Hlt Hr' Hpr). lia. }
             rewrite !Hs3 by lia.
             apply (Hsw j); [assumption|lia|assumption..].
        * intros p Hp.
          destruct (Hp n Hlt ltac:(lia)) as [Hp1 Hp2].
          rewrite Hs3 by congruence.
          apply Hst. intros j Hj Hjn. apply Hp; lia.
      + split; [assumption|]. split; [assumption|]. split.
        * intros j pl pr Hj Hjn. apply Hsw; [assumption|lia].
        * intros p Hp. apply Hst. intros j Hj Hjn. apply Hp; lia. }
  destruct (Hind TPB ltac:(lia)) as (H1 & H2 & H3 & H4).
  cbv zeta.
  split; [assumption|]. split; [assumption|]. split.
  - intros j pl pr Hj. apply H3; [assumption|lia].
  - intros p Hp. apply H4. intros j Hj _. apply Hp. assumption.
Qed.

End Swap_facts.

Section Side_facts.
Import DT.
Variable TPB : nat.
Variable in_range : nat -> bool.
Variable test : Z -> bool.

Abbreviation flags_of := (side_flags TPB in_range test).

Lemma side_flags_length rows o : length (flags_of rows o) = TPB.
Proof. unfold side_flags. rewrite length_map, length_seq. reflexivity. Qed.

Lemma side_flags_lookup rows o tid :
  (tid < TPB)%nat ->
  flags_of rows o !! tid
  = Some (if in_range (o + tid)%nat then test (rowid_at rows (o + tid)%nat)
          else false).
Proof.
  intros H. unfold side_flags.
  rewrite list_lookup_fmap, lookup_seq_lt by assumption. reflexivity.
Qed.

Lemma side_flags_true rows o tid :
  flags_of rows o !! tid = Some true ->
  (tid < TPB)%nat /\ in_range (o + tid)%nat = true /\
  test (rowid_at rows (o + tid)%nat) = true.
Proof.
  intros H. pose proof (lookup_lt_Some _ _ _ H) as Hlt.
  rewrite side_flags_length in Hlt.
  rewrite side_flags_lookup in H by assumption.
  split; [assumption|].
  destruct (in_range (o + tid)%nat); [|discriminate].
  split; [reflexivity|]. congruence.
Qed.

(** One half of the range after the swaps of an iteration: the flags kept
    for the next iteration describe the new array, and when every flagged
    position took part in a swap no entry of the window passes [test] any
    more. *)
Lemma side_after_swap (rows rows' : list Z) (o : nat) (comp idxs : list nat)
    (total minlen : nat) :
  ExclusiveSum (flags_of rows o) = (idxs, total) ->
  (TPB <= length comp)%nat -> (minlen <= total)%nat ->
  let comp' := compaction o 0 (flags_of rows o) idxs comp in
  (forall j p, (j < minlen)%nat -> comp' !! j = Some p ->
     test (rowid_at rows' p) = false) ->
  (forall tid, (tid < TPB)%nat -> in_range (o + tid)%nat = true ->
     (forall j, (j < minlen)%nat -> comp' !! j <> Some (o + tid)%nat) ->
     rowid_at rows' (o + tid)%nat = rowid_at rows (o + tid)%nat) ->
  reset_flags minlen (flags_of rows o) idxs = flags_of rows' o /\
  (total = minlen -> forall tid, (tid < TPB)%nat ->
     in_range (o + tid)%nat = true ->
     test (rowid_at rows' (o + tid)%nat) = false).
Proof.
  intros Hscan Hcomp Hmin comp' Hin Hout.
  destruct (scan_compaction (flags_of rows o) o comp idxs total Hscan
              ltac:(rewrite side_flags_length; exact Hcomp))
    as (Hclen & Htot & Hw & Hs).
  fold comp' in Hclen, Hw, Hs.
  destruct (ExclusiveSum_spec _ _ _ Hscan) as (Hilen & _ & Hidx).
  rewrite side_flags_length in Hilen, Hidx.
  assert (forall tid, (tid < TPB)%nat -> in_range (o + tid)%nat = true ->
          exists i, idxs !! tid = Some i /\
            (test (rowid_at rows (o + tid)%nat) = true -> (i < total)%nat) /\
            test (rowid_at rows' (o + tid)%nat)
            = (if (i <? minlen)%nat then false
               else test (rowid_at rows (o + tid)%nat))) as Hkey.
  { intros tid Htid Hr.
    exists (count_true (take tid (flags_of rows o))).
    split; [apply Hidx; assumption|].
    pose proof (side_flags_lookup rows o tid Htid) as Hf. rewrite Hr in Hf.
    destruct (test (rowid_at rows (o + tid)%nat)) eqn:Ht.
    - destruct (Hw tid Hf) as (j & Hj & Hjt & Hcj).
      rewrite Hidx in Hj by assumption. injection Hj as Hj. rewrite Hj.
      split; [intros _; assumption|].
      destruct (Nat.ltb_spec j minlen) as [Hlt|Hge].
      + apply (Hin j); assumption.
      + rewrite Hout; [assumption|assumption|assumption|].
        intros j' Hj' E.
        destruct (Hs j' ltac:(lia)) as (tid' & Hf' & Hi' & Hc').
        rewrite E in Hc'. injection Hc' as Hc'.
        assert (tid' = tid) as -> by lia.
        rewrite Hidx in Hi' by assumption. injection Hi' as Hi'. lia.
    - split; [discriminate|].
      assert (rowid_at rows' (o + tid)%nat = rowid_at rows (o + tid)%nat)
        as ->.
      { apply Hout; [assumption|assumption|]. intros j' Hj' E.
        destruct (Hs j' ltac:(lia)) as (tid' & Hf' & Hi' & Hc').
        rewrite E in Hc'. injection Hc' as Hc'.
        assert (tid' = tid) as -> by lia. congruence. }
      rewrite Ht. destruct (_ <? _)%nat; reflexivity. }
  split.
  - apply list_eq. intros tid. unfold reset_flags.
    rewrite lookup_zip_with.
    destruct (Nat.lt_ge_cases tid TPB) as [Htid|Htid].
    + rewrite !side_flags_lookup by assumption.
      rewrite Hidx by assumption. simpl.
      destruct (in_range (o + tid)%nat) eqn:Hr.
      * destruct (Hkey tid Htid Hr) as (i & Hi & _ & ->).
        rewrite Hidx in Hi by assumption. injection Hi as <-. reflexivity.
      * destruct (_ <? _)%nat; reflexivity.
    + rewrite (lookup_ge_None_2 (flags_of rows o))
        by (rewrite side_flags_length; assumption).
      rewrite (lookup_ge_None_2 (flags_of rows' o))
        by (rewrite side_flags_length; assumption).
      reflexivity.
  - intros Heq tid Htid Hr.
    destruct (Hkey tid Htid Hr) as (i & Hi & Hlt & ->).
    destruct (Nat.ltb_spec i minlen) as [|Hge]; [reflexivity|].
    destruct (test (rowid_at rows (o + tid)%nat)); [|reflexivity].
    specialize (Hlt eq_refl). lia.
Qed.

End Side_facts.

(** ** The trainer: [partitionSamples] *)

Section Partition_facts.
Import DT.
Variables (TPB : nat) (input : Input) (split : Split) (wi : NodeWorkItem).
Hypothesis HTPB : (0 < TPB)%nat.
Hypothesis Hpart : (part split wi <= range_end wi)%nat.
Hypothesis Hend : (range_end wi <= length (rowids input))%nat.

Abbreviation in_left := (fun p : nat => (p <? part split wi)%nat).
Abbreviation in_range := (fun p : nat => (p <? range_end wi)%nat).
Abbreviation gtq := (is_greater input split).
Abbreviation leq := (goes_left input split).
Abbreviation lflags := (side_flags TPB in_left gtq).
Abbreviation rflags := (side_flags TPB in_range leq).
Abbreviation Inv := (part_inv TPB input split wi).

Lemma leq_true_gtq_false r : leq r = true -> gtq r = false.
Proof.
  unfold goes_left, is_greater. intros H.
  apply le_true_key in H as (Ha & Hb & Hk).
  unfold F32.gt, F32.ordered. rewrite Ha, Hb. simpl.
  apply Z.ltb_ge. exact Hk.
Qed.

Lemma gtq_true_leq_false r : gtq r = true -> leq r = false.
Proof.
  intros H. destruct (leq r) eqn:E; [|reflexivity].
  apply leq_true_gtq_false in E. congruence.
Qed.

Lemma part_step_unfold (st : PartState) :
  part_step TPB input split wi st
  = part_step_from TPB
      (if (ps_llen st =? ps_minlen st)%nat
       then lflags (ps_rowids st) (ps_loffset st) else ps_lflag st)
      (if (ps_rlen st =? ps_minlen st)%nat
       then rflags (ps_rowids st) (ps_roffset st) else ps_rflag st)
      st.
Proof. reflexivity. Qed.

Lemma rowid_at_ext (r1 r2 : list Z) (p q : nat) :
  r1 !! p = r2 !! q -> rowid_at r1 p = rowid_at r2 q.
Proof. unfold rowid_at. intros ->. reflexivity. Qed.

(** One iteration keeps the invariant and moves a cursor forward. *)
Lemma part_step_inv (st : PartState) :
  Inv st ->
  (ps_loffset st < part split wi)%nat ->
  (ps_roffset st < range_end wi)%nat ->
  let st' := part_step TPB input split wi st in
  Inv st' /\
  (ps_loffset st <= ps_loffset st')%nat /\
  (ps_roffset st <= ps_roffset st')%nat /\
  (ps_loffset st' = ps_loffset st + TPB \/
   ps_roffset st' = ps_roffset st + TPB)%nat.
Proof.
  intros [Ilen Iperm Iframe Ilo Iro IcL IcR Ilc Irc Ilf Irf] Hlo Hro.
  cbv zeta. rewrite part_step_unfold.
  assert ((if (ps_llen st =? ps_minlen st)%nat
           then lflags (ps_rowids st) (ps_loffset st) else ps_lflag st)
          = lflags (ps_rowids st) (ps_loffset st)) as ->.
  { destruct (Nat.eqb_spec (ps_llen st) (ps_minlen st));
      [reflexivity|apply Ilf; assumption]. }
  assert ((if (ps_rlen st =? ps_minlen st)%nat
           then rflags (ps_rowids st) (ps_roffset st) else ps_rflag st)
          = rflags (ps_rowids st) (ps_roffset st)) as ->.
  { destruct (Nat.eqb_spec (ps_rlen st) (ps_minlen st));
      [reflexivity|apply Irf; assumption]. }
  clear Ilf Irf.
  set (rows := ps_rowids st) in *.
  set (lo := ps_loffset st) in *.
  set (ro := ps_roffset st) in *.
  unfold part_step_from. fold rows lo ro.
  destruct (ExclusiveSum (lflags rows lo)) as [lidx llen] eqn:EL.
  destruct (ExclusiveSum (rflags rows ro)) as [ridx rlen] eqn:ER.
  set (minlen := if (llen <? rlen)%nat then llen else rlen).
  set (lcomp := compaction lo 0 (lflags rows lo) lidx (ps_lcomp st)).
  set (rcomp := compaction ro 0 (rflags rows ro) ridx (ps_rcomp st)).
  set (rows' := swap_misfits TPB minlen lcomp rcomp rows).
  assert (minlen <= llen /\ minlen <= rlen /\
          (llen = minlen \/ rlen = minlen))%nat as (Hml & Hmr & Hmin).
  { unfold minlen. destruct (Nat.ltb_spec llen rlen); lia. }
  destruct (scan_compaction (lflags rows lo) lo (ps_lcomp st) lidx llen EL
              ltac:(rewrite side_flags_length; lia))
    as (HlenL & HtotL & _ & HsL).
  destruct (scan_compaction (rflags rows ro) ro (ps_rcomp st) ridx rlen ER
              ltac:(rewrite side_flags_length; lia))
    as (HlenR & HtotR & _ & HsR).
  fold lcomp in HlenL, HsL. fold rcomp in HlenR, HsR.
  rewrite side_flags_length in HtotL, HtotR.
  (* the slots of the two buffers below the totals *)
  assert (forall j, (j < llen)%nat ->
          exists tid, (tid < TPB)%nat /\ lcomp !! j = Some (lo + tid)%nat /\
                      (lo + tid < part split wi)%nat /\
                      gtq (rowid_at rows (lo + tid)%nat) = true /\
                      lidx !! tid = Some j) as HPL.
  { intros j Hj. destruct (HsL j Hj) as (tid & Hf & Hi & Hc).
    apply side_flags_true in Hf as (Ht & Hr & Hg).
    apply Nat.ltb_lt in Hr. exists tid. auto. }
  assert (forall j, (j < rlen)%nat ->
          exists tid, (tid < TPB)%nat /\ rcomp !! j = Some (ro + tid)%nat /\
                      (ro + tid < range_end wi)%nat /\
                      leq (rowid_at rows (ro + tid)%nat) = true /\
                      ridx !! tid = Some j) as HPR.
  { intros j Hj. destruct (HsR j Hj) as (tid & Hf & Hi & Hc).
    apply side_flags_true in Hf as (Ht & Hr & Hg).
    apply Nat.ltb_lt in Hr. exists tid. auto. }
  destruct (swap_misfits_spec TPB minlen lcomp rcomp rows (part split wi))
    as (Hlen' & Hperm' & Hsw & Hst).
  { lia. }
  { intros j Hj.
    destruct (HPL j ltac:(lia)) as (t1 & _ & H1 & ? & _).
    destruct (HPR j ltac:(lia)) as (t2 & _ & H2 & ? & _).
    exists (lo + t1)%nat, (ro + t2)%nat.
    split; [assumption|]. split; [assumption|]. lia. }
  { intros j1 j2 p Hj1 Hj2 E1 E2.
    destruct (HPL j1 ltac:(lia)) as (t1 & _ & H1 & _ & _ & Hi1).
    destruct (HPL j2 ltac:(lia)) as (t2 & _ & H2 & _ & _ & Hi2).
    rewrite E1 in H1. rewrite E2 in H2.
    injection H1 as H1. injection H2 as H2.
    assert (t1 = t2) as -> by lia. congruence. }
  { intros j1 j2 p Hj1 Hj2 E1 E2.
    destruct (HPR j1 ltac:(lia)) as (t1 & _ & H1 & _ & _ & Hi1).
    destruct (HPR j2 ltac:(lia)) as (t2 & _ & H2 & _ & _ & Hi2).
    rewrite E1 in H1. rewrite E2 in H2.
    injection H1 as H1. injection H2 as H2.
    assert (t1 = t2) as -> by lia. congruence. }
  fold rows' in Hlen', Hperm', Hsw, Hst.
  (* entries the swaps leave alone *)
  assert (forall p, (p < lo \/ (part split wi <= p < ro) \/
                     range_end wi <= p)%nat ->
          rows' !! p = rows !! p) as Hfar.
  { intros p Hp. apply Hst. intros j Hj.
    destruct (HPL j ltac:(lia)) as (t1 & _ & H1 & ? & _).
    destruct (HPR j ltac:(lia)) as (t2 & _ & H2 & ? & _).
    rewrite H1, H2. split; intros [=]; lia. }
  destruct (side_after_swap TPB in_left gtq rows rows' lo (ps_lcomp st) lidx
              llen minlen EL ltac:(lia) Hml) as (HresetL & HdoneL).
  { fold lcomp. intros j p Hj Hc.
    destruct (HPR j ltac:(lia)) as (t2 & _ & H2 & _ & Hleq & _).
    destruct (Hsw j p (ro + t2)%nat Hj Hc H2) as [E _].
    rewrite (rowid_at_ext _ _ _ _ E).
    apply leq_true_gtq_false. exact Hleq. }
  { fold lcomp. intros tid Htid Hr Hnot.
    apply Nat.ltb_lt in Hr.
    apply rowid_at_ext, Hst. intros j Hj. split; [apply Hnot; assumption|].
    destruct (HPR j ltac:(lia)) as (t2 & _ & H2 & _).
    rewrite H2. intros [=]. lia. }
  destruct (side_after_swap TPB in_range leq rows rows' ro (ps_rcomp st) ridx
              rlen minlen ER ltac:(lia) Hmr) as (HresetR & HdoneR).
  { fold rcomp. intros j p Hj Hc.
    destruct (HPL j ltac:(lia)) as (t1 & _ & H1 & _ & Hgt & _).
    destruct (Hsw j (lo + t1)%nat p Hj H1 Hc) as [_ E].
    rewrite (rowid_at_ext _ _ _ _ E).
    apply gtq_true_leq_false. exact Hgt. }
  { fold rcomp. intros tid Htid Hr Hnot.
    apply rowid_at_ext, Hst. intros j Hj. split; [|apply Hnot; assumption].
    destruct (HPL j ltac:(lia)) as (t1 & _ & H1 & ? & _).
    rewrite H1. intros [=]. lia. }
  split; [|simpl; destruct (Nat.eqb_spec llen minlen),
                    (Nat.eqb_spec rlen minlen); lia].
  constructor; simpl.
  - lia.
  - rewrite Hperm'. exact Iperm.
  - intros p Hp. rewrite Hfar by lia. apply Iframe. exact Hp.
  - destruct (llen =? minlen)%nat; lia.
  - destruct (rlen =? minlen)%nat; lia.
  - intros p Hp Hpp.
    destruct (Nat.lt_ge_cases p lo) as [Hlt|Hge].
    + rewrite (rowid_at_ext rows' rows p p) by (apply Hfar; lia).
      apply IcL; lia.
    + destruct (Nat.eqb_spec llen minlen) as [Heq|Hne]; [|lia].
      replace p with (lo + (p - lo))%nat by lia.
      apply HdoneL; [assumption|lia|].
      apply Nat.ltb_lt. lia.
  - intros p Hp Hpp.
    destruct (Nat.lt_ge_cases p ro) as [Hlt|Hge].
    + rewrite (rowid_at_ext rows' rows p p) by (apply Hfar; lia).
      apply IcR; lia.
    + destruct (Nat.eqb_spec rlen minlen) as [Heq|Hne]; [|lia].
      replace p with (ro + (p - ro))%nat by lia.
      apply HdoneR; [assumption|lia|].
      apply Nat.ltb_lt. lia.
  - lia.
  - lia.
  - intros Hne. destruct (Nat.eqb_spec llen minlen); [contradiction|].
    exact HresetL.
  - intros Hne. destruct (Nat.eqb_spec rlen minlen); [contradiction|].
    exact HresetR.
Qed.

End Partition_facts.

Section Slice_facts.
Context {A : Type}.
Implicit Types l : list A.

Lemma slice_lookup l (s n i : nat) :
  (i < n)%nat -> slice l s n !! i = l !! (s + i)%nat.
Proof.
  intros H. unfold slice. rewrite lookup_take_lt by assumption.
  apply lookup_drop.
Qed.

Lemma slice_length l (s n : nat) :
  (s + n <= length l)%nat -> length (slice l s n) = n.
Proof.
  intros H. unfold slice. rewrite length_take, length_drop. lia.
Qed.

Lemma slice_app l (s n m : nat) :
  slice l s (n + m) = slice l s n ++ slice l (s + n) m.
Proof.
  unfold slice. rewrite <- take_take_drop, drop_drop. reflexivity.
Qed.

Lemma list_split_slice l (s n : nat) :
  l = take s l ++ slice l s n ++ drop (s + n) l.
Proof.
  unfold slice. rewrite <- drop_drop.
  rewrite (take_drop n (drop s l)), take_drop. reflexivity.
Qed.

Lemma slice_Permutation l1 l2 (s n : nat) :
  length l1 = length l2 ->
  (forall p, (p < s \/ s + n <= p)%nat -> l1 !! p = l2 !! p) ->
  l1 ≡ₚ l2 -> slice l1 s n ≡ₚ slice l2 s n.
Proof.
  intros Hlen Hout Hperm.
  assert (take s l1 = take s l2) as Ht.
  { apply list_eq. intros i.
    destruct (Nat.lt_ge_cases i s).
    - rewrite !lookup_take_lt by assumption. apply Hout. lia.
    - rewrite !lookup_take_ge by assumption. reflexivity. }
  assert (drop (s + n) l1 = drop (s + n) l2) as Hd.
  { apply list_eq. intros i. rewrite !lookup_drop. apply Hout. lia. }
  rewrite (list_split_slice l1 s n), (list_split_slice l2 s n) in Hperm.
  rewrite Ht, Hd in Hperm.
  apply (inj (app (take s l2))) in Hperm.
  apply (inj (fun k => k ++ drop (s + n) l2)) in Hperm.
  exact Hperm.
Qed.

Lemma filter_all_length (P : A -> Prop) `{!forall x, Decision (P x)} l :
  length (filter P l) = length l -> Forall P l.
Proof.
  induction l as [|x l IH]; intros Hlen; [constructor|].
  rewrite filter_cons in Hlen.
  pose proof (length_filter P l).
  destruct (decide (P x)); simpl in Hlen; [|lia].
  constructor; [assumption|]. apply IH. lia.
Qed.

Lemma filter_none_length (P : A -> Prop) `{!forall x, Decision (P x)} l :
  length (filter P l) = 0%nat -> Forall (fun x => ~ P x) l.
Proof.
  induction l as [|x l IH]; intros Hlen; [constructor|].
  rewrite filter_cons in Hlen.
  destruct (decide (P x)); simpl in Hlen; [lia|].
  constructor; [assumption|]. apply IH. exact Hlen.
Qed.

Lemma filter_Forall_length (P : A -> Prop) `{!forall x, Decision (P x)} l :
  Forall P l -> length (filter P l) = length l.
Proof.
  induction 1 as [|x l Hx _ IH]; [reflexivity|].
  rewrite filter_cons. destruct (decide (P x)); [|contradiction].
  simpl. rewrite IH. reflexivity.
Qed.

Lemma filter_Forall_not_length (P : A -> Prop) `{!forall x, Decision (P x)} l :
  Forall (fun x => ~ P x) l -> length (filter P l) = 0%nat.
Proof.
  induction 1 as [|x l Hx _ IH]; [reflexivity|].
  rewrite filter_cons. destruct (decide (P x)); [contradiction|].
  exact IH.
Qed.

End Slice_facts.

Section Partition_loop.
Import DT.
Variables (TPB : nat) (input : Input) (split : Split) (wi : NodeWorkItem).
Hypothesis HTPB : (0 < TPB)%nat.
Hypothesis Hpart : (part split wi <= range_end wi)%nat.
Hypothesis Hend : (range_end wi <= length (rowids input))%nat.

Lemma part_loop_0 (st : PartState) :
  part_loop TPB input split wi 0 st
  = if (ps_loffset st <? part split wi)%nat
       && (ps_roffset st <? range_end wi)%nat
    then None else Some st.
Proof. reflexivity. Qed.

Lemma part_loop_S (fuel : nat) (st : PartState) :
  part_loop TPB input split wi (S fuel) st
  = if (ps_loffset st <? part split wi)%nat
       && (ps_roffset st <? range_end wi)%nat
    then part_loop TPB input split wi fuel (part_step TPB input split wi st)
    else Some st.
Proof. reflexivity. Qed.

(** With fuel for every position still ahead of the two cursors, the loop
    runs until its condition fails, and the invariant holds then. *)
Lemma part_loop_inv (fuel : nat) :
  forall st,
  part_inv TPB input split wi st ->
  ((part split wi - ps_loffset st) + (range_end wi - ps_roffset st)
   < fuel)%nat ->
  exists st',
    part_loop TPB input split wi fuel st = Some st' /\
    part_inv TPB input split wi st' /\
    ((part split wi <= ps_loffset st') \/
     (range_end wi <= ps_roffset st'))%nat.
Proof.
  induction fuel as [|fuel IH]; intros st Hinv Hfuel; [lia|].
  rewrite part_loop_S.
  destruct (Nat.ltb_spec (ps_loffset st) (part split wi)) as [Hlo|Hlo];
    [|exists st; simpl; auto].
  destruct (Nat.ltb_spec (ps_roffset st) (range_end wi)) as [Hro|Hro];
    [|exists st; simpl; auto].
  simpl.
  destruct (part_step_inv TPB input split wi HTPB Hpart Hend st Hinv Hlo Hro)
    as (Hinv' & Hl & Hr & Hprog).
  apply IH; [exact Hinv'|]. lia.
Qed.

Lemma part_init_inv (lcomp0 rcomp0 : list nat) :
  length lcomp0 = TPB -> length rcomp0 = TPB ->
  part_inv TPB input split wi (part_init TPB input split wi lcomp0 rcomp0).
Proof.
  intros Hl Hr. constructor; simpl; try reflexivity; try assumption;
    try (unfold part, range_start; lia); try (intros; lia);
    intros H; contradiction.
Qed.

End Partition_loop.

(** C4, as amended.  Let the range of a work item lie inside the row-id
    array, let [nLeft] be the number of rows of the range whose value in the
    split column is [<=] the threshold, and let neither the threshold nor any
    of these values be a NaN.  Then [partitionSamples] terminates; it leaves
    the array unchanged outside the range; the range holds the same row ids
    as before, as a multiset; the rows assigned to the left fill the first
    [nLeft] positions of the range and the rows assigned to the right the
    rest. *)
Theorem partitionSamples_partitions (TPB : nat) (input : DT.Input)
    (split : DT.Split) (wi : DT.NodeWorkItem) (lcomp0 rcomp0 : list nat) :
  (0 < TPB)%nat -> length lcomp0 = TPB -> length rcomp0 = TPB ->
  (DT.range_end wi <= length (DT.rowids input))%nat ->
  let range := slice (DT.rowids input) (DT.range_start wi) (DT.range_len wi) in
  DT.nLeft split
  = Z.of_nat (length (filter (fun r => goes_left input split r = true) range)) ->
  F32.isnan (DT.quesval split) = false ->
  Forall (fun r => F32.isnan (DT.col_at input split r) = false) range ->
  exists rows',
    DT.partitionSamples TPB input split wi lcomp0 rcomp0 = Some rows' /\
    length rows' = length (DT.rowids input) /\
    (forall p, (p < DT.range_start wi \/ DT.range_end wi <= p)%nat ->
       rows' !! p = DT.rowids input !! p) /\
    slice rows' (DT.range_start wi) (DT.range_len wi) ≡ₚ range /\
    (forall p, (DT.range_start wi <= p < DT.part split wi)%nat ->
       goes_left input split (DT.rowid_at rows' p) = true) /\
    (forall p, (DT.part split wi <= p < DT.range_end wi)%nat ->
       goes_left input split (DT.rowid_at rows' p) = false).
Proof.
  intros HTPB Hl Hr Hend range HnLeft Hq Hnan.
  set (s := DT.range_start wi) in *.
  set (n := DT.range_len wi) in *.
  assert (DT.range_end wi = s + n)%nat as Hre by reflexivity.
  set (nL := length (filter (fun r => goes_left input split r = true) range))
    in *.
  assert (length range = n) as Hrl by (apply slice_length; lia).
  assert (nL <= n)%nat as HnL.
  { unfold nL. rewrite <- Hrl. apply length_filter. }
  assert (DT.part split wi = s + nL)%nat as Hp.
  { unfold DT.part. fold s. rewrite HnLeft. lia. }
  assert (DT.part split wi <= DT.range_end wi)%nat as Hpart by lia.
  destruct (part_loop_inv TPB input split wi HTPB Hpart Hend (S n)
              (DT.part_init TPB input split wi lcomp0 rcomp0)
              (part_init_inv TPB input split wi HTPB Hpart Hend
                 lcomp0 rcomp0 Hl Hr))
    as (st' & Hloop & [Ilen Iperm Iframe Ilo Iro IcL IcR _ _ _ _] & Hexit).
  { simpl. fold s. lia. }
  exists (DT.ps_rowids st').
  unfold DT.partitionSamples. fold n. rewrite Hloop. simpl.
  set (rows' := DT.ps_rowids st') in *.
  assert (slice rows' s n ≡ₚ range) as Hsp.
  { apply slice_Permutation; [assumption| |assumption].
    intros p Hpp. apply Iframe. fold s. lia. }
  split; [reflexivity|]. split; [assumption|].
  split; [exact Iframe|]. split; [exact Hsp|].
  (* the rows of the range, split at [part] *)
  assert (Forall (fun r => is_greater input split r
                           = negb (goes_left input split r))
            (slice rows' s n)) as Hcompl.
  { rewrite Hsp. eapply Forall_impl; [exact Hnan|].
    intros r Hr0. cbv beta in Hr0.
    apply gt_not_le; assumption. }
  assert (length (filter (fun r => goes_left input split r = true)
                    (slice rows' s n)) = nL) as Hcount.
  { unfold nL. rewrite Hsp. reflexivity. }
  replace n with (nL + (n - nL))%nat in Hcount, Hcompl by lia.
  rewrite slice_app in Hcount, Hcompl.
  rewrite filter_app, length_app in Hcount.
  apply Forall_app in Hcompl as [HcA HcB].
  assert (length (slice rows' s nL) = nL) as HlenA
    by (apply slice_length; lia).
  assert (forall (P : Z -> Prop) a m, (a + m <= length rows')%nat ->
            Forall P (slice rows' a m) ->
            forall p, (a <= p < a + m)%nat -> P (DT.rowid_at rows' p)) as Hat.
  { intros P a m Ham HF p Hpp.
    rewrite Forall_lookup in HF. apply (HF (p - a)%nat).
    rewrite slice_lookup by lia.
    replace (a + (p - a))%nat with p by lia.
    apply lookup_rowid_at. lia. }
  assert (forall (P : Z -> Prop) a m, (a + m <= length rows')%nat ->
            (forall p, (a <= p < a + m)%nat -> P (DT.rowid_at rows' p)) ->
            Forall P (slice rows' a m)) as Hto.
  { intros P a m Ham HP. apply Forall_lookup. intros i x Hi.
    assert (i < m)%nat as Him.
    { apply lookup_lt_Some in Hi. rewrite slice_length in Hi; lia. }
    rewrite slice_lookup in Hi by assumption.
    rewrite <- (rowid_at_lookup _ _ _ Hi). apply HP. lia. }
  assert (Forall (fun r => goes_left input split r = true)
            (slice rows' s nL) /\
          Forall (fun r => ~ goes_left input split r = true)
            (slice rows' (s + nL) (n - nL))) as [HA HB].
  { destruct Hexit as [Hx|Hx].
    - (* the left cursor passed [part]: the left half is clean *)
      assert (Forall (fun r => goes_left input split r = true)
                (slice rows' s nL)) as HA.
      { apply Hto; [lia|]. intros p Hpp.
        pose proof (Hat _ s nL ltac:(lia) HcA p Hpp) as Hc.
        cbv beta in Hc. rewrite IcL in Hc by (fold s; lia).
        destruct (goes_left input split (DT.rowid_at rows' p));
          [reflexivity|discriminate]. }
      split; [exact HA|].
      apply (filter_none_length (fun r => goes_left input split r = true)).
      rewrite (filter_Forall_length _ _ HA) in Hcount. lia.
    - (* the right cursor passed the end: the right half is clean *)
      assert (Forall (fun r => ~ goes_left input split r = true)
                (slice rows' (s + nL) (n - nL))) as HB.
      { apply Hto; [lia|]. intros p Hpp.
        rewrite IcR by (fold s; lia). discriminate. }
      split; [|exact HB].
      apply (filter_all_length (fun r => goes_left input split r = true)).
      rewrite (filter_Forall_not_length _ _ HB) in Hcount. lia. }
  split.
  - intros p Hpp. apply (Hat _ s nL ltac:(lia) HA). lia.
  - intros p Hpp.
    pose proof (Hat _ (s + nL)%nat (n - nL)%nat ltac:(lia) HB p ltac:(lia))
      as Hn.
    cbv beta in Hn.
    destruct (goes_left input split (DT.rowid_at rows' p));
      [contradiction Hn; reflexivity|reflexivity].
Qed.

Lemma partitionSamples_partitions_witness :
  let input :=
    DT.mkInput (map F32.of_int [5; 1; 4; 2; 3; 0; 9; 9]) 8
      [7; 0; 1; 2; 3; 4; 5; 6] in
  let split := DT.mkSplit (F32.of_int 2) 0 F32.one 3 in
  let wi := DT.mkNodeWorkItem 0 0 (DT.mkInstanceRange 1 6) in
  exists rows',
    DT.partitionSamples 2 input split wi [0; 0]%nat [0; 0]%nat = Some rows' /\
    length rows' = length (DT.rowids input) /\
    (forall p, (p < DT.range_start wi \/ DT.range_end wi <= p)%nat ->
       rows' !! p = DT.rowids input !! p) /\
    slice rows' (DT.range_start wi) (DT.range_len wi)
    ≡ₚ slice (DT.rowids input) (DT.range_start wi) (DT.range_len wi) /\
    (forall p, (DT.range_start wi <= p < DT.part split wi)%nat ->
       goes_left input split (DT.rowid_at rows' p) = true) /\
    (forall p, (DT.part split wi <= p < DT.range_end wi)%nat ->
       goes_left input split (DT.rowid_at rows' p) = false).
Proof.
  intros input split wi.
  apply (partitionSamples_partitions 2 input split wi [0; 0]%nat [0; 0]%nat).
  - lia.
  - reflexivity.
  - reflexivity.
  - vm_compute. lia.
  - vm_compute. reflexivity.
  - reflexivity.
  - repeat (constructor; [vm_compute; reflexivity|]). constructor.
Defined.

(** C4, as stated, fails when the split column holds a NaN: the row is
    neither [> quesval] nor [<= quesval], so no thread flags it, whichever
    half it lies in.  Rows 0 and 1 hold NaN and 1.0, the threshold is 2.0 and
    the split is accepted with [nLeft = 1], the number of rows [<=] the
    threshold; the array stays [0; 1], with the row that is not assigned to
    the left in the prefix and the row that is in the suffix. *)
Lemma partitionSamples_nan_counterexample :
  let input := DT.mkInput [F32.quiet_nan; F32.one] 2 [0; 1] in
  let split := DT.mkSplit (F32.of_int 2) 0 F32.one 1 in
  let wi := DT.mkNodeWorkItem 0 0 (DT.mkInstanceRange 0 2) in
  DT.nLeft split
  = Z.of_nat (length (filter (fun r => goes_left input split r = true)
                        (slice (DT.rowids input) 0 2))) /\
  DT.nodeSplitKernel 2 1 F32.pos_zero input [wi] [split] [0; 0]%nat [0; 0]%nat 0
  = DT.partitionSamples 2 input split wi [0; 0]%nat [0; 0]%nat /\
  DT.partitionSamples 2 input split wi [0; 0]%nat [0; 0]%nat = Some [0; 1] /\
  goes_left input split (DT.rowid_at [0; 1] 0) = false /\
  goes_left input split (DT.rowid_at [0; 1] 1) = true.
Proof. vm_compute. repeat split. Qed.

(** ** The fixture: dense and sparse trees *)

Section Sparse_facts.
Import FIL.
Variable goes_right : base_node -> F32.t -> bool.
Variable fmt : node_layout.
Variable nodes : list dense_node.
Variable root : nat.

Abbreviation wf := (dense_wf nodes root).

Lemma dense_wf_unfold h i :
  wf h i =
  match nodes !! (root + i)%nat with
  | None => False
  | Some node =>
      if is_leaf node then True
      else match h with
           | O => False
           | S h' => wf h' (2 * i + 1)%nat /\ wf h' (2 * i + 2)%nat
           end
  end.
Proof. destruct h; reflexivity. Qed.

Lemma dense_wf_mono h h' i : (h <= h')%nat -> wf h i -> wf h' i.
Proof.
  revert h' i. induction h as [|h IH]; intros h' i Hle;
    rewrite (dense_wf_unfold _ i), (dense_wf_unfold h' i);
    destruct (nodes !! (root + i)%nat) as [node|]; try tauto;
    destruct (is_leaf node); try tauto.
  destruct h' as [|h']; [lia|].
  intros [H1 H2]. split; apply IH; (lia || assumption).
Qed.

Lemma infer_one_tree_unfold fuel data curr :
  infer_one_tree goes_right fuel nodes root data curr =
  match nodes !! (root + curr)%nat with
  | None => None
  | Some node =>
      if is_leaf node then Some (val node)
      else match fuel with
           | O => None
           | S fuel' =>
               match data !! fid node with
               | None => None
               | Some v =>
                   infer_one_tree goes_right fuel' nodes root data
                     (2 * curr + 1 + (if goes_right node v then 1 else 0))%nat
               end
           end
  end.
Proof.
  destruct fuel; simpl; destruct (nodes !! (root + curr)%nat); reflexivity.
Qed.

Lemma infer_one_sparse_tree_unfold fuel (sn : list sparse_node) sroot data curr :
  infer_one_sparse_tree goes_right fuel sn sroot data curr =
  match sn !! (sroot + curr)%nat with
  | None => None
  | Some node =>
      if is_leaf (base node) then Some (val (base node))
      else match fuel with
           | O => None
           | S fuel' =>
               match data !! fid (base node) with
               | None => None
               | Some v =>
                   infer_one_sparse_tree goes_right fuel' sn sroot data
                     (left_idx node
                      + (if goes_right (base node) v then 1 else 0))%nat
               end
           end
  end.
Proof.
  destruct fuel; simpl; destruct (sn !! (sroot + curr)%nat); reflexivity.
Qed.

(** The dense walk reaches a leaf when it has fuel for the height. *)
Lemma infer_one_tree_total data h :
  fids_in_row nodes data ->
  forall i fuel, wf h i -> (h <= fuel)%nat ->
  exists out, infer_one_tree goes_right fuel nodes root data i = Some out.
Proof.
  intros Hfid. induction h as [|h IH]; intros i fuel Hwf Hfuel;
    rewrite dense_wf_unfold in Hwf; rewrite infer_one_tree_unfold;
    destruct (nodes !! (root + i)%nat) as [node|] eqn:En; try contradiction;
    destruct (is_leaf node) eqn:El; eauto; try contradiction.
  destruct fuel as [|fuel]; [lia|].
  destruct (lookup_lt_is_Some_2 data (fid node) (Hfid _ _ En El)) as [v ->].
  destruct Hwf as [H1 H2].
  destruct (goes_right node v).
  - replace (2 * i + 1 + 1)%nat with (2 * i + 2)%nat by lia.
    apply IH; [assumption|lia].
  - replace (2 * i + 1 + 0)%nat with (2 * i + 1)%nat by lia.
    apply IH; [assumption|lia].
Qed.

Lemma make_sparse_node_Some (output split : val_t) (f : nat)
    (dl il ic : bool) (li : nat) (N : sparse_node) :
  make_sparse_node fmt output split f dl il ic li = Some N ->
  N = mkSparseNode (make_dense_node output split f dl il ic) li.
Proof.
  unfold make_sparse_node.
  destruct (fits (fid_width fmt) f && fits (left_width fmt) li);
    congruence.
Qed.

Lemma make_sparse_node_inv (output split : val_t) (f : nat)
    (dl il ic : bool) (li : nat) (N : sparse_node) :
  make_sparse_node fmt output split f dl il ic li = Some N ->
  sparse_node_fits fmt N.
Proof.
  unfold make_sparse_node, sparse_node_fits, fits.
  destruct (Z.ltb_spec (Z.of_nat f) (2 ^ fid_width fmt));
    destruct (Z.ltb_spec (Z.of_nat li) (2 ^ left_width fmt));
    simpl; try discriminate.
  intros [= <-]. simpl. split; assumption.
Qed.

Lemma make_sparse_node_fits (output split : val_t) (f : nat)
    (dl il ic : bool) (li : nat) :
  fits (fid_width fmt) f = true -> fits (left_width fmt) li = true ->
  make_sparse_node fmt output split f dl il ic li
  = Some (mkSparseNode (make_dense_node output split f dl il ic) li).
Proof. unfold make_sparse_node. intros -> ->. reflexivity. Qed.

Lemma dense2sparse_node_unfold fuel i sroot isp (sn : list sparse_node) :
  dense2sparse_node fmt fuel nodes root i sroot isp sn =
  match nodes !! (root + i)%nat with
  | None => None
  | Some node =>
      if is_leaf node then
        match make_sparse_node fmt (val node) val_zero (fid node)
                (def_left node) (is_leaf node) false 0 with
        | None => None
        | Some N => Some (<[ isp := N ]> sn)
        end
      else
        match fuel with
        | O => None
        | S fuel' =>
            match make_sparse_node fmt val_zero (val node) (fid node)
                    (def_left node) (is_leaf node) (is_categorical node)
                    (length sn - sroot)%nat with
            | None => None
            | Some N =>
                match
                  dense2sparse_node fmt fuel' nodes root (2 * i + 1)%nat sroot
                    (length sn)
                    (<[ isp := N ]>
                       ((sn ++ [default_sparse_node])
                        ++ [default_sparse_node]))
                with
                | None => None
                | Some sn' =>
                    dense2sparse_node fmt fuel' nodes root (2 * i + 2)%nat
                      sroot (length sn + 1)%nat sn'
                end
            end
        end
  end.
Proof.
  destruct fuel; simpl; destruct (nodes !! (root + i)%nat); reflexivity.
Qed.

(** A conversion of the subtree at [i] that succeeds writes the slot [isp]
    and appends the descendants, touches nothing else, and every vector that
    holds the result walks like the dense subtree. *)
Lemma dense2sparse_node_sound (sroot : nat) (fuel : nat) :
  forall i isp (sn sn' : list sparse_node),
  dense2sparse_node fmt fuel nodes root i sroot isp sn = Some sn' ->
  (sroot <= isp < length sn)%nat ->
    (length sn <= length sn')%nat /\
    (forall j, (j < length sn)%nat -> j <> isp -> sn' !! j = sn !! j) /\
    forall sn'', same_subtree sn'' sn' isp (length sn) (length sn') ->
    forall data fuel',
      infer_one_sparse_tree goes_right fuel' sn'' sroot data (isp - sroot)
      = infer_one_tree goes_right fuel' nodes root data i.
Proof.
  assert (Hleaf : forall i isp (sn sn' : list sparse_node) node N,
            nodes !! (root + i)%nat = Some node -> is_leaf node = true ->
            make_sparse_node fmt (val node) val_zero (fid node)
              (def_left node) (is_leaf node) false 0 = Some N ->
            Some (<[ isp := N ]> sn) = Some sn' ->
            (sroot <= isp < length sn)%nat ->
            (length sn <= length sn')%nat /\
            (forall j, (j < length sn)%nat -> j <> isp ->
               sn' !! j = sn !! j) /\
            forall sn'', same_subtree sn'' sn' isp (length sn) (length sn') ->
            forall data fuel',
              infer_one_sparse_tree goes_right fuel' sn'' sroot data
                (isp - sroot)
              = infer_one_tree goes_right fuel' nodes root data i).
  { intros i isp sn sn' node N En El EN E Hisp.
    injection E as <-. apply make_sparse_node_Some in EN. subst N.
    rewrite length_insert. split; [lia|]. split.
    - intros j Hj Hne. apply list_lookup_insert_ne. lia.
    - intros sn'' [Hroot _] data fuel'.
      rewrite infer_one_sparse_tree_unfold, infer_one_tree_unfold.
      replace (sroot + (isp - sroot))%nat with isp by lia.
      rewrite Hroot, list_lookup_insert_eq by lia.
      rewrite En, El. reflexivity. }
  induction fuel as [|fuel IH]; intros i isp sn sn' E Hisp;
    rewrite dense2sparse_node_unfold in E;
    destruct (nodes !! (root + i)%nat) as [node|] eqn:En; try discriminate;
    destruct (is_leaf node) eqn:El; try discriminate.
  1, 2: (destruct (make_sparse_node fmt (val node) val_zero (fid node)
                    (def_left node) true false 0) as [N|] eqn:EN;
         [|discriminate];
         apply (Hleaf i isp sn sn' node N En El); [rewrite El| |];
         assumption).
  destruct (make_sparse_node fmt val_zero (val node) (fid node)
              (def_left node) false (is_categorical node)
              (length sn - sroot)%nat) as [N|] eqn:EN; [|discriminate].
  apply make_sparse_node_Some in EN.
  set (sn2 := <[ isp := N ]>
                ((sn ++ [default_sparse_node]) ++ [default_sparse_node]))
    in E.
  assert (length sn2 = length sn + 2)%nat as Hl2.
  { unfold sn2. rewrite length_insert, !length_app. simpl. lia. }
  destruct (dense2sparse_node fmt fuel nodes root (2 * i + 1)%nat sroot
              (length sn) sn2) as [sn3|] eqn:E3; [|discriminate].
  destruct (IH (2 * i + 1)%nat (length sn) sn2 sn3 E3 ltac:(lia))
    as (Hl3 & Hk3 & Hsub3).
  destruct (IH (2 * i + 2)%nat (length sn + 1)%nat sn3 sn' E ltac:(lia))
    as (Hl4 & Hk4 & Hsub4).
  split; [lia|].
  assert (forall j, (j < length sn)%nat -> sn2 !! j
          = if decide (j = isp) then Some N else sn !! j) as H2.
  { intros j Hj. unfold sn2. destruct (decide (j = isp)) as [->|Hne].
    - apply list_lookup_insert_eq. rewrite !length_app. simpl. lia.
    - rewrite list_lookup_insert_ne by lia.
      rewrite <- app_assoc. apply lookup_app_l. assumption. }
  split.
  { intros j Hj Hne. rewrite Hk4, Hk3 by lia. rewrite H2 by lia.
    destruct (decide (j = isp)); [contradiction|reflexivity]. }
  intros sn'' [Hroot Hrest] data fuel'.
  rewrite infer_one_sparse_tree_unfold, infer_one_tree_unfold.
  replace (sroot + (isp - sroot))%nat with isp by lia.
  rewrite Hroot, Hk4, Hk3, H2 by lia.
  destruct (decide (isp = isp)); [|contradiction].
  rewrite En, El. subst N. unfold make_dense_node. simpl.
  destruct fuel' as [|fuel']; [reflexivity|].
  assert (mkBaseNode (val node) (fid node) (def_left node) false
            (is_categorical node) = node) as Hnode.
  { destruct node; simpl in *; congruence. }
  rewrite Hnode.
  destruct (data !! fid node) as [v|]; [|reflexivity].
  destruct (goes_right node v).
  - match goal with
    | |- infer_one_sparse_tree _ _ _ _ _ ?x = infer_one_tree _ _ _ _ _ ?y =>
        replace x with (length sn + 1 - sroot)%nat by lia;
        replace y with (2 * i + 2)%nat by lia
    end.
    apply Hsub4. unfold same_subtree. split.
    + apply Hrest. lia.
    + intros j Hj. apply Hrest. lia.
  - match goal with
    | |- infer_one_sparse_tree _ _ _ _ _ ?x = infer_one_tree _ _ _ _ _ ?y =>
        replace x with (length sn - sroot)%nat by lia;
        replace y with (2 * i + 1)%nat by lia
    end.
    apply Hsub3. unfold same_subtree. split.
    + rewrite Hrest by lia. apply Hk4; lia.
    + intros j Hj. rewrite Hrest by lia. apply Hk4; lia.
Qed.

(** The slots a successful conversion writes hold nodes whose fields fit
    the layout: nothing is truncated. *)
Lemma dense2sparse_node_fields (sroot : nat) (fuel : nat) :
  forall i isp (sn sn' : list sparse_node),
  dense2sparse_node fmt fuel nodes root i sroot isp sn = Some sn' ->
  (sroot <= isp < length sn)%nat ->
  forall j N, j = isp \/ (length sn <= j < length sn')%nat ->
    sn' !! j = Some N -> sparse_node_fits fmt N.
Proof.
  induction fuel as [|fuel IH]; intros i isp sn sn' E Hisp j N Hj HN;
    pose proof E as E0;
    rewrite dense2sparse_node_unfold in E;
    destruct (nodes !! (root + i)%nat) as [node|] eqn:En; try discriminate;
    destruct (is_leaf node) eqn:El; try discriminate.
  1, 2: (destruct (make_sparse_node fmt (val node) val_zero (fid node)
                    (def_left node) true false 0) as [N0|] eqn:EN;
         [|discriminate];
         injection E as <-; rewrite length_insert in Hj;
         destruct Hj as [->|Hj]; [|lia];
         rewrite list_lookup_insert_eq in HN by lia;
         injection HN as <-; exact (make_sparse_node_inv _ _ _ _ _ _ _ _ EN)).
  destruct (make_sparse_node fmt val_zero (val node) (fid node)
              (def_left node) false (is_categorical node)
              (length sn - sroot)%nat) as [N0|] eqn:EN; [|discriminate].
  set (sn2 := <[ isp := N0 ]>
                ((sn ++ [default_sparse_node]) ++ [default_sparse_node]))
    in E.
  assert (length sn2 = length sn + 2)%nat as Hl2.
  { unfold sn2. rewrite length_insert, !length_app. simpl. lia. }
  destruct (dense2sparse_node fmt fuel nodes root (2 * i + 1)%nat sroot
              (length sn) sn2) as [sn3|] eqn:E3; [|discriminate].
  destruct (dense2sparse_node_sound sroot fuel _ _ _ _ E3 ltac:(lia))
    as (Hl3 & Hk3 & _).
  destruct (dense2sparse_node_sound sroot fuel _ _ _ _ E ltac:(lia))
    as (Hl4 & Hk4 & _).
  destruct (decide (j = isp)) as [->|Hne].
  - rewrite Hk4, Hk3 in HN by lia.
    unfold sn2 in HN. rewrite list_lookup_insert_eq in HN
      by (rewrite !length_app; simpl; lia).
    injection HN as <-. exact (make_sparse_node_inv _ _ _ _ _ _ _ _ EN).
  - destruct Hj as [Hj|Hj]; [contradiction|].
    destruct (decide (j = length sn + 1)%nat) as [->|Hne1].
    { exact (IH _ _ _ _ E ltac:(lia) _ N (or_introl eq_refl) HN). }
    destruct (Nat.lt_ge_cases j (length sn3)) as [Hlt|Hge].
    + rewrite Hk4 in HN by lia.
      apply (IH _ _ _ _ E3 ltac:(lia) j N); [|exact HN].
      destruct (decide (j = length sn)); [left; assumption|right; lia].
    + apply (IH _ _ _ _ E ltac:(lia) j N); [right; lia|exact HN].
Qed.

(** The conversion of a subtree of height [h] succeeds when every feature id
    fits its field and the left-index field can hold the slots the subtree
    may still take, [2^(h+1) - 2] of them. *)
Lemma dense2sparse_node_total (sroot : nat) (h : nat) :
  Forall (fun node => fits (fid_width fmt) (fid node) = true) nodes ->
  forall i isp (sn : list sparse_node) fuel,
  wf h i -> (h <= fuel)%nat ->
  (sroot <= isp < length sn)%nat ->
  Z.of_nat (length sn - sroot + (2 ^ (h + 1) - 2)) <= 2 ^ left_width fmt ->
  exists sn',
    dense2sparse_node fmt fuel nodes root i sroot isp sn = Some sn' /\
    (length sn' <= length sn + (2 ^ (h + 1) - 2))%nat.
Proof.
  intros Hfid.
  assert (Hf : forall j node, nodes !! j = Some node ->
                 fits (fid_width fmt) (fid node) = true).
  { intros j node Hj. exact (proj1 (Forall_lookup _ _) Hfid j node Hj). }
  induction h as [|h IH]; intros i isp sn fuel Hwf Hfuel Hisp Hcap;
    rewrite dense_wf_unfold in Hwf; rewrite dense2sparse_node_unfold;
    destruct (nodes !! (root + i)%nat) as [node|] eqn:En; try contradiction;
    destruct (is_leaf node) eqn:El; try contradiction.
  1, 2: (rewrite make_sparse_node_fits;
         [eexists; split; [reflexivity|]; rewrite length_insert; lia
         |exact (Hf _ _ En)
         |unfold fits; apply Z.ltb_lt; lia]).
  destruct fuel as [|fuel]; [lia|].
  destruct Hwf as [Hw1 Hw2].
  assert (Hpow : (2 ^ (S h + 1) = 2 * 2 ^ (h + 1))%nat)
    by (replace (S h + 1)%nat with (S (h + 1)) by lia;
        apply Nat.pow_succ_r').
  assert (Hpos : (2 <= 2 ^ (h + 1))%nat).
  { replace (h + 1)%nat with (S h) by lia. rewrite Nat.pow_succ_r'.
    pose proof (Nat.pow_nonzero 2 h ltac:(lia)). lia. }
  rewrite Hpow in Hcap.
  rewrite make_sparse_node_fits;
    [|exact (Hf _ _ En)|unfold fits; apply Z.ltb_lt; lia].
  set (N := mkSparseNode _ _).
  set (sn2 := <[ isp := N ]>
                ((sn ++ [default_sparse_node]) ++ [default_sparse_node])).
  assert (length sn2 = length sn + 2)%nat as Hl2.
  { unfold sn2. rewrite length_insert, !length_app. simpl. lia. }
  destruct (IH (2 * i + 1)%nat (length sn) sn2 fuel Hw1 ltac:(lia)
              ltac:(lia) ltac:(lia)) as (sn3 & E3 & Hl3).
  rewrite E3.
  assert (Hge3 : (length sn2 <= length sn3)%nat).
  { apply (dense2sparse_node_sound sroot fuel _ _ _ _ E3). lia. }
  destruct (IH (2 * i + 2)%nat (length sn + 1)%nat sn3 fuel Hw2 ltac:(lia)
              ltac:(lia) ltac:(lia)) as (sn4 & E4 & Hl4).
  exists sn4. split; [exact E4|]. lia.
Qed.

End Sparse_facts.

Section Forest_facts.
Import FIL.
Variable goes_right : base_node -> F32.t -> bool.
Variable fmt : node_layout.
Variable ps : FilTestParams.
Variable nodes : list dense_node.
Hypothesis Hshape : dense_forest_shape ps nodes.

Abbreviation tnn := (tree_num_nodes ps).
Abbreviation ntrees := (Z.to_nat (num_trees ps)).

Lemma tree_num_nodes_pow : (tnn + 1 = 2 * 2 ^ depth ps)%nat.
Proof.
  unfold tree_num_nodes.
  replace (depth ps + 1)%nat with (S (depth ps)) by lia.
  rewrite Nat.pow_succ_r'.
  pose proof (Nat.pow_nonzero 2 (depth ps) ltac:(lia)). lia.
Qed.

Lemma tree_num_nodes_half : (tnn / 2 = 2 ^ depth ps - 1)%nat.
Proof.
  pose proof tree_num_nodes_pow as H.
  pose proof (Nat.pow_nonzero 2 (depth ps) ltac:(lia)).
  assert (tnn = 1 + (2 ^ depth ps - 1) * 2)%nat as -> by lia.
  rewrite Nat.div_add by lia. reflexivity.
Qed.

Lemma depth_lt_tree_num_nodes : (depth ps <= tnn)%nat.
Proof.
  pose proof tree_num_nodes_pow.
  pose proof (Nat.pow_gt_lin_r 2 (depth ps) ltac:(lia)). lia.
Qed.

(** Every tree of the forest is well formed, with the depth as height. *)
Lemma shape_wf_node (t : nat) :
  (t < ntrees)%nat ->
  forall k i, (i < tnn)%nat -> (2 ^ depth ps <= 2 ^ k * (i + 1))%nat ->
  dense_wf nodes (t * tnn) k i.
Proof.
  intros Ht. destruct Hshape as [Hlen Hleaf].
  pose proof tree_num_nodes_pow as Hpow.
  pose proof tree_num_nodes_half as Hhalf.
  induction k as [|k IH]; intros i Hi Hk; rewrite dense_wf_unfold.
  - assert (t * tnn + i < length nodes)%nat as Hin by (rewrite Hlen; nia).
    destruct (nodes !! (t * tnn + i)%nat) as [node|] eqn:En;
      [|apply lookup_ge_None in En; lia].
    rewrite (Hleaf t (t * tnn + i)%nat node Ht); [exact I| |exact En].
    simpl in Hk. nia.
  - assert (t * tnn + i < length nodes)%nat as Hin by (rewrite Hlen; nia).
    destruct (nodes !! (t * tnn + i)%nat) as [node|] eqn:En;
      [|apply lookup_ge_None in En; lia].
    destruct (is_leaf node) eqn:El; [exact I|].
    assert (i + 1 < 2 ^ depth ps)%nat as Hinner.
    { destruct (Nat.lt_ge_cases (i + 1) (2 ^ depth ps)); [assumption|].
      rewrite (Hleaf t (t * tnn + i)%nat node Ht) in El;
        [discriminate| |exact En].
      nia. }
    rewrite Nat.pow_succ_r' in Hk.
    split; apply IH; nia.
Qed.

Lemma shape_wf (t : nat) :
  (t < ntrees)%nat -> dense_wf nodes (t * tnn) (depth ps) 0.
Proof.
  intros Ht. apply shape_wf_node; [assumption| |lia].
  pose proof tree_num_nodes_pow.
  pose proof (Nat.pow_nonzero 2 (depth ps) ltac:(lia)). lia.
Qed.

(** A conversion of one tree that succeeds appends the tree to the vector
    and records its root; every vector that holds the appended slots walks
    like the dense tree. *)
Lemma dense2sparse_tree_sound (dense_root : nat) (st st' : sparse_forest) :
  dense2sparse_tree fmt nodes dense_root st = Some st' ->
  trees st' = trees st ++ [length (sparse_nodes st)] /\
  (length (sparse_nodes st) < length (sparse_nodes st'))%nat /\
  (forall j, (j < length (sparse_nodes st))%nat ->
     sparse_nodes st' !! j = sparse_nodes st !! j) /\
  forall sn'',
    (forall j, (length (sparse_nodes st) <= j < length (sparse_nodes st'))%nat
       -> sn'' !! j = sparse_nodes st' !! j) ->
    forall data fuel,
      infer_one_sparse_tree goes_right fuel sn''
        (length (sparse_nodes st)) data 0
      = infer_one_tree goes_right fuel nodes dense_root data 0.
Proof.
  unfold dense2sparse_tree. set (sn := sparse_nodes st).
  destruct (dense2sparse_node fmt (length nodes) nodes dense_root 0
              (length sn) (length sn) (sn ++ [default_sparse_node]))
    as [sn'|] eqn:E; [|discriminate].
  simpl. intros [= <-]. simpl.
  destruct (dense2sparse_node_sound goes_right fmt nodes dense_root
              (length sn) (length nodes) 0 (length sn)
              (sn ++ [default_sparse_node]) sn' E)
    as (Hl & Hk & Hsub).
  { rewrite length_app. simpl. lia. }
  rewrite length_app in Hl, Hk, Hsub. simpl in Hl, Hk, Hsub.
  split; [reflexivity|]. split; [lia|]. split.
  - intros j Hj. rewrite Hk by lia. apply lookup_app_l. assumption.
  - intros sn'' Hagree data fuel.
    rewrite <- (Hsub sn''); [rewrite Nat.sub_diag; reflexivity|].
    split; [apply Hagree; lia|]. intros j Hj. apply Hagree. lia.
Qed.

(** The loop over the trees, when it succeeds. *)
Lemma dense2sparse_from_sound (count : nat) :
  forall tree st st',
  dense2sparse_from fmt ps nodes count tree st = Some st' ->
  exists roots,
    trees st' = trees st ++ roots /\ length roots = count /\
    (length (sparse_nodes st) <= length (sparse_nodes st'))%nat /\
    (forall j, (j < length (sparse_nodes st))%nat ->
       sparse_nodes st' !! j = sparse_nodes st !! j) /\
    forall k sroot, roots !! k = Some sroot ->
      forall data fuel,
        infer_one_sparse_tree goes_right fuel (sparse_nodes st') sroot data 0
        = infer_one_tree goes_right fuel nodes ((tree + k) * tnn) data 0.
Proof.
  induction count as [|count IH]; intros tree st st' E.
  - injection E as <-. exists []. rewrite app_nil_r.
    repeat split; try reflexivity. intros k sroot H. discriminate.
  - simpl in E.
    destruct (dense2sparse_tree fmt nodes (tree * tnn) st) as [st1|] eqn:E1;
      [|discriminate].
    simpl in E.
    destruct (dense2sparse_tree_sound _ _ _ E1) as (Ht1 & Hl1 & Hk1 & Hsub1).
    destruct (IH (S tree) st1 st' E) as (roots & Ht & Hlen & Hl & Hk & Hsub).
    exists (length (sparse_nodes st) :: roots).
    split; [rewrite Ht, Ht1, <- app_assoc; reflexivity|].
    split; [simpl; lia|]. split; [lia|]. split.
    + intros j Hj. rewrite Hk by lia. apply Hk1. assumption.
    + intros [|k] sroot Hr data fuel; simpl in Hr.
      * injection Hr as <-. rewrite Nat.add_0_r.
        apply Hsub1. intros j Hj. apply Hk. lia.
      * rewrite (Hsub k sroot Hr). f_equal. lia.
Qed.

(** Every node a successful conversion stores has its feature id and its
    left index within the widths of the layout. *)
Lemma dense2sparse_tree_fields (dense_root : nat) (st st' : sparse_forest) :
  dense2sparse_tree fmt nodes dense_root st = Some st' ->
  forall j N, (length (sparse_nodes st) <= j)%nat ->
    sparse_nodes st' !! j = Some N -> sparse_node_fits fmt N.
Proof.
  unfold dense2sparse_tree. set (sn := sparse_nodes st).
  destruct (dense2sparse_node fmt (length nodes) nodes dense_root 0
              (length sn) (length sn) (sn ++ [default_sparse_node]))
    as [sn'|] eqn:E; [|discriminate].
  simpl. intros [= <-] j N Hj HN. simpl in HN.
  apply (dense2sparse_node_fields goes_right fmt nodes dense_root
           (length sn) (length nodes) 0 (length sn)
           (sn ++ [default_sparse_node]) sn' E) with (j := j);
    [rewrite length_app; simpl; lia| |exact HN].
  apply lookup_lt_Some in HN. rewrite length_app. simpl.
  destruct (decide (j = length sn)); [left; assumption|right; lia].
Qed.

Lemma dense2sparse_from_fields (count : nat) :
  forall tree st st',
  dense2sparse_from fmt ps nodes count tree st = Some st' ->
  forall j N, (length (sparse_nodes st) <= j)%nat ->
    sparse_nodes st' !! j = Some N -> sparse_node_fits fmt N.
Proof.
  induction count as [|count IH]; intros tree st st' E j N Hj HN.
  - injection E as <-. apply lookup_lt_Some in HN. lia.
  - simpl in E.
    destruct (dense2sparse_tree fmt nodes (tree * tnn) st) as [st1|] eqn:E1;
      [|discriminate].
    simpl in E.
    destruct (Nat.lt_ge_cases j (length (sparse_nodes st1))) as [Hlt|Hge].
    + destruct (dense2sparse_from_sound _ _ _ _ E) as (_ & _ & _ & _ & Hk & _).
      rewrite Hk in HN by exact Hlt.
      exact (dense2sparse_tree_fields _ _ _ E1 j N Hj HN).
    + exact (IH _ _ _ E j N Hge HN).
Qed.

(** The forest of the fixture is converted when its feature ids fit their
    field and the left-index field can hold the nodes of a tree. *)
Lemma dense2sparse_tree_total (t : nat) (st : sparse_forest) :
  Forall (fun node => fits (fid_width fmt) (fid node) = true) nodes ->
  Z.of_nat tnn <= 2 ^ left_width fmt ->
  (t < ntrees)%nat ->
  is_Some (dense2sparse_tree fmt nodes (t * tnn) st).
Proof.
  intros Hfid Hcap Ht. unfold dense2sparse_tree.
  set (sn := sparse_nodes st).
  assert (depth ps <= length nodes)%nat as Hfuel.
  { destruct Hshape as [-> _]. pose proof depth_lt_tree_num_nodes. nia. }
  destruct (dense2sparse_node_total goes_right fmt nodes (t * tnn) (length sn)
              (depth ps) Hfid 0 (length sn) (sn ++ [default_sparse_node])
              (length nodes) (shape_wf t Ht) Hfuel)
    as (sn' & E & _).
  { rewrite length_app. simpl. lia. }
  { rewrite length_app. simpl.
    pose proof tree_num_nodes_pow as Hpow.
    replace (depth ps + 1)%nat with (S (depth ps)) by lia.
    rewrite Nat.pow_succ_r'. lia. }
  rewrite E. simpl. eauto.
Qed.

Lemma dense2sparse_from_total (count : nat) :
  Forall (fun node => fits (fid_width fmt) (fid node) = true) nodes ->
  Z.of_nat tnn <= 2 ^ left_width fmt ->
  forall tree st,
  (tree + count <= ntrees)%nat ->
  is_Some (dense2sparse_from fmt ps nodes count tree st).
Proof.
  intros Hfid Hcap.
  induction count as [|count IH]; intros tree st Hc; simpl; [eauto|].
  destruct (dense2sparse_tree_total tree st Hfid Hcap ltac:(lia))
    as [st1 ->].
  simpl. apply IH. lia.
Qed.

End Forest_facts.
(** C1.  For the forest of [num_trees] complete dense trees of the fixture, a
    row that holds every feature the inner nodes test, and a sparse node type
    of any layout (the 16-byte one or the compact 8-byte one): every sparse
    forest that [dense2sparse] yields records one root per tree and stores
    every feature id and left index in full, and with fuel for the depth the
    walk of every converted sparse tree (left child at the stored offset,
    right child next to it) returns the leaf output that [infer_one_tree]
    returns on the dense tree (children at [2i+1] and [2i+2]), whatever
    decision [goes_right] takes at an inner node; the two encodings therefore
    hand the same list of leaf outputs to the reduction and the output
    transform.  The conversion does yield a forest when every feature id
    fits the feature-id field and the left-index field can hold the number
    of nodes of a tree. *)
Theorem dense2sparse_preserves_predictions
    (goes_right : FIL.base_node -> F32.t -> bool) (fmt : FIL.node_layout)
    (ps : FIL.FilTestParams) (nodes : list FIL.dense_node)
    (data : list F32.t) :
  dense_forest_shape ps nodes ->
  fids_in_row nodes data ->
  (forall sf, FIL.dense2sparse fmt ps nodes = Some sf ->
     length (FIL.trees sf) = Z.to_nat (FIL.num_trees ps) /\
     Forall (sparse_node_fits fmt) (FIL.sparse_nodes sf) /\
     forall fuel, (FIL.depth ps <= fuel)%nat ->
       (forall t, (t < Z.to_nat (FIL.num_trees ps))%nat ->
          exists sroot out,
            FIL.trees sf !! t = Some sroot /\
            FIL.infer_one_tree goes_right fuel nodes
              (t * FIL.tree_num_nodes ps)%nat data 0 = Some out /\
            FIL.infer_one_sparse_tree goes_right fuel (FIL.sparse_nodes sf)
              sroot data 0 = Some out) /\
       exists leaves,
         FIL.dense_leaves goes_right fuel ps nodes data = Some leaves /\
         FIL.sparse_leaves goes_right fuel sf data = Some leaves) /\
  (Forall (fun node => Z.of_nat (FIL.fid node) < 2 ^ FIL.fid_width fmt)
          nodes ->
   Z.of_nat (FIL.tree_num_nodes ps) <= 2 ^ FIL.left_width fmt ->
   is_Some (FIL.dense2sparse fmt ps nodes)).
Proof.
  intros Hshape Hfid. split.
  - intros sf E. unfold FIL.dense2sparse in E.
    destruct (dense2sparse_from_sound goes_right fmt ps nodes _ _ _ _ E)
      as (roots & Ht & Hlen & _ & _ & Hsub).
    simpl in Ht.
    split; [rewrite Ht; exact Hlen|]. split.
    { apply Forall_lookup. intros j N HN.
      apply (dense2sparse_from_fields goes_right fmt ps nodes _ _ _ _ E j N);
        [simpl; lia|exact HN]. }
    intros fuel Hfuel.
    assert (forall t, (t < Z.to_nat (FIL.num_trees ps))%nat ->
            exists sroot out,
              FIL.trees sf !! t = Some sroot /\
              FIL.infer_one_tree goes_right fuel nodes
                (t * FIL.tree_num_nodes ps)%nat data 0 = Some out /\
              FIL.infer_one_sparse_tree goes_right fuel (FIL.sparse_nodes sf)
                sroot data 0 = Some out) as Htrees.
    { intros t Htlt.
      destruct (lookup_lt_is_Some_2 roots t ltac:(lia)) as [sroot Hr].
      destruct (infer_one_tree_total goes_right nodes
                  (t * FIL.tree_num_nodes ps)%nat data (FIL.depth ps) Hfid 0
                  fuel (shape_wf ps nodes Hshape t Htlt) Hfuel) as [out Ho].
      exists sroot, out. rewrite Ht. split; [exact Hr|]. split; [exact Ho|].
      rewrite (Hsub t sroot Hr). exact Ho. }
    split; [exact Htrees|].
    assert (is_Some (FIL.dense_leaves goes_right fuel ps nodes data))
      as [leaves Hd].
    { apply mapM_is_Some_2, Forall_forall. intros t Hin.
      apply elem_of_seq in Hin.
      destruct (Htrees t ltac:(lia)) as (_ & out & _ & Ho & _).
      exists out. exact Ho. }
    exists leaves. split; [exact Hd|].
    apply mapM_Some_2.
    apply mapM_Some_1 in Hd.
    pose proof (Forall2_length _ _ _ Hd) as Hll. rewrite length_seq in Hll.
    apply Forall2_same_length_lookup_2; [rewrite Ht; lia|].
    intros t sroot y Hr Hy.
    assert (t < Z.to_nat (FIL.num_trees ps))%nat as Htlt.
    { apply lookup_lt_Some in Hy. lia. }
    destruct (Htrees t Htlt) as (sroot' & out & Hr' & Ho & Hos).
    rewrite Hr in Hr'. injection Hr' as <-.
    rewrite Hos. rewrite <- Ho.
    apply (Forall2_lookup_lr _ _ _ t t y Hd); [|exact Hy].
    apply lookup_seq_lt. exact Htlt.
  - intros Hfits Hcap. unfold FIL.dense2sparse.
    apply (dense2sparse_from_total goes_right fmt ps nodes Hshape);
      [|exact Hcap|lia].
    apply (Forall_impl _ _ _ Hfits). intros node Hn.
    unfold FIL.fits. apply Z.ltb_lt. exact Hn.
Qed.

(** Two trees of depth 2 in a layout of 13 and 16 bits. *)
Lemma dense2sparse_preserves_predictions_witness :
  let fmt := FIL.mkNodeLayout 13 16 in
  let ps := FIL.mkParams 2 2 2 FIL.RAW 0 0 FIL.kLT FIL.FLOAT_UNARY_BINARY 1 in
  let inner := fun f t => FIL.make_dense_node 0 t f true false false in
  let leaf := fun v => FIL.make_dense_node v 0 0 false true false in
  let nodes :=
    [inner 0%nat F32.one; leaf 100; inner 1%nat F32.one; leaf 0; leaf 0;
     leaf 101; leaf 102;
     inner 1%nat F32.one; inner 0%nat F32.one; leaf 200; leaf 201; leaf 202;
     leaf 0; leaf 0] in
  let data := [F32.one; F32.pos_zero] in
  let goes_right := FIL.child_cond (FIL.mkCatSets [] []) in
  exists sf,
    FIL.dense2sparse fmt ps nodes = Some sf /\
    length (FIL.trees sf) = 2%nat /\
    exists leaves,
      FIL.dense_leaves goes_right 2 ps nodes data = Some leaves /\
      FIL.sparse_leaves goes_right 2 sf data = Some leaves.
Proof.
  intros fmt ps inner leaf nodes data goes_right.
  destruct (dense2sparse_preserves_predictions goes_right fmt ps nodes data)
    as (Hsound & Htotal).
  - split; [reflexivity|].
    intros t j node Ht Hj Hn.
    change (FIL.tree_num_nodes ps) with 7%nat in Hj.
    change (Z.to_nat (FIL.num_trees ps)) with 2%nat in Ht.
    change (7 / 2)%nat with 3%nat in Hj.
    do 14 (destruct j as [|j];
           [try lia; simpl in Hn; injection Hn as <-; reflexivity|]).
    lia.
  - intros j node Hn Hl.
    do 14 (destruct j as [|j];
           [simpl in Hn; injection Hn as <-;
            first [discriminate Hl | simpl; lia]|]).
    discriminate Hn.
  - destruct Htotal as [sf E].
    + unfold nodes, inner, leaf. repeat constructor.
    + vm_compute. discriminate.
    + exists sf. split; [exact E|].
      destruct (Hsound sf E) as (Hlen & _ & H).
      split; [exact Hlen|].
      destruct (H 2%nat ltac:(simpl; lia)) as (_ & leaves & Hd & Hs).
      exists leaves. split; assumption.
Defined.

(** Beyond the layout the conversion yields nothing: a feature id of 3 in a
    field of one bit, and a tree of three nodes, whose left index is 1, for
    a left-index field without bits. *)
Example dense2sparse_beyond_layout :
  let ps := FIL.mkParams 4 1 1 FIL.RAW 0 0 FIL.kLT FIL.FLOAT_UNARY_BINARY 1 in
  let leaf := fun v => FIL.make_dense_node v 0 0 false true false in
  let tree := fun f =>
    [FIL.make_dense_node 0 F32.one f true false false; leaf 100; leaf 101] in
  FIL.dense2sparse (FIL.mkNodeLayout 1 16) ps (tree 3%nat) = None /\
  is_Some (FIL.dense2sparse (FIL.mkNodeLayout 2 16) ps (tree 3%nat)) /\
  FIL.dense2sparse (FIL.mkNodeLayout 13 0) ps (tree 0%nat) = None /\
  is_Some (FIL.dense2sparse (FIL.mkNodeLayout 13 1) ps (tree 0%nat)).
Proof. vm_compute. repeat split; eauto. Qed.
(** ** Truncation of a binary32 value to an integer *)

Section F32_trunc.
Import F32.

Lemma fraction_mod (x : Z) : fraction x = x mod 2 ^ 23.
Proof.
  unfold fraction. change 0x7FFFFF with (Z.ones 23).
  apply Z.land_ones. lia.
Qed.

Lemma lor_hidden_bit (x : Z) :
  Z.lor (Z.land x 0x7FFFFF) 0x800000 = fraction x + 0x800000.
Proof.
  fold (fraction x).
  assert (Hdisj : Z.land (fraction x) 0x800000 = 0).
  { unfold fraction. rewrite <- Z.land_assoc. apply Z.land_0_r. }
  rewrite <- (Z.lxor_lor _ _ Hdisj).
  symmetry. apply Z.add_nocarry_lxor. exact Hdisj.
Qed.

Lemma exponent_div (x : Z) : exponent x = magnitude x / 2 ^ 23.
Proof. unfold exponent. apply Z.shiftr_div_pow2. lia. Qed.

Lemma magnitude_split (x : Z) :
  magnitude x = exponent x * 2 ^ 23 + fraction x.
Proof.
  rewrite exponent_div, fraction_mod, magnitude_mod.
  assert (Hf : x mod 2 ^ 23 = (x mod 2 ^ 31) mod 2 ^ 23).
  { symmetry. apply Z.mod_mod_divide. exists (2 ^ 8). reflexivity. }
  rewrite Hf.
  pose proof (Z.div_mod (x mod 2 ^ 31) (2 ^ 23) ltac:(lia)). lia.
Qed.

Lemma fraction_range (x : Z) : 0 <= fraction x < 2 ^ 23.
Proof. rewrite fraction_mod. apply Z.mod_pos_bound. lia. Qed.

Lemma exponent_range (x : Z) :
  wf x -> 0 <= exponent x /\ (isfinite x = true -> exponent x < 255).
Proof.
  intros Hwf. destruct (sign_magnitude x Hwf) as [Hm _].
  rewrite exponent_div. split.
  - apply Z.div_pos; lia.
  - unfold isfinite, inf_mag. intros H%Z.ltb_lt.
    apply Z.div_lt_upper_bound; lia.
Qed.

Lemma significand_range (x : Z) :
  0 <= significand x < 2 ^ 24 /\
  (exponent x = 0 -> significand x = fraction x) /\
  (exponent x <> 0 -> significand x = fraction x + 2 ^ 23).
Proof.
  pose proof (fraction_range x) as Hf. unfold significand.
  destruct (Z.eqb_spec (exponent x) 0); repeat split; try lia.
Qed.

Lemma scaled_nonneg (x : Z) : 0 <= scaled x.
Proof.
  unfold scaled. destruct (significand_range x) as [Hs _].
  apply Z.mul_nonneg_nonneg; [lia|]. apply Z.pow_nonneg. lia.
Qed.

(** [to_int] is the integer part of the scaled magnitude, with the sign. *)
Lemma to_int_scaled (x : Z) :
  wf x -> isfinite x = true ->
  to_int x = if sign x then - (scaled x / 2 ^ 149) else scaled x / 2 ^ 149.
Proof.
  intros Hwf Hfin.
  destruct (exponent_range x Hwf) as [He0 He1]. specialize (He1 Hfin).
  destruct (significand_range x) as (Hs & Hs0 & Hs1).
  pose proof (fraction_range x) as Hf.
  assert (Ha : (if exponent x =? 0 then 0
                else if 150 <=? exponent x
                     then Z.shiftl (fraction x + 0x800000) (exponent x - 150)
                     else Z.shiftr (fraction x + 0x800000) (150 - exponent x))
               = scaled x / 2 ^ 149).
  { unfold scaled.
    destruct (Z.eqb_spec (exponent x) 0) as [E|E].
    - rewrite Hs0, E by assumption. simpl Z.max. simpl Z.sub.
      rewrite Z.mul_1_r. symmetry. apply Z.div_small. lia.
    - rewrite Hs1 by assumption. rewrite Z.max_l by lia.
      destruct (Z.leb_spec 150 (exponent x)) as [L|L].
      + rewrite Z.shiftl_mul_pow2 by lia.
        replace (exponent x - 1) with ((exponent x - 150) + 149) by lia.
        rewrite Z.pow_add_r by lia. rewrite Z.mul_assoc.
        rewrite Z.div_mul by lia. reflexivity.
      + rewrite Z.shiftr_div_pow2 by lia.
        replace 149 with ((150 - exponent x) + (exponent x - 1)) at 1 by lia.
        rewrite Z.pow_add_r by lia.
        rewrite Z.div_mul_cancel_r; [reflexivity| |].
        * apply Z.pow_nonzero; lia.
        * apply Z.pow_nonzero; lia. }
  unfold to_int. cbv zeta. rewrite lor_hidden_bit.
  fold (exponent x). rewrite Ha. reflexivity.
Qed.

(** The scaled magnitude grows with the bit pattern of the magnitude. *)
Lemma scaled_mono (x y : Z) :
  wf x -> wf y -> magnitude x < magnitude y -> scaled x < scaled y.
Proof.
  intros Hx Hy Hlt.
  destruct (exponent_range x Hx) as [Hex _].
  destruct (exponent_range y Hy) as [Hey _].
  destruct (significand_range x) as (Hsx & Hsx0 & Hsx1).
  destruct (significand_range y) as (Hsy & Hsy0 & Hsy1).
  pose proof (fraction_range x) as Hfx. pose proof (fraction_range y) as Hfy.
  rewrite (magnitude_split x), (magnitude_split y) in Hlt.
  assert (Hle : exponent x <= exponent y) by nia.
  unfold scaled.
  destruct (Z.eq_dec (exponent x) (exponent y)) as [E|E].
  - rewrite E in *. apply Z.mul_lt_mono_pos_r.
    + apply Z.pow_pos_nonneg; lia.
    + destruct (Z.eq_dec (exponent y) 0) as [E0|E0].
      * rewrite Hsx0, Hsy0 by assumption. lia.
      * rewrite Hsx1, Hsy1 by assumption. lia.
  - assert (Hy1 : 1 <= exponent y) by lia.
    rewrite (Z.max_l (exponent y)) by lia.
    rewrite Hsy1 by lia.
    assert (Hpy : 2 ^ (Z.max (exponent x) 1 - 1) <= 2 ^ (exponent y - 1)).
    { apply Z.pow_le_mono_r; lia. }
    assert (Hpx : 0 < 2 ^ (Z.max (exponent x) 1 - 1)).
    { apply Z.pow_pos_nonneg; lia. }
    destruct (Z.eq_dec (exponent x) 0) as [E0|E0].
    + rewrite Hsx0 by assumption. nia.
    + rewrite Hsx1 by assumption.
      rewrite Z.max_l in * by lia.
      assert (Hp2 : 2 * 2 ^ (exponent x - 1) <= 2 ^ (exponent y - 1)).
      { replace (exponent y - 1) with (Z.succ (exponent y - 2)) by lia.
        rewrite Z.pow_succ_r by lia.
        apply Z.mul_le_mono_nonneg_l; [lia|].
        apply Z.pow_le_mono_r; lia. }
      nia.
Qed.

(** A non-negative finite value below an integer-valued bound truncates to
    an integer below the bound's. *)
Lemma to_int_below (v c : Z) :
  wf v -> wf c ->
  isfinite v = true -> lt v pos_zero = false -> ge v c = false ->
  is_integer c = true ->
  0 <= to_int v < to_int c.
Proof.
  intros Hv Hc Hfin Hneg Hge Hint.
  unfold is_integer in Hint. apply andb_true_iff in Hint as [Hcfin Hcint].
  apply Z.eqb_eq in Hcint.
  pose proof (isfinite_not_nan v Hfin) as Hvn.
  pose proof (isfinite_not_nan c Hcfin) as Hcn.
  assert (H0n : isnan pos_zero = false) by reflexivity.
  rewrite (ge_not_lt v c Hvn Hcn) in Hge. apply negb_false_iff in Hge.
  apply lt_true_key in Hge as (_ & _ & Hkey).
  assert (Hk0 : 0 <= key v).
  { unfold lt, ordered in Hneg. rewrite Hvn, H0n in Hneg. simpl in Hneg.
    apply Z.ltb_ge in Hneg. exact Hneg. }
  destruct (sign_magnitude v Hv) as [Hmv _].
  destruct (sign_magnitude c Hc) as [Hmc _].
  assert (Hsc : sign c = false).
  { unfold key in Hkey, Hk0.
    destruct (sign c), (sign v); try reflexivity; lia. }
  assert (Hmag : magnitude v < magnitude c).
  { unfold key in Hkey, Hk0. rewrite Hsc in Hkey. destruct (sign v); lia. }
  pose proof (scaled_mono v c Hv Hc Hmag) as Hsc_lt.
  pose proof (scaled_nonneg v) as Hsv.
  rewrite (to_int_scaled c Hc Hcfin), Hsc.
  rewrite (to_int_scaled v Hv Hfin).
  assert (Hq : 0 <= scaled v / 2 ^ 149 < scaled c / 2 ^ 149).
  { split; [apply Z.div_pos; lia|].
    apply Z.div_lt_upper_bound; [lia|].
    pose proof (Z.div_mod (scaled c) (2 ^ 149) ltac:(lia)). lia. }
  destruct (sign v) eqn:Hsv'; [|lia].
  assert (magnitude v = 0) by (unfold key in Hk0; rewrite Hsv' in Hk0; lia).
  assert (Hz : scaled v = 0).
  { unfold scaled, significand.
    assert (Hez : exponent v = 0) by (rewrite exponent_div; replace (magnitude v) with 0; reflexivity).
    rewrite Hez. simpl.
    pose proof (magnitude_split v) as Hsp. rewrite Hez in Hsp.
    pose proof (fraction_range v). lia. }
  assert (Hq0 : scaled v / 2 ^ 149 = 0) by (rewrite Hz; reflexivity).
  lia.
Qed.

End F32_trunc.
(** ** Categorical nodes: the bit test and the listed categories *)

Section Categorical_facts.
Import FIL.

Lemma land_bit (a k : Z) :
  0 <= k -> negb (Z.land a (Z.shiftl 1 k) =? 0) = Z.testbit a k.
Proof.
  intros Hk. rewrite Z.shiftl_1_l.
  destruct (Z.testbit a k) eqn:E.
  - apply negb_true_iff, Z.eqb_neq. intros H0.
    assert (Hb : Z.testbit (Z.land a (2 ^ k)) k = true).
    { rewrite Z.land_spec, E, Z.pow2_bits_true by lia. reflexivity. }
    rewrite H0, Z.bits_0 in Hb. discriminate.
  - apply negb_false_iff, Z.eqb_eq.
    apply Z.bits_inj'. intros n Hn.
    rewrite Z.land_spec, Z.bits_0, Z.pow2_bits_eqb by lia.
    destruct (Z.eqb_spec k n) as [->|_].
    + rewrite E. reflexivity.
    + apply andb_false_r.
Qed.

Lemma same_byte (c : Z) :
  0 <= c -> (c + 1) mod 8 <> 0 -> (c + 1) / 8 = c / 8.
Proof.
  intros Hc Hm.
  pose proof (Z.div_mod c 8 ltac:(lia)).
  pose proof (Z.mod_pos_bound c 8 ltac:(lia)).
  pose proof (Z.div_mod (c + 1) 8 ltac:(lia)).
  pose proof (Z.mod_pos_bound (c + 1) 8 ltac:(lia)).
  lia.
Qed.

Lemma left_categories_loop_spec (cs : cat_sets) (set_ ncat : Z) (fuel : nat) :
  forall (category byte : Z) (acc : list Z),
    0 <= category ->
    ncat - category <= Z.of_nat fuel ->
    (category mod BITS_PER_BYTE <> 0 ->
     byte = bits_at cs (set_ + category / BITS_PER_BYTE)) ->
    left_categories_loop fuel cs set_ ncat category byte acc =
    acc ++ filter (fun k => category_bit cs set_ k = true)
                  (seqZ category (ncat - category)).
Proof.
  induction fuel as [|fuel IH]; intros category byte acc Hc Hfuel Hbyte.
  - rewrite seqZ_nil by lia. rewrite app_nil_r. reflexivity.
  - cbn [left_categories_loop].
    destruct (Z.ltb_spec category ncat) as [Hlt|Hge].
    2:{ rewrite seqZ_nil by lia. rewrite app_nil_r. reflexivity. }
    rewrite Z.rem_mod_nonneg, Z.quot_div_nonneg by (unfold BITS_PER_BYTE; lia).
    set (byte' := if category mod BITS_PER_BYTE =? 0
                  then bits_at cs (set_ + category / BITS_PER_BYTE)
                  else byte).
    assert (Hb' : byte' = bits_at cs (set_ + category / BITS_PER_BYTE)).
    { subst byte'. destruct (Z.eqb_spec (category mod BITS_PER_BYTE) 0);
        [reflexivity | auto]. }
    assert (Hm : 0 <= category mod BITS_PER_BYTE).
    { apply Z.mod_pos_bound. reflexivity. }
    rewrite land_bit by exact Hm.
    rewrite seqZ_cons by lia. rewrite filter_cons.
    replace (Z.pred (ncat - category)) with (ncat - Z.succ category) by lia.
    replace (category + 1) with (Z.succ category) by lia.
    assert (Hnext : Z.succ category mod BITS_PER_BYTE <> 0 ->
                    byte' = bits_at cs (set_ + Z.succ category / BITS_PER_BYTE)).
    { intros Hne. rewrite Hb'. unfold BITS_PER_BYTE in *.
      replace (Z.succ category) with (category + 1) in * by lia.
      rewrite same_byte by assumption. reflexivity. }
    rewrite IH by (try exact Hnext; lia).
    assert (Hbit : category_bit cs set_ category =
                   Z.testbit byte' (category mod BITS_PER_BYTE)).
    { unfold category_bit. rewrite <- Hb'. reflexivity. }
    rewrite Hbit.
    destruct (Z.testbit byte' (category mod BITS_PER_BYTE)) eqn:E.
    + rewrite decide_True by reflexivity.
      rewrite <- app_assoc. reflexivity.
    + rewrite decide_False by discriminate. reflexivity.
Qed.

(** The categories listed for a categorical node are those of the domain
    whose bit is set. *)
Lemma elem_of_left_categories (cs : cat_sets) (node : base_node) (c : Z) :
  c ∈ left_categories cs node <->
  0 <= c < F32.to_int (num_cats_at cs (fid node)) /\
  category_bit cs (val node) c = true.
Proof.
  unfold left_categories. cbv zeta.
  rewrite left_categories_loop_spec.
  - rewrite app_nil_l, list_elem_of_filter, elem_of_seqZ. intuition lia.
  - lia.
  - lia.
  - intros H. exfalso. apply H. reflexivity.
Qed.

End Categorical_facts.
(** ** Categorical matching *)

Section Categorical_routing.
Import FIL.

(** No value passes a test against a NaN threshold. *)
Lemma tl_compare_nan (o : Operator) (v : F32.t) :
  tl_compare o v F32.quiet_nan = false.
Proof.
  assert (Hn : F32.ordered v F32.quiet_nan = false).
  { unfold F32.ordered. replace (F32.isnan F32.quiet_nan) with true
      by reflexivity.
    apply andb_false_r. }
  destruct o; try reflexivity; unfold tl_compare, F32.lt, F32.le, F32.gt,
    F32.ge, F32.eq; rewrite Hn; reflexivity.
Qed.

(** A value of the domain of a node without categories is not in its
    set. *)
Lemma category_matches_empty (cs : cat_sets) (node : base_node) (v : F32.t) :
  F32.wf v -> F32.wf (num_cats_at cs (fid node)) ->
  F32.is_integer (num_cats_at cs (fid node)) = true ->
  left_categories cs node = [] ->
  category_matches cs node v = false.
Proof.
  intros Hv Hcount Hint Hempty. unfold category_matches.
  destruct (category_in_domain cs node v) eqn:Hdom; [|reflexivity].
  unfold category_in_domain in Hdom.
  apply negb_true_iff, orb_false_iff in Hdom as [Hdom Hge].
  apply orb_false_iff in Hdom as [Hfin Hneg].
  apply negb_false_iff in Hfin.
  pose proof (to_int_below v _ Hv Hcount Hfin Hneg Hge Hint) as Hc.
  destruct (Z.testbit _ _) eqn:Hbit; [|reflexivity].
  assert (Hin : F32.to_int v ∈ left_categories cs node).
  { apply elem_of_left_categories. split; [exact Hc|exact Hbit]. }
  rewrite Hempty in Hin. inversion Hin.
Qed.

End Categorical_routing.

(** C5.  For a categorical node and a feature value [v].  A NaN is not in
    the set and the walk follows [def_left].  A value that is infinite,
    negative or not below the category count is not in the set either and
    the walk goes to the left child, whatever [def_left] is.  Otherwise the
    answer is bit [floor v mod 8] of byte [floor v / 8] counted from the
    node's set reference, and the walk goes right exactly on a match; for an
    integer-valued category count the category [floor v] lies in
    [0, count), its byte lies among the bytes the node owns, and the match
    agrees with the categories that [node_to_treelite] reads out of the same
    bits.  For a node without categories and an integer-valued count this is
    the routing of the numerical test that [node_to_treelite] and
    [adjust_threshold_to_treelite] hand to the external model in its place:
    from [left_key] and [right_key] that test picks the key of the child the
    walk picks, for every operator and every value. *)
Theorem category_matches_bit (cs : FIL.cat_sets) (node : FIL.base_node)
    (v : F32.t) :
  F32.wf v ->
  F32.wf (FIL.num_cats_at cs (FIL.fid node)) ->
  FIL.is_categorical node = true ->
  let count := FIL.num_cats_at cs (FIL.fid node) in
  let c := F32.to_int v in
  (F32.isnan v = true ->
   FIL.category_matches cs node v = false /\
   FIL.child_cond cs node v = negb (FIL.def_left node)) /\
  (F32.isnan v = false ->
   F32.isfinite v = false \/ F32.lt v F32.pos_zero = true \/
   F32.ge v count = true ->
   FIL.category_matches cs node v = false /\
   FIL.child_cond cs node v = false) /\
  (F32.isfinite v = true -> F32.lt v F32.pos_zero = false ->
   F32.ge v count = false ->
   FIL.category_matches cs node v = category_bit cs (FIL.val node) c /\
   FIL.child_cond cs node v = FIL.category_matches cs node v /\
   (F32.is_integer count = true ->
    0 <= c < F32.to_int count /\
    0 <= c / 8 < FIL.sizeof_mask cs (FIL.fid node) /\
    (FIL.category_matches cs node v = true <->
     c ∈ FIL.left_categories cs node))) /\
  (F32.is_integer count = true -> FIL.left_categories cs node = [] ->
   forall (o : FIL.Operator) (left_key right_key : Z),
     exists threshold tl_left tl_right default_left,
       FIL.adjust_threshold_to_treelite F32.quiet_nan left_key right_key
         (FIL.def_left node) o
       = Some (threshold, tl_left, tl_right, default_left) /\
       FIL.tl_next o threshold tl_left tl_right default_left v
       = if FIL.child_cond cs node v then right_key else left_key).
Proof.
  intros Hv Hcount Hcat count c.
  assert (Hout : F32.isfinite v = false \/ F32.lt v F32.pos_zero = true \/
                 F32.ge v count = true ->
                 FIL.category_matches cs node v = false).
  { intros Hout. unfold FIL.category_matches, FIL.category_in_domain.
    fold count.
    destruct Hout as [H|[H|H]]; rewrite H; simpl;
      rewrite ?orb_true_r; reflexivity. }
  assert (Hnanfin : F32.isnan v = true -> F32.isfinite v = false).
  { unfold F32.isnan, F32.isfinite. intros H%Z.ltb_lt.
    apply Z.ltb_ge. lia. }
  split; [|split; [|split]].
  - intros Hnan. split; [apply Hout; left; auto|].
    unfold FIL.child_cond. rewrite Hnan. reflexivity.
  - intros Hnan Ho. split; [exact (Hout Ho)|].
    unfold FIL.child_cond. rewrite Hnan, Hcat. exact (Hout Ho).
  - intros Hfin Hneg Hge.
    assert (Hdom : FIL.category_in_domain cs node v = true).
    { unfold FIL.category_in_domain. fold count.
      rewrite Hfin, Hneg, Hge. reflexivity. }
    assert (Hm : FIL.category_matches cs node v
                 = category_bit cs (FIL.val node) c).
    { unfold FIL.category_matches. rewrite Hdom. reflexivity. }
    split; [exact Hm|]. split.
    { unfold FIL.child_cond.
      rewrite (isfinite_not_nan v Hfin), Hcat. reflexivity. }
    intros Hint.
    pose proof (to_int_below v count Hv Hcount Hfin Hneg Hge Hint) as Hc.
    fold c in Hc.
    split; [exact Hc|]. split.
    { unfold FIL.sizeof_mask, FIL.BITS_PER_BYTE. fold count.
      split; [apply Z.div_pos; lia|].
      apply Z.div_lt_upper_bound; [lia|].
      pose proof (Z.div_mod (F32.to_int count + 8 - 1) 8 ltac:(lia)).
      pose proof (Z.mod_pos_bound (F32.to_int count + 8 - 1) 8 ltac:(lia)).
      pose proof (Z.div_mod c 8 ltac:(lia)).
      pose proof (Z.mod_pos_bound c 8 ltac:(lia)).
      lia. }
    rewrite Hm, elem_of_left_categories. fold count. intuition.
  - intros Hint Hempty o left_key right_key.
    exists F32.quiet_nan, right_key, left_key, (negb (FIL.def_left node)).
    split; [reflexivity|].
    unfold FIL.tl_next, FIL.child_cond. rewrite tl_compare_nan, Hcat.
    destruct (F32.isnan v); [reflexivity|].
    rewrite (category_matches_empty cs node v Hv Hcount Hint Hempty).
    reflexivity.
Qed.

(** Count 3 with categories 0 and 2 listed: 2.0 matches, 1.0 does not, and
    an infinity goes left. *)
Lemma category_matches_bit_witness :
  let cs := FIL.mkCatSets [0x40400000] [5] in
  let node := FIL.make_dense_node 0 F32.pos_zero 0 true false true in
  FIL.category_matches cs node 0x40000000 = true /\
  FIL.left_categories cs node = [0; 2] /\
  FIL.child_cond cs node F32.pos_inf = false.
Proof.
  intros cs node.
  assert (Hw2 : F32.wf 0x40000000) by (unfold F32.wf; lia).
  assert (Hwi : F32.wf F32.pos_inf) by (unfold F32.wf, F32.pos_inf; lia).
  assert (Hwc : F32.wf (FIL.num_cats_at cs (FIL.fid node)))
    by (vm_compute; split; [discriminate | reflexivity]).
  destruct (category_matches_bit cs node 0x40000000 Hw2 Hwc
              ltac:(reflexivity))
    as (_ & _ & Hin & _).
  destruct (Hin ltac:(reflexivity) ltac:(reflexivity) ltac:(reflexivity))
    as (Hm & _ & _).
  destruct (category_matches_bit cs node F32.pos_inf Hwi Hwc
              ltac:(reflexivity))
    as (_ & Hout & _).
  destruct (Hout ltac:(reflexivity) (or_introl eq_refl)) as [_ Hr].
  split; [|split].
  - rewrite Hm. reflexivity.
  - reflexivity.
  - exact Hr.
Defined.

(** A categorical root with three categories, none of them in its set, and
    [def_left] unset; the left leaf holds 1.0 and the right leaf 2.0.  In
    the words of the specification an infinity, a negative value and a value
    beyond the count follow [def_left], to the right leaf.  The fixture hands the root to the
    external model as a test against a NaN threshold that sends each of them
    to node 1, the left leaf, and so does the walk. *)
Lemma category_routing_counterexample :
  let cs := FIL.mkCatSets [0x40400000] [0] in
  let ps := FIL.mkParams 1 1 1 FIL.RAW F32.pos_zero F32.pos_zero FIL.kLT
              FIL.FLOAT_UNARY_BINARY 1 in
  let root := FIL.make_dense_node 0 0 0 false false true in
  let leaf := fun w => FIL.make_dense_node w 0 0 false true false in
  let nodes := [root; leaf F32.one; leaf 0x40000000] in
  let outside := [F32.pos_inf; F32.neg_inf; 0xBF800000; 0x40A00000] in
  FIL.build_tree ps cs [] nodes 1 0
  = Some [FIL.CreateNode 0;
          FIL.CreateNode 1; FIL.SetLeafNode 1 F32.one;
          FIL.CreateNode 2; FIL.SetLeafNode 2 0x40000000;
          FIL.SetNumericalTestNode 0 0 FIL.kLT F32.quiet_nan true 2 1;
          FIL.SetRootNode 0] /\
  Forall (fun v =>
            FIL.category_in_domain cs root v = false /\
            FIL.tl_next FIL.kLT F32.quiet_nan 2 1 true v = 1 /\
            FIL.infer_one_tree (FIL.child_cond cs) 1 nodes 0 [v] 0
            = Some F32.one /\
            FIL.infer_one_tree (FIL.spec_child_cond cs) 1 nodes 0 [v] 0
            = Some 0x40000000)
         outside /\
  FIL.child_cond cs root F32.pos_inf <> negb (FIL.def_left root).
Proof.
  intros cs ps root leaf nodes outside.
  split; [vm_compute; reflexivity|]. split.
  - unfold outside. repeat constructor.
  - vm_compute. discriminate.
Qed.
(** ** Import into the 8-byte sparse encoding *)

Section Import_facts.
Import FIL.
Variable cap : sparse8_capacity.

Lemma check_sparse8_None (model : tl_model) :
  check_sparse8 cap model = None <->
  (forall t, t ∈ tl_trees model -> Z.of_nat (length t) <= max_tree_nodes cap) /\
  tl_num_feature model <= 2 ^ fid_num_bits cap.
Proof.
  unfold check_sparse8.
  destruct (list_find _ (tl_trees model)) as [[i t]|] eqn:Hfind.
  - split; [discriminate|]. intros [Hall _]. exfalso.
    apply list_find_Some in Hfind as (Hi & Hbig & _).
    apply list_elem_of_lookup_2 in Hi. specialize (Hall t Hi). lia.
  - destruct (Z.ltb_spec (2 ^ fid_num_bits cap) (tl_num_feature model))
      as [Hf|Hf].
    + split; [discriminate|]. intros [_ Hle]. lia.
    + split; [|reflexivity]. intros _. split; [|exact Hf].
      intros t Ht.
      apply list_find_None in Hfind.
      rewrite Forall_forall in Hfind. specialize (Hfind t Ht). lia.
Qed.

End Import_facts.

(** C8.  A model one of whose trees has more nodes than the 8-byte sparse
    encoding addresses, or one of whose feature ids does not fit the
    feature-id field, is refused at import with an unsupported-model error:
    [predict_on_gpu] raises it with the device as it was, no forest alive and
    no prediction started, and the throwing test passes.  When the import
    succeeds the forest is the translation of the whole model, every tree is
    within the node capacity and every feature id is unchanged by reduction
    to the field width. *)
Theorem import_sparse8_rejects (forest_t : Type)
    (convert : FIL.tl_model -> forest_t) (cap : FIL.sparse8_capacity)
    (model : FIL.tl_model) (d : FIL.device) :
  tl_wf model ->
  ((exists t, t ∈ FIL.tl_trees model /\
              FIL.max_tree_nodes cap < Z.of_nat (length t)) \/
   (exists t n, t ∈ FIL.tl_trees model /\ n ∈ t /\
                2 ^ FIL.fid_num_bits cap <= FIL.tl_fid n) ->
   exists e,
     FIL.from_treelite_sparse8 forest_t convert cap model = inl e /\
     FIL.predict_on_gpu forest_t convert cap model d = (Some e, d) /\
     FIL.throw_check forest_t convert cap model d = true) /\
  (forall forest,
     FIL.from_treelite_sparse8 forest_t convert cap model = inr forest ->
     forest = convert model /\
     forall t, t ∈ FIL.tl_trees model ->
       Z.of_nat (length t) <= FIL.max_tree_nodes cap /\
       forall n, n ∈ t ->
         FIL.tl_fid n mod 2 ^ FIL.fid_num_bits cap = FIL.tl_fid n).
Proof.
  intros Hwf. split.
  - intros Hbad.
    assert (Hsome : exists e, FIL.check_sparse8 cap model = Some e).
    { destruct (FIL.check_sparse8 cap model) as [e|] eqn:Hc; [eauto|].
      exfalso. apply check_sparse8_None in Hc as [Hnodes Hfeat].
      destruct Hbad as [(t & Ht & Hbig)|(t & n & Ht & Hn & Hbig)].
      - specialize (Hnodes t Ht). lia.
      - specialize (Hwf t n Ht Hn). lia. }
    destruct Hsome as [e He]. exists e.
    unfold FIL.throw_check, FIL.predict_on_gpu, FIL.from_treelite_sparse8.
    rewrite He. repeat split; reflexivity.
  - intros forest Himp. unfold FIL.from_treelite_sparse8 in Himp.
    destruct (FIL.check_sparse8 cap model) as [e|] eqn:Hc; [discriminate|].
    injection Himp as <-. split; [reflexivity|].
    apply check_sparse8_None in Hc as [Hnodes Hfeat].
    intros t Ht. split; [exact (Hnodes t Ht)|].
    intros n Hn. specialize (Hwf t n Ht Hn).
    apply Z.mod_small. lia.
Qed.

(** Three-bit feature ids and seven nodes per tree: a model that declares
    ten features and uses feature 9 is refused. *)
Lemma import_sparse8_rejects_witness :
  let cap := FIL.mkCapacity 3 7 in
  let model := FIL.mkTlModel 10
    [[FIL.mkTlNode false 9; FIL.mkTlNode true 0; FIL.mkTlNode true 0]] in
  let d := FIL.mkDevice 0 0 in
  FIL.throw_check unit (fun _ => tt) cap model d = true /\
  exists e, FIL.predict_on_gpu unit (fun _ => tt) cap model d = (Some e, d).
Proof.
  intros cap model d.
  assert (Hwf : tl_wf model).
  { intros t n Ht Hn. apply list_elem_of_singleton in Ht. subst t.
    repeat (apply elem_of_cons in Hn as [->|Hn]; [vm_compute; split; [discriminate|reflexivity]|]).
    apply elem_of_nil in Hn. destruct Hn. }
  destruct (import_sparse8_rejects unit (fun _ => tt) cap model d Hwf)
    as [Hrej _].
  destruct Hrej as (e & _ & Hp & Hc).
  { right. exists [FIL.mkTlNode false 9; FIL.mkTlNode true 0; FIL.mkTlNode true 0],
                  (FIL.mkTlNode false 9).
    split; [apply list_elem_of_here|]. split; [apply list_elem_of_here|].
    vm_compute. discriminate. }
  split; [exact Hc | exists e; exact Hp].
Defined.
(** ** [partitionSamples] on arbitrary data *)

(** Whatever the values of the split column (NaN included) and whether or
    not [nLeft] counts the rows that go left, as long as the partition point
    lies in the range and the range in the array: [partitionSamples]
    terminates, writes nothing outside the range, keeps the row ids of the
    range as a multiset, and leaves one of the two halves without a
    misplaced row: no row [> quesval] in the left half or no row
    [<= quesval] in the right half. *)
Theorem partitionSamples_safe (TPB : nat) (input : DT.Input)
    (split : DT.Split) (wi : DT.NodeWorkItem) (lcomp0 rcomp0 : list nat) :
  (0 < TPB)%nat -> length lcomp0 = TPB -> length rcomp0 = TPB ->
  (DT.range_end wi <= length (DT.rowids input))%nat ->
  0 <= DT.nLeft split <= Z.of_nat (DT.range_len wi) ->
  exists rows',
    DT.partitionSamples TPB input split wi lcomp0 rcomp0 = Some rows' /\
    length rows' = length (DT.rowids input) /\
    (forall p, (p < DT.range_start wi \/ DT.range_end wi <= p)%nat ->
       rows' !! p = DT.rowids input !! p) /\
    slice rows' (DT.range_start wi) (DT.range_len wi)
    ≡ₚ slice (DT.rowids input) (DT.range_start wi) (DT.range_len wi) /\
    ((forall p, (DT.range_start wi <= p < DT.part split wi)%nat ->
        is_greater input split (DT.rowid_at rows' p) = false) \/
     (forall p, (DT.part split wi <= p < DT.range_end wi)%nat ->
        goes_left input split (DT.rowid_at rows' p) = false)).
Proof.
  intros HTPB Hl Hr Hend HnLeft.
  assert (DT.part split wi <= DT.range_end wi)%nat as Hpart.
  { unfold DT.part, DT.range_end. lia. }
  destruct (part_loop_inv TPB input split wi HTPB Hpart Hend
              (S (DT.range_len wi))
              (DT.part_init TPB input split wi lcomp0 rcomp0)
              (part_init_inv TPB input split wi HTPB Hpart Hend
                 lcomp0 rcomp0 Hl Hr))
    as (st' & Hloop & [Ilen Iperm Iframe Ilo Iro IcL IcR _ _ _ _] & Hexit).
  { simpl. unfold DT.part, DT.range_end. lia. }
  exists (DT.ps_rowids st').
  unfold DT.partitionSamples. rewrite Hloop. simpl.
  split; [reflexivity|]. split; [assumption|]. split; [exact Iframe|].
  split.
  - apply slice_Permutation; [assumption| |assumption].
    intros p Hp. apply Iframe. unfold DT.range_end. lia.
  - destruct Hexit as [Hx|Hx].
    + left. intros p Hp. apply IcL; lia.
    + right. intros p Hp. apply IcR; lia.
Qed.

(** Two rows holding a NaN and 1.0, and a left count of 1. *)
Lemma partitionSamples_safe_witness :
  let input := DT.mkInput [F32.quiet_nan; F32.one] 2 [0; 1] in
  let split := DT.mkSplit (F32.of_int 2) 0 F32.one 1 in
  let wi := DT.mkNodeWorkItem 0 0 (DT.mkInstanceRange 0 2) in
  exists rows',
    DT.partitionSamples 2 input split wi [0; 0]%nat [0; 0]%nat = Some rows' /\
    length rows' = 2%nat.
Proof.
  intros input split wi.
  destruct (partitionSamples_safe 2 input split wi [0; 0]%nat [0; 0]%nat)
    as (rows' & H1 & H2 & _).
  - lia.
  - reflexivity.
  - reflexivity.
  - vm_compute. lia.
  - vm_compute. split; discriminate.
  - exists rows'. split; [exact H1 | exact H2].
Defined.
(** ** The FNV-1a hash of [select] *)

Section Fnv_facts.
Import DT.

Lemma lxor_byte_range (h b : Z) :
  0 <= h < 2 ^ 32 -> 0 <= b < 2 ^ 8 -> 0 <= Z.lxor h b < 2 ^ 32.
Proof.
  intros Hh Hb.
  assert (H0 : 0 <= Z.lxor h b) by (apply Z.lxor_nonneg; lia).
  split; [exact H0|].
  destruct (Z.eq_dec (Z.lxor h b) 0) as [->|Hne]; [lia|].
  apply Z.log2_lt_pow2; [lia|].
  pose proof (Z.log2_lxor h b ltac:(lia) ltac:(lia)) as Hl.
  assert (Z.log2 h < 32).
  { destruct (Z.eq_dec h 0) as [->|]; [reflexivity|].
    apply Z.log2_lt_pow2; lia. }
  assert (Z.log2 b < 32).
  { destruct (Z.eq_dec b 0) as [->|]; [reflexivity|].
    assert (Z.log2 b < 8) by (apply Z.log2_lt_pow2; lia). lia. }
  lia.
Qed.

Lemma byte_range (txt k : Z) : 0 <= Z.land (Z.shiftr txt k) 0xFF < 2 ^ 8.
Proof.
  change 0xFF with (Z.ones 8). rewrite Z.land_ones by lia.
  apply Z.mod_pos_bound. lia.
Qed.

Lemma wrap_u32_range (z : Z) : 0 <= wrap_u32 z < 2 ^ 32.
Proof. unfold wrap_u32. apply Z.mod_pos_bound. lia. Qed.

(** Multiplication by the FNV prime is undone, modulo 2^32, by
    multiplication by 899433627. *)
Lemma mul_prime_inj (x y : Z) :
  0 <= x < 2 ^ 32 -> 0 <= y < 2 ^ 32 ->
  wrap_u32 (x * fnv1a32_prime) = wrap_u32 (y * fnv1a32_prime) -> x = y.
Proof.
  intros Hx Hy Heq. unfold wrap_u32 in Heq.
  assert (Hinv : forall z, 0 <= z < 2 ^ 32 ->
            ((z * fnv1a32_prime) mod 2 ^ 32 * 899433627) mod 2 ^ 32 = z).
  { intros z Hz. rewrite Z.mul_mod_idemp_l by lia.
    rewrite <- Z.mul_assoc.
    change (fnv1a32_prime * 899433627) with (1 + 3513497 * 2 ^ 32).
    rewrite Z.mul_add_distr_l, Z.mul_1_r, Z.mul_assoc.
    rewrite Z.mod_add by lia. apply Z.mod_small. exact Hz. }
  rewrite <- (Hinv x Hx), <- (Hinv y Hy), Heq. reflexivity.
Qed.

Lemma lxor_inj_l (h h' b : Z) : Z.lxor h b = Z.lxor h' b -> h = h'.
Proof.
  intros H.
  assert (Hc : forall x, Z.lxor (Z.lxor x b) b = x).
  { intros x. rewrite Z.lxor_assoc, Z.lxor_nilpotent, Z.lxor_0_r.
    reflexivity. }
  rewrite <- (Hc h), <- (Hc h'), H. reflexivity.
Qed.

Lemma fnv_round_inj (h h' b : Z) :
  0 <= h < 2 ^ 32 -> 0 <= h' < 2 ^ 32 -> 0 <= b < 2 ^ 8 ->
  wrap_u32 (Z.lxor h b * fnv1a32_prime) = wrap_u32 (Z.lxor h' b * fnv1a32_prime) ->
  h = h'.
Proof.
  intros Hh Hh' Hb Heq.
  apply (lxor_inj_l h h' b).
  apply mul_prime_inj; [apply lxor_byte_range | apply lxor_byte_range | ];
    assumption.
Qed.

Lemma fnv1a32_inj_state (h h' txt : Z) :
  0 <= h < 2 ^ 32 -> 0 <= h' < 2 ^ 32 ->
  fnv1a32 h txt = fnv1a32 h' txt -> h = h'.
Proof.
  intros Hh Hh'. unfold fnv1a32. cbv zeta. intros H.
  pose proof (byte_range txt 0) as B0. pose proof (byte_range txt 8) as B1.
  pose proof (byte_range txt 16) as B2. pose proof (byte_range txt 24) as B3.
  apply fnv_round_inj in H; [|apply wrap_u32_range|apply wrap_u32_range|exact B3].
  apply fnv_round_inj in H; [|apply wrap_u32_range|apply wrap_u32_range|exact B2].
  apply fnv_round_inj in H; [|apply wrap_u32_range|apply wrap_u32_range|exact B1].
  apply fnv_round_inj in H; [exact H|exact Hh|exact Hh'|exact B0].
Qed.

End Fnv_facts.

(** One call of [fnv1a32] yields a 32-bit value and maps distinct 32-bit
    hash states to distinct states, whatever the word it absorbs. *)
Theorem fnv1a32_injective (h h' txt : Z) :
  0 <= h < 2 ^ 32 -> 0 <= h' < 2 ^ 32 ->
  0 <= DT.fnv1a32 h txt < 2 ^ 32 /\
  (DT.fnv1a32 h txt = DT.fnv1a32 h' txt -> h = h').
Proof.
  intros Hh Hh'. split; [apply wrap_u32_range|].
  apply fnv1a32_inj_state; assumption.
Qed.

Lemma fnv1a32_injective_witness :
  0 <= DT.fnv1a32 DT.fnv1a32_basis 7 < 2 ^ 32.
Proof.
  apply (fnv1a32_injective DT.fnv1a32_basis 0 7);
    vm_compute; split; discriminate || reflexivity.
Defined.

(** Two candidates of [select] collide under one (tree, node, seed) exactly
    when they collide under every other: their hashes are equal as soon as
    the hashes of the bare indices are. *)
Theorem select_hash_collisions (treeid nodeid seed i k : Z) :
  DT.select_hash treeid nodeid seed i = DT.select_hash treeid nodeid seed k <->
  DT.fnv1a32 DT.fnv1a32_basis (wrap_u32 i)
  = DT.fnv1a32 DT.fnv1a32_basis (wrap_u32 k).
Proof.
  assert (R : forall h t, 0 <= DT.fnv1a32 h t < 2 ^ 32)
    by (intros; apply wrap_u32_range).
  unfold DT.select_hash. cbv zeta. split.
  - intros H.
    apply fnv1a32_inj_state in H; [|apply R|apply R].
    apply fnv1a32_inj_state in H; [|apply R|apply R].
    apply fnv1a32_inj_state in H; [|apply R|apply R].
    apply fnv1a32_inj_state in H; [exact H|apply R|apply R].
  - intros H. rewrite H. reflexivity.
Qed.
(** ** [lower_bound] is monotone *)

(** Over non-decreasing boundaries a larger value never lands in an earlier
    bin: for [d1 <= d2], the bin of [d1] is at or before the bin of [d2]. *)
Theorem lower_bound_monotone (sbins : list F32.t) (nbins : Z)
    (d1 d2 : F32.t) :
  1 <= nbins <= 2 ^ 30 ->
  sbins_sorted sbins nbins ->
  F32.le d1 d2 = true ->
  exists r1 r2,
    DT.lower_bound sbins nbins d1 = Some r1 /\
    DT.lower_bound sbins nbins d2 = Some r2 /\
    r1 <= r2.
Proof.
  intros Hn Hsorted Hle. unfold DT.lower_bound.
  rewrite (wrap_int_small (nbins - 1)) by lia.
  destruct (lower_bound_loop_spec sbins d1 nbins ltac:(lia) (Z.to_nat nbins)
              0 (nbins - 1)) as (r1 & Hr1 & Hrange1 & Hleft1 & _);
    [lia|lia|lia|].
  destruct (lower_bound_loop_spec sbins d2 nbins ltac:(lia) (Z.to_nat nbins)
              0 (nbins - 1)) as (r2 & Hr2 & Hrange2 & _ & Hright2);
    [lia|lia|lia|].
  exists r1, r2. split; [exact Hr1|]. split; [exact Hr2|].
  destruct (Z.le_gt_cases r1 r2) as [|Hgt]; [assumption|exfalso].
  apply le_true_key in Hle as (_ & Hd2 & Hk).
  destruct Hleft1 as [->|Hleft1]; [lia|].
  apply lt_true_key in Hleft1 as (_ & _ & Hk1).
  destruct Hright2 as [->|Hright2]; [lia|].
  pose proof (Hsorted r2 (r2 + 1) ltac:(lia) ltac:(lia)) as Hs.
  apply le_true_key in Hs as (Hnr & _ & _).
  rewrite <- (negb_involutive (F32.lt _ _)) in Hright2.
  rewrite <- ge_not_lt in Hright2 by assumption.
  apply negb_false_iff in Hright2.
  apply ge_true_key in Hright2 as (_ & _ & Hk2).
  destruct (Z.eq_dec r2 (r1 - 1)) as [E|E].
  - rewrite E in Hk2. lia.
  - pose proof (Hsorted r2 (r1 - 1) ltac:(lia) ltac:(lia)) as Hs'.
    apply le_true_key in Hs' as (_ & _ & Hs'). lia.
Qed.

Lemma lower_bound_monotone_witness :
  exists r1 r2,
    DT.lower_bound [F32.pos_zero; F32.one; 0x40000000] 3 0x3F000000 = Some r1 /\
    DT.lower_bound [F32.pos_zero; F32.one; 0x40000000] 3 0x3FC00000 = Some r2 /\
    r1 <= r2.
Proof.
  apply lower_bound_monotone.
  - lia.
  - intros i j Hi Hj.
    assert (i = 0 /\ j = 1 \/ i = 0 /\ j = 2 \/ i = 1 /\ j = 2)
      as [[-> ->]|[[-> ->]|[-> ->]]] by lia; reflexivity.
  - reflexivity.
Defined.
(** ** [pdf_to_cdf] *)

Section Pdf_to_cdf_facts.
Import DT.
Context {BinT : Type}.
Variable bin_zero : BinT.
Variable bin_add : BinT -> BinT -> BinT.
Variable TPB : nat.
Hypothesis add_assoc :
  forall a b c, bin_add a (bin_add b c) = bin_add (bin_add a b) c.
Hypothesis add_comm : forall a b, bin_add a b = bin_add b a.
Hypothesis add_zero : forall a, bin_add bin_zero a = a.

Local Abbreviation sum := (bin_sum bin_zero bin_add).

Lemma sum_app (l1 l2 : list BinT) :
  sum (l1 ++ l2) = bin_add (sum l1) (sum l2).
Proof.
  unfold bin_sum. induction l1 as [|x l1 IH]; simpl.
  - rewrite add_zero. reflexivity.
  - rewrite IH. apply add_assoc.
Qed.

Lemma add_zero_r (a : BinT) : bin_add a bin_zero = a.
Proof. rewrite add_comm. apply add_zero. Qed.

Lemma inclusive_sum_from_spec (l : list BinT) :
  forall acc,
  inclusive_sum_from BinT bin_add acc l
  = (map (fun t => bin_add acc (sum (take (S t) l))) (seq 0 (length l)),
     bin_add acc (sum l)).
Proof.
  induction l as [|x l IH]; intros acc.
  - simpl. rewrite add_zero_r. reflexivity.
  - cbn [inclusive_sum_from length]. rewrite IH.
    change (seq 0 (S (length l))) with (0%nat :: seq 1 (length l)).
    rewrite <- fmap_S_seq. cbn [map]. f_equal.
    + f_equal.
      * simpl. rewrite add_zero_r. reflexivity.
      * change (@map) with (@fmap list _). rewrite <- list_fmap_compose.
        apply list_fmap_ext. intros i t _. simpl.
        rewrite add_assoc. reflexivity.
    + simpl. rewrite add_assoc. reflexivity.
Qed.

Lemma InclusiveSum_spec (l : list BinT) :
  InclusiveSum BinT bin_zero bin_add l
  = (map (fun t => sum (take (S t) l)) (seq 0 (length l)), sum l).
Proof.
  destruct l as [|x l]; [reflexivity|].
  unfold InclusiveSum. rewrite inclusive_sum_from_spec.
  cbn [length].
  change (seq 0 (S (length l))) with (0%nat :: seq 1 (length l)).
  rewrite <- fmap_S_seq. cbn [map]. f_equal. f_equal.
  - simpl. rewrite add_zero_r. reflexivity.
  - change (@map) with (@fmap list _). rewrite <- list_fmap_compose.
    apply list_fmap_ext. intros i t _. reflexivity.
Qed.

Lemma write_fold_length (val : nat -> BinT) (base nbins n : nat) :
  forall h : list BinT,
  length (foldl (fun h t =>
                   if (base + t <? nbins)%nat then <[ (base + t)%nat := val t ]> h
                   else h) h (seq 0 n))
  = length h.
Proof.
  induction n as [|n IH]; intros h; [reflexivity|].
  rewrite seq_S, foldl_app. simpl.
  destruct (base + n <? nbins)%nat; [rewrite length_insert|]; apply IH.
Qed.

Lemma write_fold_lookup (val : nat -> BinT) (base nbins n : nat)
    (h : list BinT) (i : nat) :
  (i < length h)%nat ->
  foldl (fun h t =>
           if (base + t <? nbins)%nat then <[ (base + t)%nat := val t ]> h
           else h) h (seq 0 n) !! i
  = if decide (base <= i < base + n /\ i < nbins)%nat
    then Some (val (i - base)%nat) else h !! i.
Proof.
  intros Hi. induction n as [|n IH].
  - simpl. rewrite decide_False by lia. reflexivity.
  - rewrite seq_S, foldl_app. simpl.
    destruct (Nat.ltb_spec (base + n)%nat nbins) as [Hlt|Hge].
    + destruct (Nat.eq_dec i (base + n)%nat) as [->|Hne].
      * rewrite list_lookup_insert_eq
          by (rewrite write_fold_length; exact Hi).
        rewrite decide_True by lia. do 2 f_equal. lia.
      * rewrite list_lookup_insert_ne by lia. rewrite IH.
        destruct (decide (base <= i < base + n /\ i < nbins)%nat);
          [rewrite decide_True by lia|rewrite decide_False by lia];
          reflexivity.
    + rewrite IH.
      destruct (decide (base <= i < base + n /\ i < nbins)%nat);
        [rewrite decide_True by lia|rewrite decide_False by lia];
        reflexivity.
Qed.

(** The histogram read with zeros from [nbins] on, and its prefix sums. *)
Let padded (hist : list BinT) (nbins i : nat) : BinT :=
  if (i <? nbins)%nat then hist_at BinT bin_zero hist i else bin_zero.
Let prefix (hist : list BinT) (nbins k : nat) : BinT :=
  sum (map (padded hist nbins) (seq 0 k)).

Lemma prefix_add (hist : list BinT) (nbins a b : nat) :
  prefix hist nbins (a + b)
  = bin_add (prefix hist nbins a) (sum (map (padded hist nbins) (seq a b))).
Proof. unfold prefix. rewrite seq_app, map_app, sum_app. reflexivity. Qed.

Lemma padded_take (hist : list BinT) (nbins k : nat) :
  (k <= nbins)%nat -> (k <= length hist)%nat ->
  map (padded hist nbins) (seq 0 k) = take k hist.
Proof.
  intros Hk Hl. induction k as [|k IH]; [reflexivity|].
  rewrite seq_S, map_app, IH by lia. simpl.
  destruct (lookup_lt_is_Some_2 hist k ltac:(lia)) as [x Hx].
  rewrite (take_S_r _ _ _ Hx). f_equal.
  unfold padded, hist_at. rewrite Hx.
  destruct (Nat.ltb_spec k nbins); [reflexivity|lia].
Qed.

Lemma sum_zeros (hist : list BinT) (nbins a b : nat) :
  (nbins <= a)%nat -> sum (map (padded hist nbins) (seq a b)) = bin_zero.
Proof.
  intros Ha. revert a Ha. induction b as [|b IH]; intros a Ha; [reflexivity|].
  simpl. unfold bin_sum in *. simpl. rewrite (IH (S a)) by lia.
  unfold padded. destruct (Nat.ltb_spec a nbins); [lia|]. apply add_zero.
Qed.

(** What holds after [j] trips. *)
Let Inv (hist : list BinT) (nbins j : nat) (st : list BinT * BinT) : Prop :=
  length (fst st) = length hist /\
  snd st = prefix hist nbins (j * TPB) /\
  (forall i, (i < j * TPB)%nat -> (i < nbins)%nat ->
     fst st !! i = Some (prefix hist nbins (S i))) /\
  (forall i, (j * TPB <= i \/ nbins <= i)%nat -> fst st !! i = hist !! i).

Lemma pdf_to_cdf_trip_inv (hist : list BinT) (nbins j : nat)
    (st : list BinT * BinT) :
  (nbins <= length hist)%nat ->
  Inv hist nbins j st ->
  Inv hist nbins (S j) (pdf_to_cdf_trip BinT bin_zero bin_add TPB nbins st j).
Proof.
  intros Hn. destruct st as [h total].
  intros (Hlen & Htot & Hdone & Hrest). simpl in Hlen, Htot, Hdone, Hrest.
  unfold pdf_to_cdf_trip.
  set (base := (j * TPB)%nat) in *.
  assert (Hel : map (fun t => if (base + t <? nbins)%nat
                              then hist_at BinT bin_zero h (base + t)
                              else bin_zero) (seq 0 TPB)
                = map (padded hist nbins) (seq base TPB)).
  { assert (Hseq : seq base TPB = Nat.add base <$> seq 0 TPB)
      by (rewrite fmap_add_seq; f_equal; lia).
    rewrite Hseq.
    change (@map) with (@fmap list _). rewrite <- list_fmap_compose.
    apply list_fmap_ext. intros i t _. simpl. unfold padded, hist_at.
    rewrite Hrest by lia. reflexivity. }
  rewrite Hel, InclusiveSum_spec. rewrite length_map, length_seq.
  set (result := map _ (seq 0 TPB)).
  assert (Hres : forall t, (t < TPB)%nat ->
            bin_add (default bin_zero (result !! t)) total
            = prefix hist nbins (S (base + t)%nat)).
  { intros t Ht. unfold result.
    change (@map) with (@fmap list _).
    rewrite list_lookup_fmap, lookup_seq_lt by exact Ht. simpl.
    rewrite <- fmap_take, take_seq, Nat.min_l by lia.
    rewrite Htot, add_comm.
    replace (S (base + t)%nat) with (base + S t)%nat by lia.
    symmetry. apply prefix_add. }
  unfold Inv. cbn [fst snd].
  replace (S j * TPB)%nat with (base + TPB)%nat by (unfold base; lia).
  split; [rewrite write_fold_length; exact Hlen|].
  split; [rewrite Htot; symmetry; apply prefix_add|].
  split.
  - intros i Hi Hin.
    rewrite write_fold_lookup by lia.
    destruct (decide (base <= i < base + TPB /\ i < nbins)%nat) as [Hd|Hd].
    + rewrite Hres by lia. do 2 f_equal. lia.
    + apply Hdone; lia.
  - intros i Hi.
    destruct (Nat.lt_ge_cases i (length h)) as [Hlt|Hge].
    + rewrite write_fold_lookup by exact Hlt.
      rewrite decide_False by lia. apply Hrest. lia.
    + rewrite lookup_ge_None_2 by (rewrite write_fold_length; exact Hge).
      symmetry. apply lookup_ge_None_2. lia.
Qed.

Lemma pdf_to_cdf_trips_inv (hist : list BinT) (nbins n : nat) :
  (nbins <= length hist)%nat ->
  Inv hist nbins n
    (foldl (pdf_to_cdf_trip BinT bin_zero bin_add TPB nbins) (hist, bin_zero)
       (seq 0 n)).
Proof.
  intros Hn. induction n as [|n IH].
  - simpl. unfold Inv. cbn [fst snd]. repeat split; try reflexivity.
    intros i Hi. lia.
  - rewrite seq_S, foldl_app. simpl. apply pdf_to_cdf_trip_inv; assumption.
Qed.

Lemma ceildiv_covers (a b : nat) : (0 < b)%nat -> (a <= ceildiv a b * b)%nat.
Proof.
  intros Hb. unfold ceildiv.
  pose proof (Nat.div_mod (a + b - 1) b ltac:(lia)).
  pose proof (Nat.mod_upper_bound (a + b - 1) b ltac:(lia)). nia.
Qed.

Lemma pdf_to_cdf_spec (hist : list BinT) (nbins : nat) :
  (0 < TPB)%nat -> (nbins <= length hist)%nat ->
  let r := pdf_to_cdf BinT bin_zero bin_add TPB hist nbins in
  length (fst r) = length hist /\
  (forall i, (i < nbins)%nat -> fst r !! i = Some (sum (take (S i) hist))) /\
  (forall i, (nbins <= i)%nat -> fst r !! i = hist !! i) /\
  snd r = sum (take nbins hist).
Proof.
  intros HTPB Hn r.
  destruct (pdf_to_cdf_trips_inv hist nbins (ceildiv nbins TPB) Hn)
    as (Hlen & Htot & Hdone & Hrest).
  fold (pdf_to_cdf BinT bin_zero bin_add TPB hist nbins) in Hlen, Htot, Hdone, Hrest.
  fold r in Hlen, Htot, Hdone, Hrest.
  pose proof (ceildiv_covers nbins TPB HTPB) as Hcov.
  split; [exact Hlen|]. split; [|split].
  - intros i Hi. rewrite Hdone by lia. f_equal.
    unfold prefix. rewrite padded_take by lia. reflexivity.
  - intros i Hi. apply Hrest. lia.
  - rewrite Htot.
    replace (ceildiv nbins TPB * TPB)%nat
      with (nbins + (ceildiv nbins TPB * TPB - nbins))%nat by lia.
    rewrite prefix_add, sum_zeros by lia.
    rewrite add_zero_r. unfold prefix. rewrite padded_take by lia.
    reflexivity.
Qed.

End Pdf_to_cdf_facts.

(** For a bin type whose [+] is associative and commutative with [BinT()]
    as neutral element, [pdf_to_cdf] turns the first [nbins] entries of the
    histogram into their running sums, in place, leaves the entries after
    them alone, and returns the sum of the [nbins] entries, however [nbins]
    compares with the block size. *)
Theorem pdf_to_cdf_prefix_sums {BinT : Type} (bin_zero : BinT)
    (bin_add : BinT -> BinT -> BinT) (TPB : nat) (hist : list BinT)
    (nbins : nat) :
  (forall a b c, bin_add a (bin_add b c) = bin_add (bin_add a b) c) ->
  (forall a b, bin_add a b = bin_add b a) ->
  (forall a, bin_add bin_zero a = a) ->
  (0 < TPB)%nat -> (nbins <= length hist)%nat ->
  let r := DT.pdf_to_cdf BinT bin_zero bin_add TPB hist nbins in
  length (fst r) = length hist /\
  (forall i, (i < nbins)%nat ->
     fst r !! i = Some (bin_sum bin_zero bin_add (take (S i) hist))) /\
  (forall i, (nbins <= i)%nat -> fst r !! i = hist !! i) /\
  snd r = bin_sum bin_zero bin_add (take nbins hist).
Proof.
  intros Hassoc Hcomm Hzero HTPB Hn.
  exact (pdf_to_cdf_spec bin_zero bin_add TPB Hassoc Hcomm Hzero hist nbins
           HTPB Hn).
Qed.

(** Five integer bins scanned by a block of two threads, with a sixth entry
    that does not belong to the histogram. *)
Lemma pdf_to_cdf_prefix_sums_witness :
  let r := DT.pdf_to_cdf Z 0 Z.add 2 [1; 2; 3; 4; 5; 7] 5 in
  fst r !! 4%nat = Some 15 /\ fst r !! 5%nat = Some 7 /\ snd r = 15.
Proof.
  intros r.
  destruct (pdf_to_cdf_prefix_sums 0 Z.add 2 [1; 2; 3; 4; 5; 7] 5)
    as (_ & Hin & Hout & Htot).
  - intros; lia.
  - intros; lia.
  - intros; lia.
  - lia.
  - simpl. lia.
  - fold r in Hin, Hout, Htot.
    rewrite (Hin 4%nat) by lia. rewrite (Hout 5%nat) by lia. rewrite Htot.
    repeat split.
Defined.
(** ** The random bits of the fixture *)

Section Bernoulli_facts.
Import FIL.

Lemma key_one : F32.key F32.one = 1065353216.
Proof. reflexivity. Qed.

Lemma fmin_one_bound (u : Z) :
  F32.isnan (fmin u F32.one) = false /\
  F32.key (fmin u F32.one) <= F32.key F32.one.
Proof.
  unfold fmin. destruct (F32.isnan u) eqn:Hu; [split; [reflexivity|lia]|].
  change (F32.isnan F32.one) with false. cbv iota.
  unfold F32.lt, F32.ordered. rewrite Hu.
  change (F32.isnan F32.one) with false. simpl negb. simpl andb.
  destruct (Z.ltb_spec (F32.key F32.one) (F32.key u)).
  - split; [reflexivity|lia].
  - split; [exact Hu|lia].
Qed.

Lemma fmax_zero_bound (m : Z) :
  F32.isnan m = false -> F32.key m <= F32.key F32.one ->
  F32.isnan (fmax m F32.pos_zero) = false /\
  0 <= F32.key (fmax m F32.pos_zero) <= F32.key F32.one.
Proof.
  intros Hm Hk. unfold fmax. rewrite Hm.
  change (F32.isnan F32.pos_zero) with false. cbv iota.
  unfold F32.lt, F32.ordered. rewrite Hm.
  change (F32.isnan F32.pos_zero) with false. simpl negb. simpl andb.
  change (F32.key F32.pos_zero) with 0.
  destruct (Z.ltb_spec (F32.key m) 0).
  - split; [reflexivity|]. change (F32.key F32.pos_zero) with 0.
    rewrite key_one. lia.
  - split; [exact Hm|lia].
Qed.

End Bernoulli_facts.

(** Each sample of [hard_clipped_bernoulli] is 0.0 or 1.0, whatever the
    uniform generator delivers (a NaN or a value outside [0, 1] included);
    with a probability of zero equal to 0 no sample is 0.0, and with a
    probability of zero equal to 1 no sample is 1.0. *)
Theorem hard_clipped_bernoulli_values (prob_of_zero uniform_0_1 : F32.t) :
  (FIL.hard_clipped_bernoulli prob_of_zero uniform_0_1 = F32.one \/
   FIL.hard_clipped_bernoulli prob_of_zero uniform_0_1 = F32.pos_zero) /\
  (F32.eq prob_of_zero F32.pos_zero = true ->
   FIL.hard_clipped_bernoulli prob_of_zero uniform_0_1 = F32.one) /\
  (F32.eq prob_of_zero F32.one = true ->
   FIL.hard_clipped_bernoulli prob_of_zero uniform_0_1 = F32.pos_zero).
Proof.
  unfold FIL.hard_clipped_bernoulli. cbv zeta. split; [|split].
  - destruct (F32.eq prob_of_zero F32.pos_zero); [left; reflexivity|].
    destruct (F32.gt _ prob_of_zero); [left|right]; reflexivity.
  - intros ->. reflexivity.
  - intros Hp.
    unfold F32.eq, F32.ordered in Hp.
    apply andb_true_iff in Hp as [Hord Hk]. apply Z.eqb_eq in Hk.
    apply andb_true_iff in Hord as [Hpn _]. apply negb_true_iff in Hpn.
    assert (Hne : F32.eq prob_of_zero F32.pos_zero = false).
    { unfold F32.eq. change (F32.key F32.pos_zero) with 0.
      rewrite Hk, key_one. apply andb_false_r. }
    rewrite Hne.
    destruct (fmin_one_bound uniform_0_1) as [Hmn Hmk].
    destruct (fmax_zero_bound _ Hmn Hmk) as [Htn Htk].
    unfold F32.gt, F32.ordered. rewrite Htn, Hpn. simpl negb. simpl andb.
    destruct (Z.ltb_spec (F32.key prob_of_zero)
                (F32.key (FIL.fmax (FIL.fmin uniform_0_1 F32.one)
                            F32.pos_zero))); [lia|reflexivity].
Qed.
(** ** Element-wise kernels of the fixture *)

Section Launch_facts.
Import FIL.
Context {A : Type}.
Variables (gridDim blockDim : nat).
Variable kernel : nat -> nat -> list A -> list A.
Variable guard : nat -> bool.
Variable value : nat -> A.
Hypothesis kernel_pointwise :
  forall b t s, (b < gridDim)%nat -> (t < blockDim)%nat ->
  kernel b t s
  = if guard (b * blockDim + t)%nat
    then <[ (b * blockDim + t)%nat := value (b * blockDim + t)%nat ]> s
    else s.

Lemma launch_block_length (b n : nat) (s : list A) :
  (b < gridDim)%nat -> (n <= blockDim)%nat ->
  length (foldl (fun s t => kernel b t s) s (seq 0 n)) = length s.
Proof.
  intros Hb. induction n as [|n IH]; intros Hn; [reflexivity|].
  rewrite seq_S, foldl_app. simpl. rewrite kernel_pointwise by lia.
  destruct (guard _); [rewrite length_insert|]; apply IH; lia.
Qed.

Lemma launch_block_lookup (b n : nat) (s : list A) (i : nat) :
  (b < gridDim)%nat -> (n <= blockDim)%nat ->
  foldl (fun s t => kernel b t s) s (seq 0 n) !! i
  = if decide ((b * blockDim <= i < b * blockDim + n)%nat /\
               guard i = true /\ (i < length s)%nat)
    then Some (value i) else s !! i.
Proof.
  intros Hb. induction n as [|n IH]; intros Hn.
  - simpl. rewrite decide_False by lia. reflexivity.
  - rewrite seq_S, foldl_app. simpl. rewrite kernel_pointwise by lia.
    specialize (IH ltac:(lia)).
    destruct (Nat.eq_dec i (b * blockDim + n)%nat) as [->|Hne].
    + destruct (guard (b * blockDim + n)%nat) eqn:Hg.
      * destruct (Nat.lt_ge_cases (b * blockDim + n)%nat (length s))
          as [Hlt|Hge].
        -- rewrite list_lookup_insert_eq
             by (rewrite launch_block_length by lia; exact Hlt).
           rewrite decide_True by (repeat split; lia || assumption).
           reflexivity.
        -- rewrite decide_False by lia.
           rewrite lookup_ge_None_2
             by (rewrite length_insert, launch_block_length by lia; exact Hge).
           symmetry. apply lookup_ge_None_2. exact Hge.
      * rewrite IH.
        rewrite !decide_False
          by (intros (Hr & Hc & _); congruence || lia).
        reflexivity.
    + assert (Hstep : forall s' : list A,
                (if guard (b * blockDim + n)%nat
                 then <[ (b * blockDim + n)%nat := value (b * blockDim + n)%nat ]> s'
                 else s') !! i = s' !! i).
      { intros s'. destruct (guard (b * blockDim + n)%nat); [|reflexivity].
        apply list_lookup_insert_ne. lia. }
      rewrite Hstep, IH.
      destruct (decide ((b * blockDim <= i < b * blockDim + n)%nat /\
                        guard i = true /\ (i < length s)%nat)) as [Hd|Hd].
      * rewrite decide_True by (destruct Hd as (? & ? & ?); repeat split; lia || assumption).
        reflexivity.
      * rewrite decide_False; [reflexivity|].
        intros (H1 & H2 & H3). apply Hd. repeat split; lia || assumption.
Qed.

Lemma launch_length_upto (g : nat) (s : list A) :
  (g <= gridDim)%nat ->
  length (foldl (fun s b => foldl (fun s t => kernel b t s) s (seq 0 blockDim))
            s (seq 0 g)) = length s.
Proof.
  induction g as [|g IH]; intros Hg; [reflexivity|].
  rewrite seq_S, foldl_app. simpl.
  rewrite launch_block_length by lia. apply IH. lia.
Qed.

Lemma launch_lookup_upto (g : nat) (s : list A) (i : nat) :
  (g <= gridDim)%nat ->
  foldl (fun s b => foldl (fun s t => kernel b t s) s (seq 0 blockDim))
    s (seq 0 g) !! i
  = if decide ((i < g * blockDim)%nat /\ guard i = true /\ (i < length s)%nat)
    then Some (value i) else s !! i.
Proof.
  induction g as [|g IH]; intros Hg.
  - rewrite decide_False by lia. reflexivity.
  - rewrite seq_S, foldl_app. cbn [foldl Nat.add].
    rewrite launch_block_lookup by lia.
    rewrite launch_length_upto by lia. rewrite IH by lia.
    destruct (decide ((g * blockDim <= i < g * blockDim + blockDim)%nat /\
                      guard i = true /\ (i < length s)%nat)) as [Hd|Hd].
    + rewrite decide_True by (destruct Hd as (? & ? & ?); repeat split; lia || assumption).
      reflexivity.
    + destruct (decide ((i < g * blockDim)%nat /\ guard i = true /\
                        (i < length s)%nat)) as [Hd'|Hd'].
      * rewrite decide_True by (destruct Hd' as (? & ? & ?); repeat split; lia || assumption).
        reflexivity.
      * rewrite decide_False; [reflexivity|].
        intros (H1 & H2 & H3).
        destruct (Nat.lt_ge_cases i (g * blockDim)%nat).
        -- apply Hd'. repeat split; assumption.
        -- apply Hd. repeat split; lia || assumption.
Qed.

(** A launch of a kernel whose thread [idx] writes [value idx] to element
    [idx] when [guard idx] holds does this to every element the grid
    covers. *)
Lemma launch_pointwise (s : list A) :
  length (launch gridDim blockDim kernel s) = length s /\
  forall i,
    launch gridDim blockDim kernel s !! i
    = if decide ((i < gridDim * blockDim)%nat /\ guard i = true /\
                 (i < length s)%nat)
      then Some (value i) else s !! i.
Proof.
  unfold launch. split.
  - apply launch_length_upto. lia.
  - intros i. apply launch_lookup_upto. lia.
Qed.

End Launch_facts.
(** ** [nan_kernel] and [floats_to_bit_stream_k] *)

(** Launched on a grid that covers the data (and whose thread ids fit an
    [int]), [nan_kernel] replaces by the NaN exactly the elements whose mask
    entry is false, and keeps the others and the length of the array. *)
Theorem nan_kernel_masks (mask : list bool) (nan : F32.t)
    (gridDim blockDim : nat) (data : list F32.t) :
  Z.of_nat (gridDim * blockDim) <= 2 ^ 31 ->
  (length data <= gridDim * blockDim)%nat ->
  length mask = length data ->
  let data' :=
    FIL.launch gridDim blockDim
      (FIL.nan_kernel mask (Z.of_nat (length data)) nan blockDim) data in
  length data' = length data /\
  forall (i : nat) (x : F32.t) (m : bool),
    data !! i = Some x -> mask !! i = Some m ->
    data' !! i = Some (if m then x else nan).
Proof.
  intros Hint Hcov Hmask data'.
  pose (guard := fun idx : nat =>
                   (idx <? length data)%nat
                   && negb (default false (mask !! idx))).
  assert (Hk : forall b t s, (b < gridDim)%nat -> (t < blockDim)%nat ->
            FIL.nan_kernel mask (Z.of_nat (length data)) nan blockDim b t s
            = if guard (b * blockDim + t)%nat
              then <[ (b * blockDim + t)%nat := nan ]> s else s).
  { intros b t s Hb Ht. unfold FIL.nan_kernel, guard. cbv zeta beta.
    assert (Hidx : (b * blockDim + t < gridDim * blockDim)%nat) by nia.
    assert (Htid : wrap_int (Z.of_nat t
                     + wrap_u32 (Z.of_nat b * Z.of_nat blockDim))
                   = Z.of_nat (b * blockDim + t)).
    { unfold wrap_u32. rewrite Z.mod_small by nia.
      rewrite wrap_int_small by nia. lia. }
    rewrite Htid, Nat2Z.id.
    destruct (Z.leb_spec (Z.of_nat (length data)) (Z.of_nat (b * blockDim + t)));
      destruct (Nat.ltb_spec (b * blockDim + t) (length data)); try lia;
      reflexivity. }
  destruct (launch_pointwise gridDim blockDim _ guard (fun _ : nat => nan)
              Hk data) as [Hlen Hlook].
  split; [exact Hlen|].
  intros i x m Hx Hm. unfold data'. rewrite Hlook.
  pose proof (lookup_lt_Some _ _ _ Hx) as Hi.
  unfold guard. rewrite Hm. simpl.
  destruct (Nat.ltb_spec i (length data)); [|lia]. simpl.
  destruct m; simpl.
  - rewrite decide_False by (intros (_ & Hc & _); discriminate). exact Hx.
  - rewrite decide_True by (repeat split; lia). reflexivity.
Qed.

Lemma nan_kernel_masks_witness :
  FIL.launch 2 2 (FIL.nan_kernel [true; false; true] 3 F32.quiet_nan 2)
    [F32.one; F32.one; F32.pos_zero]
  !! 1%nat = Some F32.quiet_nan.
Proof.
  destruct (nan_kernel_masks [true; false; true] F32.quiet_nan 2 2
              [F32.one; F32.one; F32.pos_zero]) as [_ H].
  - vm_compute. discriminate.
  - simpl. lia.
  - reflexivity.
  - exact (H 1%nat F32.one false eq_refl eq_refl).
Defined.
(** ** The bit pool of the categorical sets *)

Section Bit_stream_facts.
Import FIL.

Lemma testbit_01 (b k : Z) :
  b = 0 \/ b = 1 -> Z.testbit b k = (b =? 1) && (k =? 0).
Proof.
  intros [->| ->].
  - rewrite Z.bits_0. reflexivity.
  - destruct (Z.eqb_spec k 0) as [->|Hne]; [reflexivity|].
    destruct (Z.lt_ge_cases k 0).
    + apply Z.testbit_neg_r. assumption.
    + apply Z.bits_above_log2; simpl; lia.
Qed.

Lemma lor_fold_testbit (f : nat -> Z) (n : nat) (j : Z) :
  (forall i, f i = 0 \/ f i = 1) -> (n <= 8)%nat -> 0 <= j ->
  Z.testbit
    (foldl (fun byte i => Z.lor byte (wrap_int (Z.shiftl (f i) (Z.of_nat i))))
       0 (seq 0 n)) j
  = (j <? Z.of_nat n) && (f (Z.to_nat j) =? 1).
Proof.
  intros Hf Hn Hj. induction n as [|n IH].
  - cbn [seq foldl]. rewrite Z.bits_0.
    destruct (Z.ltb_spec j (Z.of_nat 0)); [lia|reflexivity].
  - rewrite seq_S, foldl_app. cbn [foldl Nat.add].
    rewrite Z.lor_spec, IH by lia.
    assert (Hsmall : - 2 ^ 31 <= Z.shiftl (f n) (Z.of_nat n) < 2 ^ 31).
    { rewrite Z.shiftl_mul_pow2 by lia.
      assert (0 < 2 ^ Z.of_nat n <= 2 ^ 7).
      { split; [apply Z.pow_pos_nonneg; lia|].
        apply Z.pow_le_mono_r; lia. }
      destruct (Hf n) as [-> | ->]; lia. }
    rewrite wrap_int_small by exact Hsmall.
    rewrite Z.shiftl_spec by exact Hj.
    rewrite (testbit_01 _ _ (Hf n)).
    destruct (Z.eq_dec j (Z.of_nat n)) as [->|Hne].
    + rewrite Nat2Z.id, Z.sub_diag.
      destruct (Z.ltb_spec (Z.of_nat n) (Z.of_nat n)); [lia|].
      destruct (Z.ltb_spec (Z.of_nat n) (Z.of_nat (S n))); [|lia].
      simpl. rewrite andb_true_r. reflexivity.
    + destruct (Z.eqb_spec (j - Z.of_nat n) 0); [lia|].
      rewrite andb_false_r, orb_false_r.
      destruct (Z.ltb_spec j (Z.of_nat n)), (Z.ltb_spec j (Z.of_nat (S n)));
        try lia; reflexivity.
Qed.

Lemma to_int_bit (x : F32.t) :
  x = F32.one \/ x = F32.pos_zero -> F32.to_int x = 0 \/ F32.to_int x = 1.
Proof. intros [->| ->]; [right|left]; reflexivity. Qed.

Lemma to_int_bit_one (x : F32.t) :
  x = F32.one \/ x = F32.pos_zero ->
  (F32.to_int x =? 1) = bool_decide (x = F32.one).
Proof.
  intros [->| ->].
  - rewrite bool_decide_eq_true_2 by reflexivity. reflexivity.
  - rewrite bool_decide_eq_false_2 by discriminate. reflexivity.
Qed.

End Bit_stream_facts.

(** Launched on a grid that covers [size] bytes, over floats that are 0.0 or
    1.0, [floats_to_bit_stream_k] writes [size] bytes and nothing else; bit
    [i] of byte [idx] is set exactly when float [8 * idx + i] is 1.0.  Read
    back through the loop of [node_to_treelite], the categories listed for a
    node whose set starts at byte [val node] are those below the category
    count whose float, counted from bit [8 * val node], is 1.0. *)
Theorem floats_to_bit_stream_categories (src : list F32.t) (size : nat)
    (gridDim blockDim : nat) (dst : list Z) (fid_num_cats : list F32.t)
    (node : FIL.base_node) :
  (size <= gridDim * blockDim)%nat ->
  (size <= length dst)%nat ->
  Forall (fun x => x = F32.one \/ x = F32.pos_zero) src ->
  let bits :=
    FIL.launch gridDim blockDim (FIL.floats_to_bit_stream_k src size blockDim)
      dst in
  let cs := FIL.mkCatSets fid_num_cats bits in
  length bits = length dst /\
  (forall idx, (size <= idx)%nat -> bits !! idx = dst !! idx) /\
  (forall idx, (idx < size)%nat ->
     exists byte, bits !! idx = Some byte /\ 0 <= byte < 2 ^ 8 /\
       forall i, (i < 8)%nat ->
         Z.testbit byte (Z.of_nat i)
         = bool_decide (FIL.float_at src (idx * 8 + i) = F32.one)) /\
  (forall k, 0 <= FIL.val node -> 0 <= k ->
     FIL.val node + k / 8 < Z.of_nat size ->
     (k ∈ FIL.left_categories cs node <->
      k < F32.to_int (FIL.num_cats_at cs (FIL.fid node)) /\
      FIL.float_at src (Z.to_nat (FIL.val node * 8 + k)) = F32.one)).
Proof.
  intros Hcov Hdst Hsrc bits cs.
  assert (Hat : forall j, FIL.float_at src j = F32.one \/
                          FIL.float_at src j = F32.pos_zero).
  { intros j. unfold FIL.float_at.
    destruct (src !! j) as [x|] eqn:Hx; [|right; reflexivity].
    rewrite Forall_lookup in Hsrc. exact (Hsrc j x Hx). }
  pose (f := fun idx i : nat => F32.to_int (FIL.float_at src (idx * 8 + i))).
  pose (byte_of := fun idx : nat =>
          foldl (fun byte i =>
                   Z.lor byte (wrap_int (Z.shiftl (f idx i) (Z.of_nat i))))
                0 (seq 0 8)).
  pose (guard := fun idx : nat => (idx <? size)%nat).
  assert (Hk : forall b t s, (b < gridDim)%nat -> (t < blockDim)%nat ->
            FIL.floats_to_bit_stream_k src size blockDim b t s
            = if guard (b * blockDim + t)%nat
              then <[ (b * blockDim + t)%nat
                      := byte_of (b * blockDim + t)%nat mod 2 ^ 8 ]> s
              else s).
  { intros b t s _ _. unfold FIL.floats_to_bit_stream_k, guard. cbv zeta.
    destruct (Nat.leb_spec size (b * blockDim + t)),
             (Nat.ltb_spec (b * blockDim + t) size); try lia; reflexivity. }
  destruct (launch_pointwise gridDim blockDim _ guard
              (fun idx => byte_of idx mod 2 ^ 8) Hk dst) as [Hlen Hlook].
  fold bits in Hlen, Hlook.
  assert (Hbyte : forall idx, (idx < size)%nat ->
            bits !! idx = Some (byte_of idx mod 2 ^ 8)).
  { intros idx Hidx. rewrite Hlook. unfold guard.
    rewrite decide_True; [reflexivity|].
    split; [lia|]. split; [apply Nat.ltb_lt; exact Hidx|lia]. }
  assert (Hbit : forall idx i, (i < 8)%nat ->
            Z.testbit (byte_of idx mod 2 ^ 8) (Z.of_nat i)
            = bool_decide (FIL.float_at src (idx * 8 + i) = F32.one)).
  { intros idx i Hi.
    rewrite Z.mod_pow2_bits_low by lia.
    unfold byte_of.
    rewrite lor_fold_testbit;
      [|intros i'; apply to_int_bit, Hat|lia|lia].
    destruct (Z.ltb_spec (Z.of_nat i) (Z.of_nat 8)); [|lia].
    rewrite Nat2Z.id. simpl. unfold f. apply to_int_bit_one, Hat. }
  split; [exact Hlen|]. split; [|split].
  - intros idx Hidx. rewrite Hlook. unfold guard.
    rewrite decide_False; [reflexivity|].
    intros (_ & Hc & _). apply Nat.ltb_lt in Hc. lia.
  - intros idx Hidx. exists (byte_of idx mod 2 ^ 8).
    split; [apply Hbyte; exact Hidx|].
    split; [apply Z.mod_pos_bound; lia|].
    intros i Hi. apply Hbit. exact Hi.
  - intros k Hv Hk0 Hin.
    rewrite elem_of_left_categories.
    assert (Hq : 0 <= k / 8) by (apply Z.div_pos; lia).
    assert (Hr : 0 <= k mod 8 < 8) by (apply Z.mod_pos_bound; lia).
    assert (Hcb : category_bit cs (FIL.val node) k
                  = bool_decide (FIL.float_at src
                                   (Z.to_nat (FIL.val node * 8 + k))
                                 = F32.one)).
    { unfold category_bit, FIL.bits_at, FIL.BITS_PER_BYTE.
      destruct (Z.ltb_spec (FIL.val node + k / 8) 0); [lia|].
      change (FIL.bits cs) with bits.
      rewrite Hbyte by lia. simpl.
      replace (k mod 8) with (Z.of_nat (Z.to_nat (k mod 8))) by lia.
      rewrite Hbit by lia.
      replace (Z.to_nat (FIL.val node + k / 8) * 8 + Z.to_nat (k mod 8))%nat
        with (Z.to_nat (FIL.val node * 8 + k)); [reflexivity|].
      pose proof (Z.div_mod k 8 ltac:(lia)). lia. }
    rewrite Hcb. split.
    + intros [Hrange Hb]. apply bool_decide_eq_true in Hb.
      split; [lia|exact Hb].
    + intros [Hrange Hb]. split; [lia|].
      apply bool_decide_eq_true. exact Hb.
Qed.

(** Two bytes from sixteen floats, with the bits 0 and 2 of the second byte
    set and three categories. *)
Lemma floats_to_bit_stream_categories_witness :
  let z := F32.pos_zero in
  let o := F32.one in
  let src := [z; z; z; z; z; z; z; z; o; z; o; z; z; z; z; z] in
  let node := FIL.make_dense_node 0 1 0 true false true in
  let cs := FIL.mkCatSets [0x40400000]
              (FIL.launch 1 4 (FIL.floats_to_bit_stream_k src 2 4) [0; 0]) in
  2 ∈ FIL.left_categories cs node.
Proof.
  intros z o src node cs.
  destruct (floats_to_bit_stream_categories src 2 1 4 [0; 0] [0x40400000] node)
    as (_ & _ & _ & H).
  - lia.
  - simpl. lia.
  - unfold src. repeat (constructor; [(left; reflexivity) || (right; reflexivity)|]).
    constructor.
  - apply (H 2); [vm_compute; discriminate | lia | reflexivity |].
    split; [vm_compute; reflexivity | reflexivity].
Defined.
(** ** The forests [generate_forest] builds *)

Section Mark_leaves_facts.
Import FIL.

Lemma set_true_range (s n : nat) (l : list bool) :
  length (foldl (fun l j => <[ j := true ]> l) l (seq s n)) = length l /\
  forall j,
    foldl (fun l j => <[ j := true ]> l) l (seq s n) !! j
    = if decide ((s <= j < s + n)%nat /\ (j < length l)%nat)
      then Some true else l !! j.
Proof.
  induction n as [|n [IHlen IH]].
  - split; [reflexivity|]. intros j. rewrite decide_False by lia. reflexivity.
  - rewrite seq_S, foldl_app. cbn [foldl]. split.
    + rewrite length_insert. exact IHlen.
    + intros j. destruct (Nat.eq_dec j (s + n)%nat) as [->|Hne].
      * destruct (Nat.lt_ge_cases (s + n)%nat (length l)) as [Hlt|Hge].
        -- rewrite list_lookup_insert_eq by (rewrite IHlen; exact Hlt).
           rewrite decide_True by lia. reflexivity.
        -- rewrite decide_False by lia.
           rewrite lookup_ge_None_2 by (rewrite length_insert, IHlen; exact Hge).
           symmetry. apply lookup_ge_None_2. exact Hge.
      * rewrite list_lookup_insert_ne by lia. rewrite IH.
        destruct (decide ((s <= j < s + n)%nat /\ (j < length l)%nat));
          [rewrite decide_True by lia|rewrite decide_False by lia];
          reflexivity.
Qed.

Variable ps : FilTestParams.

(** The part of [mark_leaves] that handles the first [k] trees. *)
Lemma mark_leaves_upto (k : nat) (l : list bool) :
  let l' :=
    foldl (fun is_leafs_h i =>
             foldl (fun is_leafs_h j => <[ j := true ]> is_leafs_h)
               is_leafs_h
               (seq (tree_num_nodes ps * i + tree_num_nodes ps / 2)
                  (tree_num_nodes ps * (i + 1)
                   - (tree_num_nodes ps * i + tree_num_nodes ps / 2))))
          l (seq 0 k) in
  length l' = length l /\
  (forall t j, (t < k)%nat ->
     (tree_num_nodes ps * t + tree_num_nodes ps / 2 <= j
      < tree_num_nodes ps * (t + 1))%nat ->
     (j < length l)%nat -> l' !! j = Some true) /\
  (forall j,
     (forall t, (t < k)%nat ->
        ~ (tree_num_nodes ps * t + tree_num_nodes ps / 2 <= j
           < tree_num_nodes ps * (t + 1))%nat) ->
     l' !! j = l !! j).
Proof.
  induction k as [|k (IHlen & IHin & IHout)]; cbv zeta.
  - split; [reflexivity|]. split; [intros; lia|]. intros; reflexivity.
  - rewrite seq_S, foldl_app. cbn [foldl Nat.add].
    match goal with
    | |- context [foldl _ ?l0 (seq ?s ?n)] =>
        destruct (set_true_range s n l0) as [Hlen Hlook]
    end.
    set (tnn := tree_num_nodes ps) in *.
    split; [rewrite Hlen; exact IHlen|]. split.
    + intros t j Ht Hr Hj. rewrite Hlook, IHlen.
      destruct (decide ((tnn * k + tnn / 2 <= j
                         < tnn * k + tnn / 2
                           + (tnn * (k + 1) - (tnn * k + tnn / 2)))%nat /\
                        (j < length l)%nat)) as [Hd|Hd]; [reflexivity|].
      destruct (Nat.eq_dec t k) as [->|Hne].
      * exfalso. apply Hd. split; [|exact Hj]. lia.
      * apply (IHin t j); [lia|exact Hr|exact Hj].
    + intros j Hnot. rewrite Hlook, IHlen.
      rewrite decide_False.
      * apply IHout. intros t Ht. apply Hnot. lia.
      * intros [Hr _]. apply (Hnot k); lia.
Qed.

Lemma mark_leaves_spec (l : list bool) :
  length (mark_leaves ps l) = length l /\
  (forall t j, (t < Z.to_nat (num_trees ps))%nat ->
     (tree_num_nodes ps * t + tree_num_nodes ps / 2 <= j
      < tree_num_nodes ps * (t + 1))%nat ->
     (j < length l)%nat -> mark_leaves ps l !! j = Some true) /\
  (forall j,
     (forall t, (t < Z.to_nat (num_trees ps))%nat ->
        ~ (tree_num_nodes ps * t + tree_num_nodes ps / 2 <= j
           < tree_num_nodes ps * (t + 1))%nat) ->
     mark_leaves ps l !! j = l !! j).
Proof. exact (mark_leaves_upto (Z.to_nat (num_trees ps)) l). Qed.

End Mark_leaves_facts.

Section Generate_forest_facts.
Import FIL.
Variable ps : FilTestParams.
Variable sizeof_mask_of : nat -> nat.
Variable feature_categorical : list bool.
Variable weights_h : list Z.
Variable thresholds_h : list F32.t.
Variable fids_h : list nat.
Variable def_lefts_h : list bool.
Variable is_leafs_h : list bool.
Variable is_categoricals_h0 : list F32.t.
Hypothesis Halgo :
  leaf_algo ps <> GROVE_PER_CLASS_FEW_CLASSES /\
  leaf_algo ps <> GROVE_PER_CLASS_MANY_CLASSES.

Lemma init_node_Some (leafs : list bool) (layout : cat_layout) (i : nat) :
  exists w,
    init_node ps weights_h thresholds_h fids_h def_lefts_h leafs layout i
    = Some
        (make_dense_node w
           (if F32.eq (float_at (is_categoricals_h layout) i) F32.one
            then Z.of_nat (default 0%nat (node_cat_set layout !! i))
            else float_at thresholds_h i)
           (default 0%nat (fids_h !! i))
           (default false (def_lefts_h !! i))
           (default false (leafs !! i))
           (F32.eq (float_at (is_categoricals_h layout) i) F32.one)).
Proof.
  unfold init_node. destruct Halgo as [H1 H2].
  destruct (leaf_algo ps); try contradiction; eexists; reflexivity.
Qed.

Lemma generate_forest_nodes :
  exists nodes,
    generate_forest ps sizeof_mask_of feature_categorical weights_h
      thresholds_h fids_h def_lefts_h is_leafs_h is_categoricals_h0
    = Some (nodes,
            split_sets ps sizeof_mask_of feature_categorical fids_h
              (mark_leaves ps is_leafs_h) is_categoricals_h0) /\
    length nodes = forest_num_nodes ps /\
    forall i node, nodes !! i = Some node ->
      init_node ps weights_h thresholds_h fids_h def_lefts_h
        (mark_leaves ps is_leafs_h)
        (split_sets ps sizeof_mask_of feature_categorical fids_h
           (mark_leaves ps is_leafs_h) is_categoricals_h0) i
      = Some node.
Proof.
  unfold generate_forest. cbv zeta.
  set (leafs := mark_leaves ps is_leafs_h).
  set (layout := split_sets _ _ _ _ _ _).
  destruct (mapM (init_node ps weights_h thresholds_h fids_h def_lefts_h
                    leafs layout) (seq 0 (forest_num_nodes ps)))
    as [nodes|] eqn:Hm.
  - exists nodes. split; [reflexivity|].
    pose proof (length_mapM _ _ _ Hm) as Hlen. rewrite length_seq in Hlen.
    split; [symmetry; exact Hlen|].
    intros i node Hi.
    apply mapM_Some_1 in Hm.
    destruct (Forall2_lookup_r _ _ _ _ _ Hm Hi) as (x & Hx & Hf).
    apply lookup_seq in Hx as [-> _]. exact Hf.
  - exfalso.
    assert (is_Some (mapM (init_node ps weights_h thresholds_h fids_h
                             def_lefts_h leafs layout)
                       (seq 0 (forest_num_nodes ps)))) as [x Hx].
    { apply mapM_is_Some_2. apply Forall_forall. intros i _.
      destruct (init_node_Some leafs layout i) as [w Hw].
      simpl. rewrite Hw. eauto. }
    congruence.
Qed.

End Generate_forest_facts.

(** Whatever the random generators put into its arrays, as long as the
    feature ids are below [num_cols] and the leaf algorithm is one the
    fixture supports, [generate_forest] yields [forest_num_nodes()] nodes
    whose trees all end in leaves: the reference walk [infer_one_tree] of
    any tree over any row of [num_cols] values returns an output after at
    most [depth] inner nodes, without leaving the tree or the row. *)
Theorem generate_forest_walkable
    (goes_right : FIL.base_node -> F32.t -> bool) (ps : FIL.FilTestParams)
    (sizeof_mask_of : nat -> nat) (feature_categorical : list bool)
    (weights_h : list Z) (thresholds_h : list F32.t) (fids_h : list nat)
    (def_lefts_h is_leafs_h : list bool) (is_categoricals_h : list F32.t) :
  FIL.leaf_algo ps <> FIL.GROVE_PER_CLASS_FEW_CLASSES /\
  FIL.leaf_algo ps <> FIL.GROVE_PER_CLASS_MANY_CLASSES ->
  length is_leafs_h = FIL.forest_num_nodes ps ->
  length fids_h = FIL.forest_num_nodes ps ->
  Forall (fun f => (f < FIL.num_cols ps)%nat) fids_h ->
  exists nodes layout,
    FIL.generate_forest ps sizeof_mask_of feature_categorical weights_h
      thresholds_h fids_h def_lefts_h is_leafs_h is_categoricals_h
    = Some (nodes, layout) /\
    length nodes = FIL.forest_num_nodes ps /\
    dense_forest_shape ps nodes /\
    forall t data,
      (t < Z.to_nat (FIL.num_trees ps))%nat ->
      length data = FIL.num_cols ps ->
      exists out,
        FIL.infer_one_tree goes_right (FIL.depth ps) nodes
          (t * FIL.tree_num_nodes ps) data 0 = Some out.
Proof.
  intros Halgo Hleafs Hfids Hcols.
  destruct (generate_forest_nodes ps sizeof_mask_of feature_categorical
              weights_h thresholds_h fids_h def_lefts_h is_leafs_h
              is_categoricals_h Halgo) as (nodes & Hgen & Hlen & Hnode).
  eexists nodes, _. split; [exact Hgen|]. split; [exact Hlen|].
  destruct (mark_leaves_spec ps is_leafs_h) as (Hml & Hmin & _).
  assert (Hshape : dense_forest_shape ps nodes).
  { split; [rewrite Hlen; unfold FIL.forest_num_nodes; lia|].
    intros t j node Ht Hr Hj.
    pose proof (lookup_lt_Some _ _ _ Hj) as Hjl.
    specialize (Hnode j node Hj).
    destruct (init_node_Some ps weights_h thresholds_h fids_h def_lefts_h
                Halgo (FIL.mark_leaves ps is_leafs_h)
                (FIL.split_sets ps sizeof_mask_of feature_categorical fids_h
                   (FIL.mark_leaves ps is_leafs_h) is_categoricals_h) j)
      as [w Hw].
    rewrite Hw in Hnode. injection Hnode as <-.
    unfold FIL.make_dense_node. simpl.
    rewrite (Hmin t j Ht Hr) by lia. reflexivity. }
  split; [exact Hshape|].
  intros t data Ht Hdata.
  apply (infer_one_tree_total goes_right nodes (t * FIL.tree_num_nodes ps)
           data (FIL.depth ps)); [| |lia].
  - intros j node Hj Hleaf.
    specialize (Hnode j node Hj).
    destruct (init_node_Some ps weights_h thresholds_h fids_h def_lefts_h
                Halgo (FIL.mark_leaves ps is_leafs_h)
                (FIL.split_sets ps sizeof_mask_of feature_categorical fids_h
                   (FIL.mark_leaves ps is_leafs_h) is_categoricals_h) j)
      as [w Hw].
    rewrite Hw in Hnode. injection Hnode as <-.
    unfold FIL.make_dense_node. simpl.
    pose proof (lookup_lt_Some _ _ _ Hj) as Hjl.
    destruct (lookup_lt_is_Some_2 fids_h j ltac:(lia)) as [f Hf].
    rewrite Hf. simpl. rewrite Hdata.
    rewrite Forall_lookup in Hcols. exact (Hcols j f Hf).
  - apply (shape_wf ps nodes Hshape t Ht).
Qed.

Lemma generate_forest_walkable_witness :
  let ps := FIL.mkParams 1 1 1 FIL.RAW F32.pos_zero F32.pos_zero FIL.kLT
              FIL.FLOAT_UNARY_BINARY 1 in
  exists nodes layout,
    FIL.generate_forest ps (fun _ => 1%nat) [false] [5; 6; 7]
      [F32.one; F32.one; F32.one] [0; 0; 0]%nat [true; false; true]
      [false; false; false] [F32.pos_zero; F32.pos_zero; F32.pos_zero]
    = Some (nodes, layout) /\
    exists out,
      FIL.infer_one_tree (FIL.child_cond (FIL.mkCatSets [] [])) 1 nodes 0
        [F32.pos_zero] 0 = Some out.
Proof.
  intros ps.
  destruct (generate_forest_walkable (FIL.child_cond (FIL.mkCatSets [] []))
              ps (fun _ => 1%nat) [false] [5; 6; 7]
              [F32.one; F32.one; F32.one] [0; 0; 0]%nat [true; false; true]
              [false; false; false]
              [F32.pos_zero; F32.pos_zero; F32.pos_zero])
    as (nodes & layout & Hgen & _ & _ & Hwalk).
  - split; discriminate.
  - reflexivity.
  - reflexivity.
  - repeat constructor.
  - exists nodes, layout. split; [exact Hgen|].
    apply (Hwalk 0%nat [F32.pos_zero]); [vm_compute; lia | reflexivity].
Defined.

Section Split_sets_facts.
Import FIL.
Variable ps : FilTestParams.
Variable sizeof_mask_of : nat -> nat.
Variable feature_categorical : list bool.
Variable fids_h : list nat.
Variable leafs : list bool.
Variable is_categoricals_h0 : list F32.t.

Let fid_of (a : nat) : nat := default 0%nat (fids_h !! a).
Let cat (st : cat_layout) (a : nat) : Prop :=
  F32.eq (float_at (is_categoricals_h st) a) F32.one = true.
Let set_of (st : cat_layout) (a : nat) : nat :=
  default 0%nat (node_cat_set st !! a).

(** What holds after the nodes below [n] have been handled. *)
Let Inv (N n : nat) (st : cat_layout) : Prop :=
  length (node_cat_set st) = N /\
  (forall a, (a < n)%nat -> cat st a ->
     default false (feature_categorical !! fid_of a) = true /\
     default false (leafs !! a) = false /\
     (set_of st a + sizeof_mask_of (fid_of a) <= bit_pool_size st)%nat /\
     forall b, (a < b < n)%nat -> cat st b ->
       (set_of st a + sizeof_mask_of (fid_of a) <= set_of st b)%nat).

Lemma split_sets_step_inv (N n : nat) (st : cat_layout) :
  (n < N)%nat -> Inv N n st ->
  Inv N (S n)
    (split_sets_step sizeof_mask_of feature_categorical fids_h leafs st n).
Proof.
  intros HnN (Hlen & Hold).
  unfold split_sets_step. cbv zeta. fold (fid_of n).
  set (ic' := if negb (default false (feature_categorical !! fid_of n))
                 || default false (leafs !! n)
              then <[ n := F32.pos_zero ]> (is_categoricals_h st)
              else is_categoricals_h st).
  assert (Hsame : forall a, a <> n ->
            float_at ic' a = float_at (is_categoricals_h st) a).
  { intros a Ha. unfold float_at, ic'.
    destruct (negb _ || _); [|reflexivity].
    rewrite list_lookup_insert_ne by lia. reflexivity. }
  assert (Hnew : F32.eq (float_at ic' n) F32.one = true ->
            default false (feature_categorical !! fid_of n) = true /\
            default false (leafs !! n) = false).
  { unfold ic'.
    destruct (default false (feature_categorical !! fid_of n)),
             (default false (leafs !! n)); simpl; auto;
      intros Hc; exfalso; unfold float_at in Hc;
      (destruct (Nat.lt_ge_cases n (length (is_categoricals_h st)));
       [rewrite list_lookup_insert_eq in Hc by assumption
       |rewrite lookup_ge_None_2 in Hc by (rewrite length_insert; assumption)]);
      discriminate. }
  destruct (F32.eq (float_at ic' n) F32.one) eqn:Hc.
  - destruct (Hnew eq_refl) as [Hfc Hleaf].
    split; [simpl; rewrite length_insert; exact Hlen|].
    intros a Ha Hcat. unfold cat, set_of in *. simpl in *.
    destruct (Nat.eq_dec a n) as [->|Hne].
    + rewrite list_lookup_insert_eq by lia. simpl.
      split; [exact Hfc|]. split; [exact Hleaf|]. split; [lia|].
      intros b Hb. lia.
    + rewrite Hsame in Hcat by exact Hne.
      rewrite list_lookup_insert_ne by lia.
      destruct (Hold a ltac:(lia) Hcat) as (H1 & H2 & H3 & H4).
      split; [exact H1|]. split; [exact H2|]. split; [lia|].
      intros b Hb Hcb.
      destruct (Nat.eq_dec b n) as [->|Hnb].
      * rewrite list_lookup_insert_eq by lia. simpl. exact H3.
      * rewrite list_lookup_insert_ne by lia.
        rewrite Hsame in Hcb by exact Hnb.
        apply H4; [lia|exact Hcb].
  - split; [exact Hlen|].
    intros a Ha Hcat. unfold cat, set_of in *. simpl in *.
    destruct (Nat.eq_dec a n) as [->|Hne]; [congruence|].
    rewrite Hsame in Hcat by exact Hne.
    destruct (Hold a ltac:(lia) Hcat) as (H1 & H2 & H3 & H4).
    split; [exact H1|]. split; [exact H2|]. split; [exact H3|].
    intros b Hb Hcb.
    destruct (Nat.eq_dec b n) as [->|Hnb]; [congruence|].
    rewrite Hsame in Hcb by exact Hnb.
    apply H4; [lia|exact Hcb].
Qed.

Lemma split_sets_inv :
  Inv (forest_num_nodes ps) (forest_num_nodes ps)
    (split_sets ps sizeof_mask_of feature_categorical fids_h leafs
       is_categoricals_h0).
Proof.
  unfold split_sets.
  set (N := forest_num_nodes ps).
  assert (H : forall n, (n <= N)%nat ->
            Inv N n
              (foldl (split_sets_step sizeof_mask_of feature_categorical
                        fids_h leafs)
                 {| bit_pool_size := 0;
                    n_nodes := replicate (num_cols ps) 0%nat;
                    node_cat_set := replicate N 0%nat;
                    is_categoricals_h := is_categoricals_h0 |}
                 (seq 0 n))).
  { induction n as [|n IH]; intros Hn.
    - split; [simpl; apply length_replicate|]. intros a Ha. lia.
    - rewrite seq_S, foldl_app. cbn [foldl Nat.add].
      apply split_sets_step_inv; [lia|]. apply IH. lia. }
  apply H. lia.
Qed.

Lemma split_sets_layout :
  let layout := split_sets ps sizeof_mask_of feature_categorical fids_h leafs
                  is_categoricals_h0 in
  forall a, (a < forest_num_nodes ps)%nat ->
    F32.eq (float_at (is_categoricals_h layout) a) F32.one = true ->
    default false (feature_categorical !! default 0%nat (fids_h !! a)) = true /\
    default false (leafs !! a) = false /\
    (default 0%nat (node_cat_set layout !! a)
     + sizeof_mask_of (default 0%nat (fids_h !! a))
     <= bit_pool_size layout)%nat /\
    forall b, (a < b < forest_num_nodes ps)%nat ->
      F32.eq (float_at (is_categoricals_h layout) b) F32.one = true ->
      (default 0%nat (node_cat_set layout !! a)
       + sizeof_mask_of (default 0%nat (fids_h !! a))
       <= default 0%nat (node_cat_set layout !! b))%nat.
Proof.
  intros layout a Ha Hcat.
  destruct split_sets_inv as [_ H]. exact (H a Ha Hcat).
Qed.

End Split_sets_facts.

Lemma init_node_shape (ps : FIL.FilTestParams) (weights_h : list Z)
    (thresholds_h : list F32.t) (fids_h : list nat) (def_lefts_h : list bool)
    (leafs : list bool) (layout : FIL.cat_layout) (i : nat)
    (node : FIL.dense_node) :
  FIL.init_node ps weights_h thresholds_h fids_h def_lefts_h leafs layout i
  = Some node ->
  exists w,
    node
    = FIL.make_dense_node w
        (if F32.eq (FIL.float_at (FIL.is_categoricals_h layout) i) F32.one
         then Z.of_nat (default 0%nat (FIL.node_cat_set layout !! i))
         else FIL.float_at thresholds_h i)
        (default 0%nat (fids_h !! i))
        (default false (def_lefts_h !! i))
        (default false (leafs !! i))
        (F32.eq (FIL.float_at (FIL.is_categoricals_h layout) i) F32.one).
Proof.
  unfold FIL.init_node.
  destruct (FIL.leaf_algo ps); simpl; intros H; try discriminate;
    injection H as <-; eexists; reflexivity.
Qed.

(** In a forest [generate_forest] has built, a categorical node is an inner
    node on a categorical feature; its value is the first byte of its set;
    the set lies inside the bit pool; and the sets of two categorical nodes
    do not overlap: the one of the later node starts after the end of the
    one of the earlier node. *)
Theorem generate_forest_categorical_sets (ps : FIL.FilTestParams)
    (sizeof_mask_of : nat -> nat) (feature_categorical : list bool)
    (weights_h : list Z) (thresholds_h : list F32.t) (fids_h : list nat)
    (def_lefts_h is_leafs_h : list bool) (is_categoricals_h : list F32.t)
    (nodes : list FIL.dense_node) (layout : FIL.cat_layout) :
  FIL.generate_forest ps sizeof_mask_of feature_categorical weights_h
    thresholds_h fids_h def_lefts_h is_leafs_h is_categoricals_h
  = Some (nodes, layout) ->
  forall a node_a, nodes !! a = Some node_a ->
    FIL.is_categorical node_a = true ->
    FIL.is_leaf node_a = false /\
    default false (feature_categorical !! FIL.fid node_a) = true /\
    0 <= FIL.val node_a /\
    FIL.val node_a + Z.of_nat (sizeof_mask_of (FIL.fid node_a))
    <= Z.of_nat (FIL.bit_pool_size layout) /\
    forall b node_b, (a < b)%nat -> nodes !! b = Some node_b ->
      FIL.is_categorical node_b = true ->
      FIL.val node_a + Z.of_nat (sizeof_mask_of (FIL.fid node_a))
      <= FIL.val node_b.
Proof.
  unfold FIL.generate_forest. cbv zeta.
  set (leafs := FIL.mark_leaves ps is_leafs_h).
  set (lay := FIL.split_sets _ _ _ _ _ _).
  destruct (mapM _ _) as [nodes'|] eqn:Hm; [|discriminate].
  simpl. intros H. injection H as <- <-.
  pose proof (length_mapM _ _ _ Hm) as Hlen. rewrite length_seq in Hlen.
  apply mapM_Some_1 in Hm.
  assert (Hnode : forall i node, nodes' !! i = Some node ->
            (i < FIL.forest_num_nodes ps)%nat /\
            exists w,
              node
              = FIL.make_dense_node w
                  (if F32.eq (FIL.float_at (FIL.is_categoricals_h lay) i)
                        F32.one
                   then Z.of_nat (default 0%nat (FIL.node_cat_set lay !! i))
                   else FIL.float_at thresholds_h i)
                  (default 0%nat (fids_h !! i))
                  (default false (def_lefts_h !! i))
                  (default false (leafs !! i))
                  (F32.eq (FIL.float_at (FIL.is_categoricals_h lay) i)
                     F32.one)).
  { intros i node Hi.
    split; [apply lookup_lt_Some in Hi; lia|].
    destruct (Forall2_lookup_r _ _ _ _ _ Hm Hi) as (x & Hx & Hf).
    apply lookup_seq in Hx as [-> _].
    exact (init_node_shape _ _ _ _ _ _ _ _ _ Hf). }
  intros a node_a Ha Hcat.
  destruct (Hnode a node_a Ha) as (HaN & wa & ->).
  unfold FIL.make_dense_node in *. simpl in Hcat. simpl.
  destruct (split_sets_layout ps sizeof_mask_of feature_categorical fids_h
              leafs is_categoricals_h a HaN Hcat) as (Hfc & Hleaf & Hpool & Hdisj).
  fold lay in Hpool, Hdisj.
  rewrite Hleaf, Hcat.
  split; [reflexivity|]. split; [exact Hfc|]. split; [lia|].
  split; [lia|].
  intros b node_b Hab Hb Hcatb.
  destruct (Hnode b node_b Hb) as (HbN & wb & ->).
  simpl in Hcatb. simpl.
  destruct (split_sets_layout ps sizeof_mask_of feature_categorical fids_h
              leafs is_categoricals_h b HbN Hcatb) as (_ & Hleafb & _ & _).
  rewrite Hleafb, Hcatb.
  specialize (Hdisj b ltac:(lia) Hcatb). lia.
Qed.

(** One tree of depth 1 over one categorical feature, its root marked
    categorical. *)
Lemma generate_forest_categorical_sets_witness :
  let ps := FIL.mkParams 1 1 1 FIL.RAW F32.pos_zero F32.pos_zero FIL.kLT
              FIL.FLOAT_UNARY_BINARY 1 in
  exists nodes layout node,
    FIL.generate_forest ps (fun _ => 2%nat) [true] [5; 6; 7]
      [F32.one; F32.one; F32.one] [0; 0; 0]%nat [true; false; true]
      [false; false; false] [F32.one; F32.one; F32.pos_zero]
    = Some (nodes, layout) /\
    nodes !! 0%nat = Some node /\ FIL.is_categorical node = true /\
    FIL.val node + 2 <= Z.of_nat (FIL.bit_pool_size layout).
Proof.
  intros ps.
  eexists _, _, _.
  assert (Hgen : FIL.generate_forest ps (fun _ => 2%nat) [true] [5; 6; 7]
            [F32.one; F32.one; F32.one] [0; 0; 0]%nat [true; false; true]
            [false; false; false] [F32.one; F32.one; F32.pos_zero]
          = Some _) by (vm_compute; reflexivity).
  split; [exact Hgen|]. split; [reflexivity|]. split; [reflexivity|].
  destruct (generate_forest_categorical_sets _ _ _ _ _ _ _ _ _ _ _ Hgen
              0%nat _ eq_refl eq_refl) as (_ & _ & _ & H & _).
  exact H.
Defined.
(** ** Votes and the class with the most votes *)

Section Max_element_facts.
Import FIL.

Lemma max_element_from_spec (full : list Z) (xs : list Z) :
  forall (i best_i : nat) (best : Z),
  drop i full = xs -> (best_i < i)%nat -> full !! best_i = Some best ->
  (forall j y, (j < i)%nat -> full !! j = Some y -> y <= best) ->
  (forall j y, (j < best_i)%nat -> full !! j = Some y -> y < best) ->
  exists v,
    full !! max_element_from Z.ltb best_i best i xs = Some v /\
    (forall j y, full !! j = Some y -> y <= v) /\
    (forall j y, (j < max_element_from Z.ltb best_i best i xs)%nat ->
       full !! j = Some y -> y < v).
Proof.
  induction xs as [|x xs IH]; intros i best_i best Hdrop Hbi Hbest Hle Hlt.
  - simpl. exists best. split; [exact Hbest|]. split; [|exact Hlt].
    intros j y Hj. apply (Hle j y); [|exact Hj].
    apply lookup_lt_Some in Hj.
    assert (length (drop i full) = 0%nat) as Hl by (rewrite Hdrop; reflexivity).
    rewrite length_drop in Hl. lia.
  - assert (Hi : full !! i = Some x).
    { rewrite <- (Nat.add_0_r i), <- lookup_drop, Hdrop. reflexivity. }
    assert (Hdrop' : drop (S i) full = xs).
    { replace (S i) with (i + 1)%nat by lia.
      rewrite <- drop_drop, Hdrop. reflexivity. }
    cbn [max_element_from].
    destruct (Z.ltb_spec best x) as [Hbx|Hbx].
    + apply IH; [exact Hdrop'|lia|exact Hi| |].
      * intros j y Hj Hy. destruct (Nat.eq_dec j i) as [->|Hne].
        -- rewrite Hi in Hy. injection Hy as ->. lia.
        -- pose proof (Hle j y ltac:(lia) Hy). lia.
      * intros j y Hj Hy. pose proof (Hle j y Hj Hy). lia.
    + apply IH; [exact Hdrop'|lia|exact Hbest| |exact Hlt].
      intros j y Hj Hy. destruct (Nat.eq_dec j i) as [->|Hne].
      * rewrite Hi in Hy. injection Hy as ->. lia.
      * apply (Hle j y); [lia|exact Hy].
Qed.

(** [std::max_element] over integers: the first position that holds the
    largest value. *)
Lemma max_element_first_max (l : list Z) :
  l <> [] ->
  exists v,
    l !! max_element Z.ltb l = Some v /\
    (forall j y, l !! j = Some y -> y <= v) /\
    (forall j y, (j < max_element Z.ltb l)%nat -> l !! j = Some y -> y < v).
Proof.
  destruct l as [|x xs]; [congruence|]. intros _.
  unfold max_element.
  apply (max_element_from_spec (x :: xs) xs 1 0 x);
    [reflexivity|lia|reflexivity| |intros; lia].
  intros j y Hj Hy. assert (j = 0%nat) as -> by lia.
  simpl in Hy. injection Hy as ->. lia.
Qed.

End Max_element_facts.

Section Votes_facts.
Import FIL.
Variable ps : FilTestParams.

Lemma count_label_app (c : Z) (l : list Z) (x : Z) :
  count_label c (l ++ [x])
  = count_label c l + (if Z.eq_dec x c then 1 else 0).
Proof.
  unfold count_label. rewrite filter_app, length_app.
  rewrite filter_cons, filter_nil.
  destruct (decide (x = c)), (Z.eq_dec x c); simpl; try contradiction; lia.
Qed.

Lemma count_label_bound (c : Z) (l : list Z) :
  0 <= count_label c l <= Z.of_nat (length l).
Proof.
  unfold count_label. pose proof (length_filter (fun x => x = c) l). lia.
Qed.

Lemma class_votes_spec (leaves : list Z) :
  Forall (fun l => 0 <= l < num_classes ps) leaves ->
  Z.of_nat (length leaves) < 2 ^ 31 ->
  length (class_votes ps leaves) = Z.to_nat (num_classes ps) /\
  forall c, 0 <= c < num_classes ps ->
    class_votes ps leaves !! Z.to_nat c = Some (count_label c leaves).
Proof.
  unfold class_votes.
  induction leaves as [|x leaves IH] using rev_ind; intros Hall Hlen.
  - simpl. split; [apply length_replicate|].
    intros c Hc. apply lookup_replicate_2. lia.
  - apply Forall_app in Hall as [Hall Hx].
    apply Forall_inv in Hx. cbv beta in Hx.
    rewrite length_app in Hlen. simpl in Hlen.
    destruct (IH Hall ltac:(lia)) as [IHlen IHc].
    rewrite foldl_app. cbn [foldl].
    destruct (Z.ltb_spec x 0); [lia|].
    split; [rewrite length_insert; exact IHlen|].
    intros c Hc. rewrite count_label_app.
    destruct (Z.eq_dec x c) as [->|Hne].
    + rewrite list_lookup_insert_eq by (rewrite IHlen; lia).
      rewrite (IHc c Hc). simpl.
      pose proof (count_label_bound c leaves).
      rewrite wrap_int_small by lia. reflexivity.
    + rewrite list_lookup_insert_ne by lia.
      rewrite (IHc c Hc). f_equal. lia.
Qed.

End Votes_facts.

(** With every leaf label among the classes, the vote vector of
    [predict_on_cpu] holds for each class the number of trees that voted
    for it, and the predicted class is the first class no other class
    outvotes: every class has at most its votes, every earlier class
    strictly fewer. *)
Theorem categorical_vote_prediction (expf : F32.t -> F32.t)
    (ps : FIL.FilTestParams) (leaves : list FIL.val_t) :
  0 < FIL.num_classes ps ->
  Forall (fun l => 0 <= l < FIL.num_classes ps) leaves ->
  Z.of_nat (length leaves) < 2 ^ 31 ->
  let votes := FIL.class_votes ps leaves in
  let p := Z.of_nat (FIL.max_element Z.ltb votes) in
  (forall c, 0 <= c < FIL.num_classes ps ->
     votes !! Z.to_nat c = Some (count_label c leaves)) /\
  0 <= p < FIL.num_classes ps /\
  (forall c, 0 <= c < FIL.num_classes ps ->
     count_label c leaves <= count_label p leaves) /\
  (forall c, 0 <= c < p -> count_label c leaves < count_label p leaves) /\
  snd (FIL.predict_row_categorical expf ps leaves) = F32.of_int p.
Proof.
  intros Hn Hall Hlen votes p.
  destruct (class_votes_spec ps leaves Hall Hlen) as [Hvl Hvc].
  fold votes in Hvl, Hvc.
  destruct (max_element_first_max votes) as (v & Hv & Hmax & Hfirst).
  { intros Hnil. rewrite Hnil in Hvl. simpl in Hvl. lia. }
  assert (Hp : 0 <= p < FIL.num_classes ps).
  { apply lookup_lt_Some in Hv. unfold p. lia. }
  assert (Hvp : v = count_label p leaves).
  { pose proof (Hvc p Hp) as H. unfold p in H at 1. rewrite Nat2Z.id in H.
    congruence. }
  split; [exact Hvc|]. split; [exact Hp|]. split; [|split].
  - intros c Hc. rewrite <- Hvp. apply (Hmax (Z.to_nat c)). apply Hvc. exact Hc.
  - intros c Hc. rewrite <- Hvp.
    apply (Hfirst (Z.to_nat c)); [unfold p in Hc; lia|].
    apply Hvc. lia.
  - reflexivity.
Qed.

Lemma categorical_vote_prediction_witness :
  let ps := FIL.mkParams 1 1 5 FIL.RAW F32.pos_zero F32.pos_zero FIL.kLT
              FIL.CATEGORICAL_LEAF 3 in
  FIL.class_votes ps [2; 1; 2; 1; 0] !! 1%nat = Some 2 /\
  FIL.max_element Z.ltb (FIL.class_votes ps [2; 1; 2; 1; 0]) = 1%nat.
Proof.
  intros ps.
  destruct (categorical_vote_prediction (fun x => x) ps [2; 1; 2; 1; 0])
    as (Hc & _).
  - reflexivity.
  - repeat (constructor; [vm_compute; split; discriminate || reflexivity|]).
    constructor.
  - vm_compute. reflexivity.
  - split; [exact (Hc 1 ltac:(vm_compute; split; discriminate || reflexivity))
           | reflexivity].
Defined.
(** ** Class sums of grove-per-class forests *)

Section Grove_facts.
Import FIL.
Variable ps : FilTestParams.

Abbreviation nclasses := (Z.to_nat (num_classes ps)).

Abbreviation grove_step :=
  (fun (scores : list F32.t) '(tree, leaf) =>
     <[ (tree mod nclasses)%nat :=
          F32.add (default F32.pos_zero (scores !! (tree mod nclasses)%nat))
                  leaf ]> scores).

Lemma grove_fold_spec (leaves : list val_t) :
  (0 < nclasses)%nat ->
  forall (first : nat) (init : list F32.t),
  length init = nclasses ->
  let scores :=
    foldl grove_step init (imap (fun i x => ((first + i)%nat, x)) leaves) in
  length scores = nclasses /\
  forall c x, init !! c = Some x ->
    scores !! c
    = Some (foldl F32.add x (class_leaves nclasses c first leaves)).
Proof.
  intros Hn. induction leaves as [|leaf leaves IH]; intros first init Hinit.
  - simpl. split; [exact Hinit|]. intros c x Hx. exact Hx.
  - cbn [imap foldl].
    rewrite (imap_ext _ (fun i x => ((S first + i)%nat, x)))
      by (intros i x _; simpl; f_equal; lia).
    rewrite Nat.add_0_r.
    set (c0 := (first mod nclasses)%nat).
    assert (Hc0 : (c0 < nclasses)%nat) by (apply Nat.mod_upper_bound; lia).
    set (init' := <[ c0 := F32.add (default F32.pos_zero (init !! c0)) leaf ]>
                    init).
    destruct (IH (S first) init') as [IHlen IHc].
    { unfold init'. rewrite length_insert. exact Hinit. }
    split; [exact IHlen|].
    intros c x Hx. cbn [class_leaves]. fold c0.
    destruct (Nat.eqb_spec c0 c) as [<-|Hne].
    + rewrite (IHc c0 (F32.add x leaf)); [reflexivity|].
      unfold init'. rewrite Hx. simpl.
      apply list_lookup_insert_eq. lia.
    + apply IHc. unfold init'.
      rewrite list_lookup_insert_ne by exact Hne. exact Hx.
Qed.

End Grove_facts.

(** For a grove-per-class forest, [predict_on_cpu] keeps one accumulator per
    class; the accumulator of class [c] ends as the sum, added up from 0.0
    in the order of the trees, of the leaf outputs of the trees whose index
    is [c] modulo the number of classes, and of no other tree. *)
Theorem grove_class_scores_sums (ps : FIL.FilTestParams)
    (leaves : list FIL.val_t) :
  0 < FIL.num_classes ps ->
  length (FIL.grove_class_scores ps leaves) = Z.to_nat (FIL.num_classes ps) /\
  forall c, (c < Z.to_nat (FIL.num_classes ps))%nat ->
    FIL.grove_class_scores ps leaves !! c
    = Some (foldl F32.add F32.pos_zero
              (class_leaves (Z.to_nat (FIL.num_classes ps)) c 0 leaves)).
Proof.
  intros Hn. unfold FIL.grove_class_scores. cbv zeta.
  destruct (grove_fold_spec ps leaves ltac:(lia) 0
              (replicate (Z.to_nat (FIL.num_classes ps)) F32.pos_zero)
              (length_replicate _ _)) as [Hlen Hc].
  split; [exact Hlen|].
  intros c Hcn. apply Hc. apply lookup_replicate_2. exact Hcn.
Qed.

Lemma grove_class_scores_sums_witness :
  let ps := FIL.mkParams 1 1 4 FIL.RAW F32.pos_zero F32.pos_zero FIL.kLT
              FIL.GROVE_PER_CLASS 2 in
  FIL.grove_class_scores ps [F32.one; 0x40000000; F32.one; 0x40000000]
  !! 1%nat = Some 0x40800000.
Proof.
  intros ps.
  destruct (grove_class_scores_sums ps
              [F32.one; 0x40000000; F32.one; 0x40000000] eq_refl) as [_ H].
  etransitivity; [apply (H 1%nat); vm_compute; lia|].
  vm_compute. reflexivity.
Defined.
(** ** The blocks of [nodeSplitKernel] together *)

(** One block on its own range. *)
Lemma partitionSamples_block (TPB : nat) (input : DT.Input)
    (split : DT.Split) (wi : DT.NodeWorkItem) (lcomp0 rcomp0 : list nat) :
  (0 < TPB)%nat -> length lcomp0 = TPB -> length rcomp0 = TPB ->
  (DT.range_end wi <= length (DT.rowids input))%nat ->
  let range := slice (DT.rowids input) (DT.range_start wi) (DT.range_len wi) in
  DT.nLeft split
  = Z.of_nat (length (filter (fun r => goes_left input split r = true) range)) ->
  F32.isnan (DT.quesval split) = false ->
  Forall (fun r => F32.isnan (DT.col_at input split r) = false) range ->
  exists rows',
    DT.partitionSamples TPB input split wi lcomp0 rcomp0 = Some rows' /\
    length rows' = length (DT.rowids input) /\
    (forall p, (p < DT.range_start wi \/ DT.range_end wi <= p)%nat ->
       rows' !! p = DT.rowids input !! p) /\
    slice rows' (DT.range_start wi) (DT.range_len wi) ≡ₚ range /\
    (forall p, (DT.range_start wi <= p < DT.part split wi)%nat ->
       goes_left input split (DT.rowid_at rows' p) = true) /\
    (forall p, (DT.part split wi <= p < DT.range_end wi)%nat ->
       goes_left input split (DT.rowid_at rows' p) = false).
Proof.
  intros HTPB Hl Hr Hend range HnLeft Hq Hnan.
  set (s := DT.range_start wi) in *.
  set (n := DT.range_len wi) in *.
  assert (DT.range_end wi = s + n)%nat as Hre by reflexivity.
  set (nL := length (filter (fun r => goes_left input split r = true) range))
    in *.
  assert (length range = n) as Hrl by (apply slice_length; lia).
  assert (nL <= n)%nat as HnL.
  { unfold nL. rewrite <- Hrl. apply length_filter. }
  assert (DT.part split wi = s + nL)%nat as Hp.
  { unfold DT.part. fold s. rewrite HnLeft. lia. }
  assert (DT.part split wi <= DT.range_end wi)%nat as Hpart by lia.
  destruct (part_loop_inv TPB input split wi HTPB Hpart Hend (S n)
              (DT.part_init TPB input split wi lcomp0 rcomp0)
              (part_init_inv TPB input split wi HTPB Hpart Hend
                 lcomp0 rcomp0 Hl Hr))
    as (st' & Hloop & [Ilen Iperm Iframe Ilo Iro IcL IcR _ _ _ _] & Hexit).
  { simpl. fold s. lia. }
  exists (DT.ps_rowids st').
  unfold DT.partitionSamples. fold n. rewrite Hloop. simpl.
  set (rows' := DT.ps_rowids st') in *.
  assert (slice rows' s n ≡ₚ range) as Hsp.
  { apply slice_Permutation; [assumption| |assumption].
    intros p Hpp. apply Iframe. fold s. lia. }
  split; [reflexivity|]. split; [assumption|].
  split; [exact Iframe|]. split; [exact Hsp|].
  (* the rows of the range, split at [part] *)
  assert (Forall (fun r => is_greater input split r
                           = negb (goes_left input split r))
            (slice rows' s n)) as Hcompl.
  { rewrite Hsp. eapply Forall_impl; [exact Hnan|].
    intros r Hr0. cbv beta in Hr0.
    apply gt_not_le; assumption. }
  assert (length (filter (fun r => goes_left input split r = true)
                    (slice rows' s n)) = nL) as Hcount.
  { unfold nL. rewrite Hsp. reflexivity. }
  replace n with (nL + (n - nL))%nat in Hcount, Hcompl by lia.
  rewrite slice_app in Hcount, Hcompl.
  rewrite filter_app, length_app in Hcount.
  apply Forall_app in Hcompl as [HcA HcB].
  assert (length (slice rows' s nL) = nL) as HlenA
    by (apply slice_length; lia).
  assert (forall (P : Z -> Prop) a m, (a + m <= length rows')%nat ->
            Forall P (slice rows' a m) ->
            forall p, (a <= p < a + m)%nat -> P (DT.rowid_at rows' p)) as Hat.
  { intros P a m Ham HF p Hpp.
    rewrite Forall_lookup in HF. apply (HF (p - a)%nat).
    rewrite slice_lookup by lia.
    replace (a + (p - a))%nat with p by lia.
    apply lookup_rowid_at. lia. }
  assert (forall (P : Z -> Prop) a m, (a + m <= length rows')%nat ->
            (forall p, (a <= p < a + m)%nat -> P (DT.rowid_at rows' p)) ->
            Forall P (slice rows' a m)) as Hto.
  { intros P a m Ham HP. apply Forall_lookup. intros i x Hi.
    assert (i < m)%nat as Him.
    { apply lookup_lt_Some in Hi. rewrite slice_length in Hi; lia. }
    rewrite slice_lookup in Hi by assumption.
    rewrite <- (rowid_at_lookup _ _ _ Hi). apply HP. lia. }
  assert (Forall (fun r => goes_left input split r = true)
            (slice rows' s nL) /\
          Forall (fun r => ~ goes_left input split r = true)
            (slice rows' (s + nL) (n - nL))) as [HA HB].
  { destruct Hexit as [Hx|Hx].
    - (* the left cursor passed [part]: the left half is clean *)
      assert (Forall (fun r => goes_left input split r = true)
                (slice rows' s nL)) as HA.
      { apply Hto; [lia|]. intros p Hpp.
        pose proof (Hat _ s nL ltac:(lia) HcA p Hpp) as Hc.
        cbv beta in Hc. rewrite IcL in Hc by (fold s; lia).
        destruct (goes_left input split (DT.rowid_at rows' p));
          [reflexivity|discriminate]. }
      split; [exact HA|].
      apply (filter_none_length (fun r => goes_left input split r = true)).
      rewrite (filter_Forall_length _ _ HA) in Hcount. lia.
    - (* the right cursor passed the end: the right half is clean *)
      assert (Forall (fun r => ~ goes_left input split r = true)
                (slice rows' (s + nL) (n - nL))) as HB.
      { apply Hto; [lia|]. intros p Hpp.
        rewrite IcR by (fold s; lia). discriminate. }
      split; [|exact HB].
      apply (filter_all_length (fun r => goes_left input split r = true)).
      rewrite (filter_Forall_not_length _ _ HB) in Hcount. lia. }
  split.
  - intros p Hpp. apply (Hat _ s nL ltac:(lia) HA). lia.
  - intros p Hpp.
    pose proof (Hat _ (s + nL)%nat (n - nL)%nat ltac:(lia) HB p ltac:(lia))
      as Hn.
    cbv beta in Hn.
    destruct (goes_left input split (DT.rowid_at rows' p));
      [contradiction Hn; reflexivity|reflexivity].
Qed.

Lemma slice_ext {A : Type} (l1 l2 : list A) (s n : nat) :
  (forall p, (s <= p < s + n)%nat -> l1 !! p = l2 !! p) ->
  slice l1 s n = slice l2 s n.
Proof.
  intros H. apply list_eq. intros i.
  destruct (Nat.lt_ge_cases i n) as [Hi|Hi].
  - rewrite !slice_lookup by exact Hi. apply H. lia.
  - unfold slice. rewrite !lookup_take_ge by exact Hi. reflexivity.
Qed.

Section Grid_facts.
Import DT.
Variables (TPB : nat) (msl : Z) (mid : F32.t) (input : Input).
Variables (work_items : list NodeWorkItem) (splits : list Split).
Variables (lcomp0 rcomp0 : list nat).
Hypothesis HTPB : (0 < TPB)%nat.
Hypothesis Hlc : length lcomp0 = TPB.
Hypothesis Hrc : length rcomp0 = TPB.
Hypothesis Hsplits : length splits = length work_items.
Hypothesis Hdisj : ranges_disjoint work_items.
Hypothesis Hin : forall b wi, work_items !! b = Some wi ->
  (range_end wi <= length (rowids input))%nat /\
  Z.of_nat (range_len wi) < 2 ^ 31.
Hypothesis Hacc : forall b wi split,
  work_items !! b = Some wi -> splits !! b = Some split ->
  SplitNotValid split mid msl (Z.of_nat (range_len wi)) = false ->
  split_consistent input split wi.

Let with_rows (rows : list Z) : Input := mkInput (data input) (M input) rows.

(** What a block that has run leaves in its range. *)
Let Post (wi : NodeWorkItem) (split : Split) (rows : list Z) : Prop :=
  slice rows (range_start wi) (range_len wi)
  ≡ₚ slice (rowids input) (range_start wi) (range_len wi) /\
  (SplitNotValid split mid msl (Z.of_nat (range_len wi)) = true ->
   slice rows (range_start wi) (range_len wi)
   = slice (rowids input) (range_start wi) (range_len wi)) /\
  (SplitNotValid split mid msl (Z.of_nat (range_len wi)) = false ->
   (part split wi <= range_end wi)%nat /\
   range_partitioned input split wi rows).

Lemma Post_ext (wi : NodeWorkItem) (split : Split) (rows rows' : list Z) :
  (forall p, (range_start wi <= p < range_end wi)%nat ->
     rows' !! p = rows !! p) ->
  Post wi split rows -> Post wi split rows'.
Proof.
  intros Hext (Hperm & Hrej & Hok).
  assert (Hs : slice rows' (range_start wi) (range_len wi)
               = slice rows (range_start wi) (range_len wi)).
  { apply slice_ext. intros p Hp. apply Hext. unfold range_end. lia. }
  unfold Post. rewrite Hs. split; [exact Hperm|]. split; [exact Hrej|].
  intros Hv. destruct (Hok Hv) as (Hpart & HL & HR).
  split; [exact Hpart|]. split.
  - intros p Hp. unfold rowid_at. rewrite Hext by lia. apply HL. exact Hp.
  - intros p Hp. unfold rowid_at.
    rewrite Hext by (unfold part in Hp; lia). apply HR. exact Hp.
Qed.

Lemma block_step (b : nat) (wi : NodeWorkItem) (split : Split)
    (rows : list Z) :
  work_items !! b = Some wi -> splits !! b = Some split ->
  length rows = length (rowids input) ->
  (forall p, (range_start wi <= p < range_end wi)%nat ->
     rows !! p = rowids input !! p) ->
  exists rows',
    nodeSplitKernel TPB msl mid (with_rows rows) work_items splits
      lcomp0 rcomp0 b = Some rows' /\
    length rows' = length rows /\
    (forall p, (p < range_start wi \/ range_end wi <= p)%nat ->
       rows' !! p = rows !! p) /\
    Post wi split rows'.
Proof.
  intros Hw Hs Hlen Hsame.
  destruct (Hin b wi Hw) as [Hend Hsmall].
  assert (Hsl : slice rows (range_start wi) (range_len wi)
                = slice (rowids input) (range_start wi) (range_len wi)).
  { apply slice_ext. intros p Hp. apply Hsame. unfold range_end. lia. }
  unfold nodeSplitKernel. rewrite Hw, Hs. simpl.
  assert (Hcount : wrap_size_t
                     (wrap_int (Z.of_nat (range_count (instances wi))))
                   = Z.of_nat (range_len wi)).
  { unfold range_len in *. rewrite wrap_int_small by lia.
    unfold wrap_size_t. apply Z.mod_small. lia. }
  rewrite Hcount.
  destruct (SplitNotValid split mid msl (Z.of_nat (range_len wi))) eqn:Hv.
  - exists rows. split; [reflexivity|]. split; [reflexivity|].
    split; [reflexivity|].
    unfold Post. rewrite Hsl, Hv.
    split; [reflexivity|]. split; [reflexivity|discriminate].
  - destruct (Hacc b wi split Hw Hs Hv) as (HnL & Hq & Hnan).
    destruct (partitionSamples_block TPB (with_rows rows) split wi
                lcomp0 rcomp0 HTPB Hlc Hrc) as
      (rows' & Hp & Hlen' & Hframe & Hperm & HL & HR).
    + change (range_end wi <= length rows)%nat. lia.
    + change (nLeft split
              = Z.of_nat
                  (length
                     (filter (fun r => goes_left input split r = true)
                        (slice rows (range_start wi) (range_len wi))))).
      rewrite Hsl. exact HnL.
    + exact Hq.
    + change (Forall (fun r => F32.isnan (col_at input split r) = false)
                (slice rows (range_start wi) (range_len wi))).
      rewrite Hsl. exact Hnan.
    + exists rows'. split; [exact Hp|].
      split; [exact Hlen'|]. split; [exact Hframe|].
      unfold Post. rewrite Hv.
      change (rowids (with_rows rows)) with rows in Hperm.
      rewrite Hsl in Hperm.
      split; [exact Hperm|]. split; [discriminate|].
      intros _. split.
      * unfold part, range_end. rewrite HnL.
        pose proof (length_filter (fun r => goes_left input split r = true)
                      (slice (rowids input) (range_start wi) (range_len wi))).
        rewrite slice_length in H by (unfold range_end in Hend; lia).
        lia.
      * split; [exact HL|exact HR].
Qed.

Lemma grid_inv (order : list nat) :
  NoDup order ->
  (forall b, b ∈ order -> (b < length work_items)%nat) ->
  exists rows',
    nodeSplitKernel_grid TPB msl mid input work_items splits lcomp0 rcomp0
      order = Some rows' /\
    length rows' = length (rowids input) /\
    (forall p,
       (forall b wi, b ∈ order -> work_items !! b = Some wi ->
          (p < range_start wi \/ range_end wi <= p)%nat) ->
       rows' !! p = rowids input !! p) /\
    (forall b wi split, b ∈ order ->
       work_items !! b = Some wi -> splits !! b = Some split ->
       Post wi split rows').
Proof.
  induction order as [|c order IH] using rev_ind; intros Hnd Hlt.
  - exists (rowids input). split; [reflexivity|]. split; [reflexivity|].
    split; [reflexivity|]. intros b wi split Hb. apply elem_of_nil in Hb.
    contradiction.
  - apply NoDup_app in Hnd as (Hnd & Hnotin & _).
    destruct IH as (rows & Hgrid & Hlen & Hout & Hpost);
      [exact Hnd|intros b Hb; apply Hlt, elem_of_app; left; exact Hb|].
    assert (Hc : c ∉ order).
    { intros Hc. apply (Hnotin c Hc). apply list_elem_of_singleton.
      reflexivity. }
    assert (Hcl : (c < length work_items)%nat).
    { apply Hlt, elem_of_app. right. apply list_elem_of_singleton.
      reflexivity. }
    destruct (lookup_lt_is_Some_2 work_items c Hcl) as [wc Hwc].
    destruct (lookup_lt_is_Some_2 splits c ltac:(lia)) as [sc Hsc].
    assert (Hapart : forall b wi, b ∈ order -> work_items !! b = Some wi ->
              (range_end wi <= range_start wc \/
               range_end wc <= range_start wi)%nat).
    { intros b wi Hb Hwi. apply (Hdisj b c wi wc); [|exact Hwi|exact Hwc].
      intros ->. contradiction. }
    destruct (block_step c wc sc rows Hwc Hsc Hlen) as
      (rows' & Hk & Hlen' & Hframe & Hpc).
    { intros p Hp. apply Hout. intros b wi Hb Hwi.
      destruct (Hapart b wi Hb Hwi); lia. }
    exists rows'.
    unfold nodeSplitKernel_grid in *. rewrite foldl_app, Hgrid. simpl.
    split; [exact Hk|]. split; [lia|]. split.
    + intros p Hp. rewrite Hframe.
      * apply Hout. intros b wi Hb Hwi. apply (Hp b wi); [|exact Hwi].
        apply elem_of_app. left. exact Hb.
      * apply (Hp c wc); [|exact Hwc].
        apply elem_of_app. right. apply list_elem_of_singleton. reflexivity.
    + intros b wi split Hb Hwi Hs.
      apply elem_of_app in Hb as [Hb|Hb].
      * apply (Post_ext wi split rows rows'); [|apply (Hpost b); assumption].
        intros p Hp. apply Hframe.
        destruct (Hapart b wi Hb Hwi); lia.
      * apply list_elem_of_singleton in Hb. subst b.
        rewrite Hwc in Hwi. rewrite Hsc in Hs.
        injection Hwi as <-. injection Hs as <-. exact Hpc.
Qed.

End Grid_facts.

(** The launch as a whole.  Let the instance ranges of the work items lie in
    the row-id array without overlapping, and let every accepted split be
    consistent with the rows of its range.  Then, in whatever order the
    blocks run, the launch terminates; the row ids outside the ranges stay
    where they are; every range keeps its row ids; the range of a rejected
    split is left as it was; and the range of an accepted split ends up
    partitioned, the rows that go left before its partition point. *)
Theorem nodeSplitKernel_grid_partitions (TPB : nat) (msl : Z) (mid : F32.t)
    (input : DT.Input) (work_items : list DT.NodeWorkItem)
    (splits : list DT.Split) (lcomp0 rcomp0 : list nat) (order : list nat) :
  (0 < TPB)%nat -> length lcomp0 = TPB -> length rcomp0 = TPB ->
  length splits = length work_items ->
  ranges_disjoint work_items ->
  (forall b wi, work_items !! b = Some wi ->
     (DT.range_end wi <= length (DT.rowids input))%nat /\
     Z.of_nat (DT.range_len wi) < 2 ^ 31) ->
  (forall b wi split,
     work_items !! b = Some wi -> splits !! b = Some split ->
     DT.SplitNotValid split mid msl (Z.of_nat (DT.range_len wi)) = false ->
     split_consistent input split wi) ->
  NoDup order ->
  (forall b, b ∈ order -> (b < length work_items)%nat) ->
  exists rows',
    DT.nodeSplitKernel_grid TPB msl mid input work_items splits lcomp0 rcomp0
      order = Some rows' /\
    length rows' = length (DT.rowids input) /\
    (forall p,
       (forall b wi, b ∈ order -> work_items !! b = Some wi ->
          (p < DT.range_start wi \/ DT.range_end wi <= p)%nat) ->
       rows' !! p = DT.rowids input !! p) /\
    forall b wi split, b ∈ order ->
      work_items !! b = Some wi -> splits !! b = Some split ->
      slice rows' (DT.range_start wi) (DT.range_len wi)
      ≡ₚ slice (DT.rowids input) (DT.range_start wi) (DT.range_len wi) /\
      (DT.SplitNotValid split mid msl (Z.of_nat (DT.range_len wi)) = true ->
       slice rows' (DT.range_start wi) (DT.range_len wi)
       = slice (DT.rowids input) (DT.range_start wi) (DT.range_len wi)) /\
      (DT.SplitNotValid split mid msl (Z.of_nat (DT.range_len wi)) = false ->
       range_partitioned input split wi rows').
Proof.
  intros HTPB Hlc Hrc Hsplits Hdisj Hin Hacc Hnd Hlt.
  destruct (grid_inv TPB msl mid input work_items splits lcomp0 rcomp0
              HTPB Hlc Hrc Hsplits Hdisj Hin Hacc order Hnd Hlt)
    as (rows' & Hgrid & Hlen & Hout & Hpost).
  exists rows'. split; [exact Hgrid|]. split; [exact Hlen|].
  split; [exact Hout|].
  intros b wi split Hb Hwi Hs.
  destruct (Hpost b wi split Hb Hwi Hs) as (Hperm & Hrej & Hok).
  split; [exact Hperm|]. split; [exact Hrej|].
  intros Hv. apply Hok. exact Hv.
Qed.

(** Two nodes of two rows each, the second block running first. *)
Lemma nodeSplitKernel_grid_partitions_witness :
  let input :=
    DT.mkInput [0x40000000; F32.one; 0x40000000; F32.one] 4 [0; 1; 2; 3] in
  let work_items :=
    [DT.mkNodeWorkItem 1 1 (DT.mkInstanceRange 0 2);
     DT.mkNodeWorkItem 2 1 (DT.mkInstanceRange 2 2)] in
  let splits :=
    [DT.mkSplit F32.one 0 F32.one 1; DT.mkSplit F32.one 0 F32.one 1] in
  exists rows',
    DT.nodeSplitKernel_grid 2 1 F32.pos_zero input work_items splits
      [0; 0]%nat [0; 0]%nat [1; 0]%nat = Some rows' /\
    length rows' = 4%nat.
Proof.
  intros input work_items splits.
  destruct (nodeSplitKernel_grid_partitions 2 1 F32.pos_zero input work_items
              splits [0; 0]%nat [0; 0]%nat [1; 0]%nat)
    as (rows' & H1 & H2 & _).
  - lia.
  - reflexivity.
  - reflexivity.
  - reflexivity.
  - intros a b wa wb Hab Ha Hb.
    destruct a as [|[|a]], b as [|[|b]]; try discriminate; try congruence;
      injection Ha as <-; injection Hb as <-; vm_compute; lia.
  - intros b wi Hb.
    destruct b as [|[|b]]; try discriminate; injection Hb as <-;
      vm_compute; (split; [lia|reflexivity]).
  - intros b wi split Hb Hs _.
    destruct b as [|[|b]]; try discriminate;
      injection Hb as <-; injection Hs as <-;
      (split; [vm_compute; reflexivity|]);
      (split; [vm_compute; reflexivity|]);
      repeat (constructor; [vm_compute; reflexivity|]); constructor.
  - apply NoDup_cons. split; [|apply NoDup_singleton].
    intros H. apply list_elem_of_singleton in H. discriminate.
  - intros b Hb. simpl.
    repeat (apply elem_of_cons in Hb as [->|Hb]; [lia|]).
    apply elem_of_nil in Hb. contradiction.
  - exists rows'. split; [exact H1|exact H2].
Defined.
(** ** The trees handed to the tree builder *)

Section Node_to_treelite_facts.
Import FIL.
Variable ps : FilTestParams.
Variable cat_sets_h : cat_sets.
Variable vector_leaf : list F32.t.
Variable nodes : list dense_node.
Hypothesis Halgo :
  leaf_algo ps <> GROVE_PER_CLASS_FEW_CLASSES /\
  leaf_algo ps <> GROVE_PER_CLASS_MANY_CLASSES.
Hypothesis Hop :
  op ps = kLT \/ op ps = kLE \/ op ps = kGT \/ op ps = kGE.

Abbreviation n2t := (node_to_treelite ps cat_sets_h vector_leaf nodes).

Lemma node_to_treelite_unfold (fuel root node : nat) (pkey : Z)
    (builder : list tl_command) :
  n2t fuel root node (pkey, builder) =
  match nodes !! node with
  | None => None
  | Some dense_node =>
      if is_leaf dense_node then
        Some (pkey, (wrap_int (pkey + 1),
                     (builder ++ [CreateNode pkey])
                     ++ leaf_commands ps vector_leaf pkey dense_node))
      else
        match fuel with
        | O => None
        | S fuel' =>
            match n2t fuel' root (root + 2 * (node - root) + 1)%nat
                    (wrap_int (pkey + 1), builder ++ [CreateNode pkey]) with
            | None => None
            | Some (left_key, st) =>
                match n2t fuel' root (root + 2 * (node - root) + 2)%nat st with
                | None => None
                | Some (right_key, (pkey', builder')) =>
                    if negb (bool_decide
                               ((if is_categorical dense_node
                                 then left_categories cat_sets_h dense_node
                                 else []) = []))
                       && is_categorical dense_node
                    then
                      Some (pkey,
                            (pkey',
                             builder' ++
                             [SetCategoricalTestNode pkey (fid dense_node)
                                (if is_categorical dense_node
                                 then left_categories cat_sets_h dense_node
                                 else [])
                                (negb (def_left dense_node))
                                right_key left_key]))
                    else
                      match adjust_threshold_to_treelite
                              (if is_categorical dense_node
                               then F32.quiet_nan else val dense_node)
                              left_key right_key (def_left dense_node)
                              (op ps) with
                      | None => None
                      | Some (threshold, l, r, dl) =>
                          Some (pkey,
                                (pkey',
                                 builder' ++
                                 [SetNumericalTestNode pkey (fid dense_node)
                                    (op ps) threshold dl l r]))
                      end
                end
            end
        end
  end.
Proof.
  destruct fuel; cbn [node_to_treelite];
    destruct (nodes !! node) as [dn|]; try reflexivity; cbn [mbind option_bind];
    destruct (is_leaf dn); try reflexivity.
Qed.

Lemma adjust_keys (t : F32.t) (l r : Z) (dl : bool) :
  exists t' l' r' dl',
    adjust_threshold_to_treelite t l r dl (op ps) = Some (t', l', r', dl') /\
    ((l' = l /\ r' = r) \/ (l' = r /\ r' = l)).
Proof.
  unfold adjust_threshold_to_treelite.
  destruct (F32.isnan t); [do 4 eexists; split; [reflexivity|auto]|].
  destruct Hop as [->|[->|[->| ->]]]; do 4 eexists;
    (split; [reflexivity|auto]).
Qed.

Lemma leaf_commands_keys (key : Z) (dn : dense_node) :
  created_keys (leaf_commands ps vector_leaf key dn) = [] /\
  set_keys (leaf_commands ps vector_leaf key dn) = [key] /\
  forall bound, Forall (children_within bound)
                  (leaf_commands ps vector_leaf key dn).
Proof.
  unfold leaf_commands. destruct Halgo as [H1 H2].
  destruct (leaf_algo ps); try contradiction;
    (split; [reflexivity|]); (split; [reflexivity|]);
    intros bound; repeat constructor.
Qed.

Lemma created_keys_app (a b : list tl_command) :
  created_keys (a ++ b) = created_keys a ++ created_keys b.
Proof. unfold created_keys. apply bind_app. Qed.

Lemma set_keys_app (a b : list tl_command) :
  set_keys (a ++ b) = set_keys a ++ set_keys b.
Proof. unfold set_keys. apply bind_app. Qed.

Lemma children_within_mono (b b' : Z) (c : tl_command) :
  b <= b' -> children_within b c -> children_within b' c.
Proof. destruct c; simpl; intros; (exact I || lia). Qed.

Lemma pow_ge_2 (n : nat) : 2 <= 2 ^ (Z.of_nat n + 1).
Proof.
  replace (Z.of_nat n + 1) with (Z.succ (Z.of_nat n)) by lia.
  rewrite Z.pow_succ_r by lia.
  pose proof (Z.pow_pos_nonneg 2 (Z.of_nat n) ltac:(lia) ltac:(lia)). lia.
Qed.

Lemma node_to_treelite_leaf (h fuel root node : nat) (k0 : Z)
    (tr0 : list tl_command) (dn : dense_node) :
  nodes !! node = Some dn -> is_leaf dn = true ->
  0 <= k0 -> k0 + 2 ^ (Z.of_nat h + 1) <= 2 ^ 31 ->
  exists k1 new,
    n2t fuel root node (k0, tr0) = Some (k0, (k1, tr0 ++ new)) /\
    k0 < k1 <= k0 + 2 ^ (Z.of_nat h + 1) - 1 /\
    created_keys new = seqZ k0 (k1 - k0) /\
    set_keys new ≡ₚ seqZ k0 (k1 - k0) /\
    Forall (children_within k1) new.
Proof.
  intros Hdn Hleaf Hk0 Hbig. pose proof (pow_ge_2 h) as Hp.
  rewrite node_to_treelite_unfold, Hdn, Hleaf.
  destruct (leaf_commands_keys k0 dn) as (Hc & Hs & Hch).
  exists (k0 + 1), ([CreateNode k0] ++ leaf_commands ps vector_leaf k0 dn).
  rewrite wrap_int_small by lia. rewrite <- app_assoc.
  split; [reflexivity|]. split; [lia|].
  rewrite created_keys_app, set_keys_app, Hc, Hs.
  replace (k0 + 1 - k0) with 1 by lia.
  split; [reflexivity|]. split; [reflexivity|].
  apply Forall_app. split; [repeat constructor|apply Hch].
Qed.

Lemma node_to_treelite_spec (h : nat) :
  forall (i fuel root : nat) (k0 : Z) (tr0 : list tl_command),
  dense_wf nodes root h i -> (h <= fuel)%nat ->
  0 <= k0 -> k0 + 2 ^ (Z.of_nat h + 1) <= 2 ^ 31 ->
  exists k1 new,
    n2t fuel root (root + i)%nat (k0, tr0) = Some (k0, (k1, tr0 ++ new)) /\
    k0 < k1 <= k0 + 2 ^ (Z.of_nat h + 1) - 1 /\
    created_keys new = seqZ k0 (k1 - k0) /\
    set_keys new ≡ₚ seqZ k0 (k1 - k0) /\
    Forall (children_within k1) new.
Proof.
  induction h as [|h IH]; intros i fuel root k0 tr0 Hwf Hfuel Hk0 Hbig;
    rewrite dense_wf_unfold in Hwf;
    destruct (nodes !! (root + i)%nat) as [dn|] eqn:Hdn; try contradiction;
    destruct (is_leaf dn) eqn:Hleaf; try contradiction;
    try (apply (node_to_treelite_leaf _ _ _ _ _ _ dn); assumption).
  rewrite node_to_treelite_unfold, Hdn, Hleaf.
  destruct fuel as [|fuel]; [lia|].
  destruct Hwf as [HwL HwR].
  assert (Hpow : 2 ^ (Z.of_nat (S h) + 1) = 2 * 2 ^ (Z.of_nat h + 1)).
  { replace (Z.of_nat (S h) + 1) with (Z.succ (Z.of_nat h + 1)) by lia.
    apply Z.pow_succ_r. lia. }
  assert (Hp1 : 2 <= 2 ^ (Z.of_nat h + 1)).
  { apply pow_ge_2. }
  rewrite wrap_int_small by lia.
  replace (root + 2 * (root + i - root) + 1)%nat
    with (root + (2 * i + 1))%nat by lia.
  replace (root + 2 * (root + i - root) + 2)%nat
    with (root + (2 * i + 2))%nat by lia.
  destruct (IH (2 * i + 1)%nat fuel root (k0 + 1) (tr0 ++ [CreateNode k0])
              HwL ltac:(lia) ltac:(lia) ltac:(lia))
    as (kL & newL & HL & HkL & HcL & HsL & HchL).
  rewrite HL.
  destruct (IH (2 * i + 2)%nat fuel root kL
              ((tr0 ++ [CreateNode k0]) ++ newL)
              HwR ltac:(lia) ltac:(lia) ltac:(lia))
    as (k1 & newR & HR & Hk1 & HcR & HsR & HchR).
  rewrite HR.
  assert (Hcre : created_keys ([CreateNode k0] ++ newL ++ newR)
                 = seqZ k0 (k1 - k0)).
  { rewrite !created_keys_app, HcL, HcR.
    rewrite (seqZ_cons k0 (k1 - k0)) by lia.
    replace (Z.pred (k1 - k0)) with ((kL - (k0 + 1)) + (k1 - kL)) by lia.
    rewrite seqZ_app by lia.
    replace (Z.succ k0 + (kL - (k0 + 1))) with kL by lia.
    replace (Z.succ k0) with (k0 + 1) by lia. reflexivity. }
  assert (Hset : set_keys ([CreateNode k0] ++ newL ++ newR) ++ [k0]
                 ≡ₚ seqZ k0 (k1 - k0)).
  { rewrite !set_keys_app, HsL, HsR.
    change (set_keys [CreateNode k0]) with (@nil Z). rewrite app_nil_l.
    rewrite (seqZ_cons k0 (k1 - k0)) by lia.
    replace (Z.pred (k1 - k0)) with ((kL - (k0 + 1)) + (k1 - kL)) by lia.
    rewrite seqZ_app by lia.
    replace (Z.succ k0 + (kL - (k0 + 1))) with kL by lia.
    replace (Z.succ k0) with (k0 + 1) by lia.
    rewrite <- Permutation_cons_append. reflexivity. }
  assert (Hch : Forall (children_within k1) ([CreateNode k0] ++ newL ++ newR)).
  { apply Forall_app. split; [repeat constructor|].
    apply Forall_app. split; [|exact HchR].
    eapply Forall_impl; [exact HchL|].
    intros c. apply children_within_mono. lia. }
  destruct (negb _ && is_categorical dn).
  - exists k1, ([CreateNode k0] ++ newL ++ newR
                ++ [SetCategoricalTestNode k0 (fid dn)
                      (if is_categorical dn
                       then left_categories cat_sets_h dn else [])
                      (negb (def_left dn)) kL (k0 + 1)]).
    split; [rewrite <- !app_assoc; reflexivity|].
    split; [lia|].
    rewrite !app_assoc, created_keys_app, set_keys_app, <- !app_assoc.
    rewrite Hcre. split; [apply app_nil_r|]. split; [exact Hset|].
    rewrite !app_assoc. apply Forall_app.
    rewrite <- !app_assoc. split; [exact Hch|].
    repeat constructor; lia.
  - destruct (adjust_keys (if is_categorical dn then F32.quiet_nan else val dn)
                (k0 + 1) kL (def_left dn))
      as (t' & l' & r' & dl' & Hadj & Hlr).
    rewrite Hadj.
    exists k1, ([CreateNode k0] ++ newL ++ newR
                ++ [SetNumericalTestNode k0 (fid dn) (op ps) t' dl' l' r']).
    split; [rewrite <- !app_assoc; reflexivity|].
    split; [lia|].
    rewrite !app_assoc, created_keys_app, set_keys_app, <- !app_assoc.
    rewrite Hcre. split; [apply app_nil_r|]. split; [exact Hset|].
    rewrite !app_assoc. apply Forall_app.
    rewrite <- !app_assoc. split; [exact Hch|].
    repeat constructor; destruct Hlr as [[-> ->]|[-> ->]]; lia.
Qed.

End Node_to_treelite_facts.

(** For every tree of a forest of the generated shape, with a supported leaf
    algorithm and one of the four comparison operators, [node_to_treelite]
    terminates and hands the builder a well-formed tree: the nodes are
    created exactly once each, with the consecutive keys 0, 1, 2, ... in the
    order of creation, the root having key 0; every created node is set
    exactly once, as a leaf or as a test node; and every test node names as
    its children two different nodes created after it. *)
Theorem build_tree_wellformed (ps : FIL.FilTestParams)
    (cat_sets_h : FIL.cat_sets) (vector_leaf : list F32.t)
    (nodes : list FIL.dense_node) (fuel i_tree : nat) :
  FIL.leaf_algo ps <> FIL.GROVE_PER_CLASS_FEW_CLASSES /\
  FIL.leaf_algo ps <> FIL.GROVE_PER_CLASS_MANY_CLASSES ->
  FIL.op ps = FIL.kLT \/ FIL.op ps = FIL.kLE \/ FIL.op ps = FIL.kGT \/
  FIL.op ps = FIL.kGE ->
  dense_forest_shape ps nodes ->
  (i_tree < Z.to_nat (FIL.num_trees ps))%nat ->
  (FIL.depth ps <= 29)%nat -> (FIL.depth ps <= fuel)%nat ->
  exists n cmds,
    FIL.build_tree ps cat_sets_h vector_leaf nodes fuel i_tree
    = Some (cmds ++ [FIL.SetRootNode 0]) /\
    0 < n < 2 ^ (Z.of_nat (FIL.depth ps) + 1) /\
    created_keys cmds = seqZ 0 n /\
    set_keys cmds ≡ₚ seqZ 0 n /\
    Forall (children_within n) cmds.
Proof.
  intros Halgo Hop Hshape Ht Hdepth Hfuel.
  pose proof (shape_wf ps nodes Hshape i_tree Ht) as Hwf.
  assert (Hbig : 0 + 2 ^ (Z.of_nat (FIL.depth ps) + 1) <= 2 ^ 31).
  { transitivity (2 ^ 30); [|lia].
    rewrite Z.add_0_l. apply Z.pow_le_mono_r; lia. }
  destruct (node_to_treelite_spec ps cat_sets_h vector_leaf nodes Halgo Hop
              (FIL.depth ps) 0 fuel (i_tree * FIL.tree_num_nodes ps) 0 []
              Hwf Hfuel ltac:(lia) Hbig)
    as (k1 & new & Hn & Hk & Hc & Hs & Hch).
  exists k1, new.
  unfold FIL.build_tree. cbv zeta.
  rewrite Nat.add_0_r in Hn. rewrite Hn. simpl.
  rewrite Z.sub_0_r in Hc, Hs.
  split; [reflexivity|]. split; [lia|].
  split; [exact Hc|]. split; [exact Hs|exact Hch].
Qed.

(** A root over two leaves, with the operator ">". *)
Lemma build_tree_wellformed_witness :
  let ps := FIL.mkParams 1 1 1 FIL.RAW F32.pos_zero F32.pos_zero FIL.kGT
              FIL.FLOAT_UNARY_BINARY 1 in
  let nodes :=
    [FIL.make_dense_node 0 F32.one 0 true false false;
     FIL.make_dense_node 5 0 0 false true false;
     FIL.make_dense_node 6 0 0 false true false] in
  exists n cmds,
    FIL.build_tree ps (FIL.mkCatSets [] []) [] nodes 1 0
    = Some (cmds ++ [FIL.SetRootNode 0]) /\
    created_keys cmds = seqZ 0 n.
Proof.
  intros ps nodes.
  destruct (build_tree_wellformed ps (FIL.mkCatSets [] []) [] nodes 1 0)
    as (n & cmds & H1 & _ & H2 & _).
  - split; discriminate.
  - right. right. left. reflexivity.
  - split; [reflexivity|].
    intros t j node Ht Hr Hj.
    assert (t = 0%nat) as -> by (vm_compute in Ht; lia).
    vm_compute in Hr.
    destruct j as [|[|[|j]]]; try lia; injection Hj as <-; reflexivity.
  - vm_compute. lia.
  - simpl. lia.
  - simpl. lia.
  - exists n, cmds. split; [exact H1|exact H2].
Defined.
(** ** The rows of a node over the threads of its blocks *)

Section Histogram_rows_facts.
Import DT.

Lemma histogram_loop_shift (end_ stride s : Z) (fuel : nat) :
  1 <= stride -> 0 <= s -> s + end_ + stride < 2 ^ 64 ->
  forall i, 0 <= i ->
  histogram_loop fuel (s + end_) stride (s + i)
  = Z.add s <$> thread_indices end_ stride fuel i.
Proof.
  intros Hst Hs Hbig. induction fuel as [|fuel IH]; intros i Hi.
  - simpl. destruct (Z.ltb_spec (s + i) (s + end_)), (Z.ltb_spec i end_);
      try lia; reflexivity.
  - cbn [histogram_loop thread_indices].
    destruct (Z.ltb_spec (s + i) (s + end_)), (Z.ltb_spec i end_);
      try lia; [|reflexivity].
    rewrite fmap_cons. f_equal.
    unfold wrap_size_t. rewrite Z.mod_small by lia.
    replace (s + i + stride) with (s + (i + stride)) by lia.
    apply IH. lia.
Qed.

(** The threads of [nb] blocks of [bd] threads, block by block, carry the
    global ids [0 .. nb * bd - 1] in increasing order. *)
Lemma blocks_threads_flat {A : Type} (f : Z -> list A) (bd : Z) (nb : nat) :
  0 <= bd ->
  seqZ 0 (Z.of_nat nb) ≫= (fun ob => seqZ 0 bd ≫= (fun t => f (t + ob * bd)))
  = seqZ 0 (Z.of_nat nb * bd) ≫= f.
Proof.
  intros Hbd. induction nb as [|nb IH]; [reflexivity|].
  rewrite seqZ_S, bind_app, IH. simpl.
  replace (Z.of_nat (S nb) * bd) with (Z.of_nat nb * bd + bd) by lia.
  rewrite seqZ_app by nia. rewrite bind_app. f_equal.
  rewrite app_nil_r, !Z.add_0_l.
  assert (Hseq : seqZ (Z.of_nat nb * bd) bd
                 = Z.add (Z.of_nat nb * bd) <$> seqZ 0 bd)
    by (rewrite fmap_add_seqZ, Z.add_0_r; reflexivity).
  rewrite Hseq. clear IH Hseq.
  generalize (seqZ 0 bd). intros l.
  induction l as [|t l IHl]; [reflexivity|].
  rewrite fmap_cons, !bind_cons, IHl.
  replace (t + Z.of_nat nb * bd) with (Z.of_nat nb * bd + t) by lia.
  reflexivity.
Qed.

Lemma fmap_of_bind {A B C : Type} (g : B -> C) (f : A -> list B)
    (l : list A) :
  g <$> (l ≫= f) = l ≫= (fun x => g <$> f x).
Proof.
  induction l as [|x l IH]; [reflexivity|].
  rewrite !bind_cons, fmap_app, IH. reflexivity.
Qed.

End Histogram_rows_facts.

(** In the histogram loop of [computeSplitKernel], the threads of the
    [num_blocks] blocks that work on a node visit, between them, every
    position of the node's instance range exactly once: no row is counted
    twice and none is left out. *)
Theorem histogram_rows_once (work_item : DT.NodeWorkItem)
    (blockDim num_blocks : Z) :
  1 <= blockDim -> 1 <= num_blocks ->
  Z.of_nat (DT.range_len work_item) + blockDim * num_blocks < 2 ^ 31 ->
  Z.of_nat (DT.range_end work_item) < 2 ^ 63 ->
  seqZ 0 num_blocks ≫=
    (fun offset_blockid =>
       seqZ 0 blockDim ≫=
         (fun threadIdx =>
            DT.histogram_positions work_item blockDim num_blocks
              offset_blockid threadIdx))
  ≡ₚ seqZ (Z.of_nat (DT.range_start work_item))
       (Z.of_nat (DT.range_len work_item)).
Proof.
  intros Hbd Hnb Hsmall Hend.
  unfold DT.range_end in Hend. unfold DT.range_len, DT.range_start in *.
  rewrite Nat2Z.inj_add in Hend.
  set (s := Z.of_nat (DT.range_begin (DT.instances work_item))) in *.
  set (n := Z.of_nat (DT.range_count (DT.instances work_item))) in *.
  assert (Hs : 0 <= s) by (unfold s; lia).
  assert (Hn : 0 <= n) by (unfold n; lia).
  assert (Hsn : s + n < 2 ^ 63) by (unfold s, n; lia).
  set (stride := blockDim * num_blocks) in *.
  assert (Hstride : 1 <= stride) by (unfold stride; nia).
  pose (f := fun tid => Z.add s <$> thread_indices n stride (Z.to_nat n) tid).
  assert (Hpos : forall ob t, 0 <= ob < num_blocks -> 0 <= t < blockDim ->
            DT.histogram_positions work_item blockDim num_blocks ob t
            = f (t + ob * blockDim)).
  { intros ob t Hob Ht. unfold DT.histogram_positions. cbv zeta.
    fold s n stride.
    assert (0 <= t + ob * blockDim < stride) by (unfold stride; nia).
    unfold wrap_u32. rewrite !Z.mod_small by lia.
    rewrite !wrap_int_small by lia.
    unfold wrap_size_t. rewrite !Z.mod_small by lia.
    apply histogram_loop_shift; lia. }
  assert (Hbind : seqZ 0 num_blocks ≫=
            (fun ob => seqZ 0 blockDim ≫=
               (fun t => DT.histogram_positions work_item blockDim
                           num_blocks ob t))
          = seqZ 0 num_blocks ≫=
            (fun ob => seqZ 0 blockDim ≫= (fun t => f (t + ob * blockDim)))).
  { apply Forall_bind_ext, Forall_forall. intros ob Hob.
    apply elem_of_seqZ in Hob.
    apply Forall_bind_ext, Forall_forall. intros t Ht.
    apply elem_of_seqZ in Ht. apply Hpos; lia. }
  rewrite Hbind.
  replace num_blocks with (Z.of_nat (Z.to_nat num_blocks)) by lia.
  rewrite blocks_threads_flat by lia.
  rewrite Z2Nat.id by lia.
  replace (num_blocks * blockDim) with stride by (unfold stride; lia).
  unfold f.
  destruct (Z.eq_dec n 0) as [Hz|Hnz].
  - rewrite Hz. simpl.
    induction (seqZ 0 stride) as [|t l IHl]; [reflexivity|].
    rewrite bind_cons. simpl. destruct (t <? 0); exact IHl.
  - rewrite <- (fmap_of_bind (Z.add s)).
    rewrite (block_indices_Permutation n stride ltac:(lia) Hstride
               ltac:(lia)).
    rewrite fmap_add_seqZ. rewrite Z.add_0_r. reflexivity.
Qed.

(** Ten rows from position 5 on, over two blocks of two threads. *)
Lemma histogram_rows_once_witness :
  let wi := DT.mkNodeWorkItem 0 0 (DT.mkInstanceRange 5 10) in
  seqZ 0 2 ≫=
    (fun ob => seqZ 0 2 ≫= (fun t => DT.histogram_positions wi 2 2 ob t))
  ≡ₚ seqZ 5 10.
Proof.
  intros wi.
  apply (histogram_rows_once wi 2 2); vm_compute; discriminate || reflexivity.
Defined.
(** ** Output transform *)

Section Transform_facts.
Import FIL.
Variable expf : F32.t -> F32.t.

Lemma apply_softmax_length (scores : list F32.t) :
  length (apply_softmax expf scores) = length scores.
Proof. unfold apply_softmax. cbv zeta. rewrite !length_map. reflexivity. Qed.

Lemma apply_softmax_lookup (scores : list F32.t) (i : nat) (s : F32.t) :
  scores !! i = Some s ->
  let max := default F32.quiet_nan (scores !! max_element F32.lt scores) in
  let exps := map (fun s => expf (F32.sub s max)) scores in
  apply_softmax expf scores !! i
  = Some (F32.div (expf (F32.sub s max)) (accumulate exps)).
Proof.
  intros Hs. unfold apply_softmax. cbv zeta.
  change (@map) with (@fmap list _).
  rewrite !list_lookup_fmap, Hs. reflexivity.
Qed.

(** On values that are not NaN, [<] on [float] is [<] on the keys. *)
Lemma max_element_from_key (l : list F32.t) :
  forall (best_i : nat) (best : F32.t) (i : nat),
  F32.isnan best = false -> Forall (fun x => F32.isnan x = false) l ->
  max_element_from F32.lt best_i best i l
  = max_element_from Z.ltb best_i (F32.key best) i (map F32.key l).
Proof.
  induction l as [|x l IH]; intros best_i best i Hb Hl; [reflexivity|].
  apply Forall_cons in Hl as [Hx Hl]. cbn [map max_element_from].
  assert (Hlt : F32.lt best x = (F32.key best <? F32.key x)).
  { unfold F32.lt, F32.ordered. rewrite Hb, Hx. reflexivity. }
  rewrite Hlt. destruct (F32.key best <? F32.key x); apply IH; assumption.
Qed.

(** [std::max_element] over [float] values none of which is a NaN: the
    first position that holds a largest value. *)
Lemma max_element_float_first_max (l : list F32.t) :
  l <> [] -> Forall (fun x => F32.isnan x = false) l ->
  exists best,
    l !! max_element F32.lt l = Some best /\
    (forall j s, l !! j = Some s -> F32.lt best s = false) /\
    (forall j s, (j < max_element F32.lt l)%nat -> l !! j = Some s ->
       F32.lt s best = true).
Proof.
  intros Hne Hl.
  assert (Hkey : max_element F32.lt l = max_element Z.ltb (map F32.key l)).
  { destruct l as [|x l]; [congruence|].
    apply Forall_cons in Hl as [Hx Hl]. apply max_element_from_key; auto. }
  assert (Hnan : forall j s, l !! j = Some s -> F32.isnan s = false).
  { intros j s Hs. exact (proj1 (Forall_lookup _ _) Hl j s Hs). }
  destruct (max_element_first_max (map F32.key l)) as (v & Hv & Hle & Hlt).
  { destruct l; [congruence|discriminate]. }
  rewrite <- Hkey in Hv, Hlt.
  change (@map) with (@fmap list _) in Hv, Hle, Hlt.
  rewrite list_lookup_fmap in Hv.
  destruct (l !! max_element F32.lt l) as [best|] eqn:Hbest; [|discriminate].
  injection Hv as <-. exists best. split; [reflexivity|]. split.
  - intros j s Hs.
    pose proof (Hle j (F32.key s)
                  ltac:(rewrite list_lookup_fmap, Hs; reflexivity)).
    unfold F32.lt. apply andb_false_iff. right. apply Z.ltb_ge. lia.
  - intros j s Hj Hs.
    pose proof (Hlt j (F32.key s) Hj
                  ltac:(rewrite list_lookup_fmap, Hs; reflexivity)).
    unfold F32.lt, F32.ordered.
    rewrite (Hnan _ _ Hs), (Hnan _ _ Hbest). apply Z.ltb_lt. lia.
Qed.

End Transform_facts.

(** C7.  [transform] runs its stages in a fixed order: the optional
    averaging, which multiplies by the reciprocal of the tree count or, for
    grove-per-class forests, divides by the number of trees per class; the
    addition of the global bias; the optional sigmoid.  The value reached is
    the probability, whatever the class flag and the threshold are; the
    output is the probability, or with the class flag 1 when the probability
    exceeds the threshold and 0 otherwise.  Without averaging this is the
    specified pipeline.  For a grove-per-class row there is one probability
    per class, the transformed class sum, soft-maxed afterwards on request:
    each exponential of the distance to the largest one, divided by the
    accumulated sum of the exponentials.  The class is the position of the
    first largest class sum, taken before any of the stages. *)
Theorem transform_stages (expf : F32.t -> F32.t) (ps : FIL.FilTestParams)
    (f : F32.t) :
  let averaged :=
    if FIL.AVG (FIL.output ps) then
      match FIL.leaf_algo ps with
      | FIL.GROVE_PER_CLASS =>
          F32.div f
            (F32.of_int (Z.quot (FIL.num_trees ps) (FIL.num_classes ps)))
      | _ => F32.mul f (F32.div F32.one (F32.of_int (FIL.num_trees ps)))
      end
    else f in
  let biased := F32.add averaged (FIL.global_bias ps) in
  let proba :=
    if FIL.SIGMOID (FIL.output ps) then FIL.sigmoid expf biased else biased in
  fst (FIL.transform expf ps f) = proba /\
  snd (FIL.transform expf ps f)
  = (if FIL.CLASS (FIL.output ps)
     then (if F32.gt proba (FIL.threshold ps) then F32.one else F32.pos_zero)
     else proba) /\
  (forall (class : bool) (threshold : F32.t),
     fst (FIL.transform expf
            (FIL.mkParams (FIL.num_cols ps) (FIL.depth ps) (FIL.num_trees ps)
               (FIL.mkOutput (FIL.AVG (FIL.output ps))
                  (FIL.SIGMOID (FIL.output ps)) class
                  (FIL.SOFTMAX (FIL.output ps)))
               threshold (FIL.global_bias ps) (FIL.op ps) (FIL.leaf_algo ps)
               (FIL.num_classes ps)) f)
     = proba) /\
  (FIL.AVG (FIL.output ps) = false ->
   FIL.transform expf ps f = FIL.spec_transform expf ps f) /\
  (forall leaves,
     let scores := FIL.grove_class_scores ps leaves in
     let probas := map (fun s => fst (FIL.transform expf ps s)) scores in
     let class := FIL.max_element F32.lt scores in
     snd (FIL.predict_row_grove expf ps leaves)
     = F32.of_int (Z.of_nat class) /\
     (0 < FIL.num_classes ps ->
      length (fst (FIL.predict_row_grove expf ps leaves))
      = Z.to_nat (FIL.num_classes ps) /\
      (Forall (fun s => F32.isnan s = false) scores ->
       exists best,
         (class < Z.to_nat (FIL.num_classes ps))%nat /\
         scores !! class = Some best /\
         (forall c s, scores !! c = Some s -> F32.lt best s = false) /\
         (forall c s, (c < class)%nat -> scores !! c = Some s ->
            F32.lt s best = true))) /\
     (FIL.SOFTMAX (FIL.output ps) = false ->
      fst (FIL.predict_row_grove expf ps leaves) = probas) /\
     (FIL.SOFTMAX (FIL.output ps) = true ->
      forall i p, probas !! i = Some p ->
        let max :=
          default F32.quiet_nan (probas !! FIL.max_element F32.lt probas) in
        let exps := map (fun s => expf (F32.sub s max)) probas in
        fst (FIL.predict_row_grove expf ps leaves) !! i
        = Some (F32.div (expf (F32.sub p max)) (FIL.accumulate exps)))).
Proof.
  cbv zeta. split; [reflexivity|]. split; [reflexivity|].
  split; [reflexivity|]. split.
  - intros Havg. unfold FIL.transform, FIL.spec_transform.
    rewrite Havg. reflexivity.
  - intros leaves. split; [reflexivity|]. split; [|split].
    + intros Hn.
      assert (Hlen : length (FIL.grove_class_scores ps leaves)
                     = Z.to_nat (FIL.num_classes ps)).
      { unfold FIL.grove_class_scores. cbv zeta.
        apply (grove_fold_spec ps leaves ltac:(lia) 0
                 (replicate (Z.to_nat (FIL.num_classes ps)) F32.pos_zero)
                 (length_replicate _ _)). }
      split.
      * unfold FIL.predict_row_grove. cbv zeta. cbn [fst].
        destruct (FIL.SOFTMAX (FIL.output ps));
          rewrite ?(apply_softmax_length expf), length_map; exact Hlen.
      * intros Hnan.
        destruct (max_element_float_first_max
                    (FIL.grove_class_scores ps leaves))
          as (best & Hbest & Hle & Hlt); [|exact Hnan|].
        { intros E. rewrite E in Hlen. simpl in Hlen. lia. }
        exists best. split; [|split; [exact Hbest|split; assumption]].
        apply lookup_lt_Some in Hbest. lia.
    + intros Hs. unfold FIL.predict_row_grove. cbv zeta.
      rewrite Hs. reflexivity.
    + intros Hs. unfold FIL.predict_row_grove. cbv zeta.
      rewrite Hs. cbn [fst].
      intros i p Hp. exact (apply_softmax_lookup expf _ i p Hp).
Qed.

(** Thresholding without averaging: the pipeline is the specified one. *)
Lemma transform_stages_witness :
  let ps := FIL.mkParams 20 8 50 (FIL.mkOutput false false true false)
              F32.pos_zero F32.one FIL.kLT FIL.FLOAT_UNARY_BINARY 1 in
  FIL.transform (fun x => x) ps F32.one
  = FIL.spec_transform (fun x => x) ps F32.one /\
  FIL.transform (fun x => x) ps F32.one = (0x40000000, F32.one).
Proof.
  intros ps.
  destruct (transform_stages (fun x => x) ps F32.one) as (_ & _ & _ & H & _).
  split; [apply H; reflexivity | vm_compute; reflexivity].
Defined.

(** Where the pipeline is not the specified one.  Averaging: with 52 trees in
    4 classes a class sum of 52 is divided by the 13 trees of the class, not
    by the tree count.  Soft-max: for ten classes with equal sums, and an
    [expf] that is 1 at 0, every score is 0.1f; the ten add up to
    1.0000001 in [float] and to 1.0000000149 exactly, not to 1.  Argmax: with
    a bias of 2^30 the class sums 1 and 2 are both transformed to 2^30, whose
    first largest position is 0, while the class returned is 1, the position
    of the largest untransformed sum. *)
Lemma transform_stages_counterexample :
  (let ps := FIL.mkParams 20 8 52 (FIL.mkOutput true false false false)
               F32.pos_zero F32.pos_zero FIL.kLT FIL.GROVE_PER_CLASS 4 in
   let f := F32.of_int 52 in
   FIL.transform (fun x => x) ps f = (0x40800000, 0x40800000) /\
   FIL.spec_transform (fun x => x) ps f = (F32.one, F32.one) /\
   FIL.transform (fun x => x) ps f <> FIL.spec_transform (fun x => x) ps f) /\
  (forall expf : F32.t -> F32.t, expf F32.pos_zero = F32.one ->
   let ps := FIL.mkParams 20 8 10 (FIL.mkOutput false false false true)
               F32.pos_zero F32.pos_zero FIL.kLT FIL.GROVE_PER_CLASS 10 in
   let probas :=
     fst (FIL.predict_row_grove expf ps (replicate 10 F32.one)) in
   probas = replicate 10 0x3DCCCCCD /\
   FIL.accumulate probas = 0x3F800001 /\
   FIL.accumulate probas <> F32.one /\
   exact_sum probas = 10 * F32.scaled 0x3DCCCCCD /\
   exact_sum probas <> F32.scaled F32.one) /\
  (let ps := FIL.mkParams 20 8 2 FIL.RAW F32.pos_zero 0x4E800000 FIL.kLT
               FIL.GROVE_PER_CLASS 2 in
   let row := FIL.predict_row_grove (fun x => x) ps [F32.one; 0x40000000] in
   FIL.grove_class_scores ps [F32.one; 0x40000000] = [F32.one; 0x40000000] /\
   fst row = [0x4E800000; 0x4E800000] /\
   FIL.max_element F32.lt (fst row) = 0%nat /\
   snd row = F32.of_int 1 /\
   snd row <> F32.of_int (Z.of_nat (FIL.max_element F32.lt (fst row)))).
Proof.
  split; [|split].
  - intros ps f.
    assert (H1 : FIL.transform (fun x => x) ps f = (0x40800000, 0x40800000))
      by (vm_compute; reflexivity).
    assert (H2 : FIL.spec_transform (fun x => x) ps f = (F32.one, F32.one))
      by (vm_compute; reflexivity).
    split; [exact H1|]. split; [exact H2|].
    rewrite H1, H2. discriminate.
  - intros expf Hexp ps probas.
    assert (Hp : probas = replicate 10 0x3DCCCCCD).
    { unfold probas, FIL.predict_row_grove. cbv zeta.
      replace (FIL.grove_class_scores ps (replicate 10 F32.one))
        with (replicate 10 F32.one) by (vm_compute; reflexivity).
      cbn [FIL.SOFTMAX FIL.output ps fst].
      replace (map (fun s => fst (FIL.transform expf ps s))
                 (replicate 10 F32.one))
        with (replicate 10 F32.one) by (vm_compute; reflexivity).
      unfold FIL.apply_softmax. cbv zeta.
      replace (default F32.quiet_nan
                 (replicate 10 F32.one
                  !! FIL.max_element F32.lt (replicate 10 F32.one)))
        with F32.one by (vm_compute; reflexivity).
      cbn [replicate map].
      replace (F32.sub F32.one F32.one) with F32.pos_zero
        by (vm_compute; reflexivity).
      rewrite Hexp. vm_compute. reflexivity. }
    rewrite Hp. split; [reflexivity|].
    split; [vm_compute; reflexivity|].
    split; [vm_compute; discriminate|].
    split; [vm_compute; reflexivity|vm_compute; discriminate].
  - intros ps row.
    split; [vm_compute; reflexivity|].
    split; [vm_compute; reflexivity|].
    split; [vm_compute; reflexivity|].
    split; [vm_compute; reflexivity|vm_compute; discriminate].
Qed.

(** Three scalar trees: multiplying 5 by the rounded reciprocal of 3 and
    dividing 5 by 3 differ in the last bit. *)
Example transform_reciprocal_rounding :
  let ps := FIL.mkParams 20 8 3 (FIL.mkOutput true false false false)
              F32.pos_zero F32.pos_zero FIL.kLT FIL.FLOAT_UNARY_BINARY 1 in
  let f := F32.of_int 5 in
  fst (FIL.transform (fun x => x) ps f) = 0x3FD55556 /\
  fst (FIL.spec_transform (fun x => x) ps f) = 0x3FD55555.
Proof. vm_compute. split; reflexivity. Qed.
